(** * gitopo: graph-layout engine of [src/renderer/main.js]

    Shallow embedding of the commit model, the first-parent lineage walk
    ([getFirstParentLineage]), the sub-branch classifier ([findSubBranches]),
    the column/offset layout and edge classification of [renderGraph], the
    Ctrl/Cmd-wheel zoom handler, and the commit feed parser ([fetchCommits]).

    Conventions of the embedding:
    - a hash is a [string]; JS [Set]s of hashes keep insertion order, so they
      are lists without repetitions; a JS [Map] is a lookup function whose
      last [set] wins;
    - a JS number read from the feed is [option Q], [None] standing for NaN;
    - JS truthiness of a hash is "not the empty string". *)

From Stdlib Require Import String Ascii List Bool Arith Lia ZArith QArith.
From Stdlib Require Import Sorting.Sorted Permutation.
From Stdlib Require Reals Lra.
Import ListNotations.
Open Scope nat_scope.


(** ** Data model *)

Definition hash := string.

(** A JS number: [None] is NaN. Timestamps parsed by [parseInt] are integers;
    the scenario of the spec also uses fractional ones, hence [Q]. *)
Definition number := option Q.

Record Commit := mkCommit {
  chash : hash;
  parents : list hash;
  timestamp : number;
  message : string
}.

Record Branch := mkBranch { bname : string; bhash : hash }.

Definition mem (h : hash) (s : list hash) : bool := existsb (String.eqb h) s.

(** [Set.prototype.add]: append when absent. *)
Definition set_add (s : list hash) (h : hash) : list hash :=
  if mem h s then s else s ++ [h].

(** [hashToCommit]: built by [allCommits.forEach(c => map.set(c.hash, c))],
    so the last commit with a given hash wins. *)
Fixpoint hashToCommit (cs : list Commit) (h : hash) : option Commit :=
  match cs with
  | [] => None
  | c :: r =>
      match hashToCommit r h with
      | Some c' => Some c'
      | None => if String.eqb (chash c) h then Some c else None
      end
  end.

(** JS truthiness of a string. *)
Definition truthy (h : hash) : bool := negb (String.eqb h EmptyString).

(** ** Lineage tracer: [getFirstParentLineage] *)

(** The step taken at the end of one loop iteration: [parents[0]] when the
    current hash has an entry with at least one parent, otherwise [break]. *)
Definition fp_next (cs : list Commit) (h : hash) : option hash :=
  match hashToCommit cs h with
  | Some c => match parents c with p :: _ => Some p | [] => None end
  | None => None
  end.

(** The [while (currentHash)] loop. The loop has no bound of its own; the
    model counts iterations with [fuel]: [lineage_loop cs n h acc] is
    [Some lin] when the loop exits after at most [n] executions of its body,
    [None] when it needs more. *)
Fixpoint lineage_loop (cs : list Commit) (fuel : nat) (currentHash : hash)
    (lineage : list hash) : option (list hash) :=
  if negb (truthy currentHash) then Some lineage
  else
    match fuel with
    | O => None
    | S f =>
        let lineage' := set_add lineage currentHash in
        match fp_next cs currentHash with
        | Some p => lineage_loop cs f p lineage'
        | None => Some lineage'
        end
    end.

Definition find_branch (branches : list Branch) (name : string) : option Branch :=
  find (fun b => String.eqb (bname b) name) branches.

Definition getFirstParentLineage (cs : list Commit) (branches : list Branch)
    (fuel : nat) (branchName : string) : option (list hash) :=
  match find_branch branches branchName with
  | None => Some []
  | Some b => lineage_loop cs fuel (bhash b) []
  end.

(** The hashes whose iteration the loop executes, for at most [n] iterations. *)
Fixpoint fp_trace (cs : list Commit) (n : nat) (h : hash) : list hash :=
  if negb (truthy h) then []
  else
    match n with
    | O => []
    | S f => h :: match fp_next cs h with
                  | Some p => fp_trace cs f p
                  | None => []
                  end
    end.

(** [x] is reached from [h] by following first parents, the loop running at
    each hash it meets (so each of them is truthy). *)
Inductive fp_reach (cs : list Commit) : hash -> hash -> Prop :=
| fp_here : forall h, truthy h = true -> fp_reach cs h h
| fp_step : forall h p x, truthy h = true -> fp_next cs h = Some p ->
    fp_reach cs p x -> fp_reach cs h x.

(** ** Sub-branch classifier: [findSubBranches] *)

(** A lineage [Set] object. [otherLineage === lineage] compares object
    identity, which the model carries as [lref]. *)
Record LSet := mkLSet { lref : nat; lmem : list hash }.

Record SubBranch := mkSubBranch {
  mergeCommit : option hash;
  branchPoint : option hash;
  sbcommits : list hash
}.

(** [hashToChildren.get(h) || []]: built by pushing [commit.hash] for each
    entry of [commit.parents], in [allCommits] order. *)
Definition hashToChildren (cs : list Commit) (h : hash) : list hash :=
  flat_map (fun c => map (fun _ => chash c) (filter (String.eqb h) (parents c))) cs.

Section FindSubBranches.

Variable allCommits : list Commit.
Variable lineage : list hash.
Variable excludeCommits : list hash.

(** The pushes of one visited commit: [toVisit.push(x)] for each [x] of [xs]
    outside [lineage], [excludeCommits] and [commits]; the stack top is the
    head of the list. *)
Definition push_unvisited (commits : list hash) (xs : list hash)
    (toVisit : list hash) : list hash :=
  fold_left (fun st x =>
      if negb (mem x lineage) && negb (mem x excludeCommits) && negb (mem x commits)
      then x :: st else st) xs toVisit.

(** [collectConnectedCommits]: the stack loop. Each iteration pops one hash;
    every push comes from a hash added to [commits], once per parent or child
    entry, so [1 + 2 * (number of parent entries)] iterations always suffice
    ([collect_fuel]). *)
Fixpoint collect_loop (fuel : nat) (processedCommits : list hash)
    (commits toVisit : list hash) : list hash :=
  match toVisit with
  | [] => commits
  | currentHash :: rest =>
      match fuel with
      | O => commits
      | S f =>
          if mem currentHash commits || mem currentHash lineage
             || mem currentHash excludeCommits || mem currentHash processedCommits
          then collect_loop f processedCommits commits rest
          else
            match hashToCommit allCommits currentHash with
            | None => collect_loop f processedCommits commits rest
            | Some current =>
                let commits' := commits ++ [currentHash] in
                let st1 := push_unvisited commits' (parents current) rest in
                let st2 := push_unvisited commits' (hashToChildren allCommits currentHash) st1 in
                collect_loop f processedCommits commits' st2
            end
      end
  end.

Definition collect_fuel : nat :=
  S (2 * fold_right (fun c n => length (parents c) + n) 0 allCommits).

Definition collectConnectedCommits (processedCommits : list hash) (startHash : hash)
    : list hash :=
  collect_loop collect_fuel processedCommits [] [startHash].

(** [isValidSubBranch]: every parent of every member is in [lineage] or in the set. *)
Definition isValidSubBranch (commitSet : list hash) : bool :=
  forallb (fun h =>
      match hashToCommit allCommits h with
      | None => true
      | Some c => forallb (fun p => mem p lineage || mem p commitSet) (parents c)
      end) commitSet.

(** [findMergeCommitOnLineage]: the first lineage member (in insertion order)
    with at least two parents, one of the non-first ones in the set. *)
Definition findMergeCommitOnLineage (commitSet targetLineage : list hash) : option hash :=
  find (fun h =>
      match hashToCommit allCommits h with
      | None => false
      | Some c =>
          if Nat.ltb (length (parents c)) 2 then false
          else existsb (fun p => mem p commitSet) (tl (parents c))
      end) targetLineage.

(** [findBranchPoint]: the first lineage parent of the first member that has one. *)
Fixpoint findBranchPoint (commitSet : list hash) : option hash :=
  match commitSet with
  | [] => None
  | h :: r =>
      match hashToCommit allCommits h with
      | Some c =>
          match find (fun p => mem p lineage) (parents c) with
          | Some p => Some p
          | None => findBranchPoint r
          end
      | None => findBranchPoint r
      end
  end.

Definition truthy_opt (o : option hash) : bool :=
  match o with Some h => truthy h | None => false end.

(** State of the main loop: [processedCommits] and [subBranches]. *)
Record FSBState := mkFSB { processedCommits : list hash; subBranches : list SubBranch }.

Variable self : LSet.
Variable allKeyBranchLineages : list LSet.

(** One iteration of [for (const commit of allCommits)]. *)
Definition fsb_step (st : FSBState) (commit : Commit) : FSBState :=
  let h := chash commit in
  if mem h lineage || mem h excludeCommits || mem h (processedCommits st) then st
  else
    let subBranchCommits := collectConnectedCommits (processedCommits st) h in
    if Nat.ltb 0 (length subBranchCommits) && isValidSubBranch subBranchCommits then
      let mergeOnThisLineage := findMergeCommitOnLineage subBranchCommits lineage in
      let mergedIntoOtherKeyBranch :=
        existsb (fun other =>
            if Nat.eqb (lref other) (lref self) then false
            else truthy_opt (findMergeCommitOnLineage subBranchCommits (lmem other)))
          allKeyBranchLineages in
      if truthy_opt mergeOnThisLineage || negb mergedIntoOtherKeyBranch then
        mkFSB (processedCommits st ++ subBranchCommits)
              (subBranches st ++ [mkSubBranch mergeOnThisLineage
                                   (findBranchPoint subBranchCommits)
                                   subBranchCommits])
      else st
    else st.

End FindSubBranches.

(** [findSubBranches(lineage, excludeCommits, allKeyBranchLineages)]: the
    object [lineage] is [self]; its members are [lmem self]. *)
Definition findSubBranches (allCommits : list Commit) (self : LSet)
    (excludeCommits : list hash) (allKeyBranchLineages : list LSet) : list SubBranch :=
  subBranches (fold_left
    (fsb_step allCommits (lmem self) excludeCommits self allKeyBranchLineages)
    allCommits (mkFSB [] [])).

(** ** Layout engine: the column and offset pass of [renderGraph] *)

(** [allCommits.findIndex((c) => c.hash === h)]. *)
Fixpoint findIndex (cs : list Commit) (h : hash) : Z :=
  match cs with
  | [] => (-1)%Z
  | c :: r => if String.eqb (chash c) h then 0%Z
              else match findIndex r h with
                   | (-1)%Z => (-1)%Z
                   | i => (i + 1)%Z
                   end
  end.

(** The accumulators [oldestTimestamp] / [newestTimestamp], which start at
    [-Infinity] / [Infinity]. *)
Inductive ext := NegInf | PosInf | Fin (q : Q).

(** [t > e] and [t < e] on JS numbers: false when [t] is NaN. *)
Definition js_gt (t : number) (e : ext) : bool :=
  match t, e with
  | None, _ => false
  | Some _, NegInf => true
  | Some _, PosInf => false
  | Some q, Fin x => negb (Qle_bool q x)
  end.

Definition js_lt (t : number) (e : ext) : bool :=
  match t, e with
  | None, _ => false
  | Some _, NegInf => false
  | Some _, PosInf => true
  | Some q, Fin x => negb (Qle_bool x q)
  end.

Record SBSpan := mkSBSpan { sb : SubBranch; startRow : Z; endRow : Z }.

Section Spans.

Variable allCommits : list Commit.

(** The fallback scans: keep the row of the last member whose timestamp beats
    the accumulator. *)
Definition scan_rows (better : number -> ext -> bool) (init : ext) (row0 : Z)
    (members : list hash) : Z :=
  snd (fold_left (fun '(acc, row) h =>
          match hashToCommit allCommits h with
          | Some c => if better (timestamp c) acc
                      then (match timestamp c with Some q => Fin q | None => acc end,
                            findIndex allCommits h)
                      else (acc, row)
          | None => (acc, row)
          end) members (init, row0)).

Definition span_of (s : SubBranch) : SBSpan :=
  let startRow0 :=
    match branchPoint s with
    | Some bp => if truthy bp then findIndex allCommits bp else (-1)%Z
    | None => (-1)%Z
    end in
  let startRow :=
    if Z.ltb startRow0 0 then scan_rows js_gt NegInf startRow0 (sbcommits s)
    else startRow0 in
  let endRow :=
    match mergeCommit s with
    | Some m => if truthy m then findIndex allCommits m
                else scan_rows js_lt PosInf (-1)%Z (sbcommits s)
    | None => scan_rows js_lt PosInf (-1)%Z (sbcommits s)
    end in
  mkSBSpan s startRow endRow.

End Spans.

(** [[...].sort((a, b) => b.startRow - a.startRow)]: a consistent comparator,
    so the result is the unique stable sort, here by insertion. *)
Fixpoint insert_desc (x : SBSpan) (l : list SBSpan) : list SBSpan :=
  match l with
  | [] => [x]
  | y :: r => if Z.ltb (startRow y) (startRow x) then x :: l else y :: insert_desc x r
  end.

Definition sort_desc (l : list SBSpan) : list SBSpan :=
  fold_left (fun acc x => insert_desc x acc) l [].

(** [rowOffsetUsage] as the list of reserved (row, offset) pairs. *)
Definition Usage := list (Z * nat).

Definition used (u : Usage) (row : Z) (off : nat) : bool :=
  existsb (fun '(r, o) => Z.eqb r row && Nat.eqb o off) u.

(** [for (let row = spanStart; row < spanEnd; row++)]. *)
Definition rows_between (a b : Z) : list Z :=
  map (fun k => (a + Z.of_nat k)%Z) (seq 0 (Z.to_nat (b - a))).

(** The [while (hasCollision)] loop: each failing offset is reserved by an
    earlier entry of [u], so [S (length u)] rounds suffice. *)
Fixpoint find_offset (fuel : nat) (u : Usage) (rs : list Z) (off : nat) : nat :=
  match fuel with
  | O => off
  | S f => if existsb (fun r => used u r off) rs then find_offset f u rs (S off) else off
  end.

(** Decimal rendering of the counter in [`sb-${subBranchIdCounter++}`]. *)
Fixpoint digits_aux (fuel n : nat) (acc : string) : string :=
  match fuel with
  | O => acc
  | S f =>
      let acc' := String (ascii_of_nat (48 + n mod 10)) acc in
      if Nat.ltb n 10 then acc' else digits_aux f (n / 10) acc'
  end.

Definition subBranchIdOf (counter : nat) : string :=
  String.append "sb-" (digits_aux (S counter) counter EmptyString).

(** The [sortedSubBranches.forEach] of one lineage: each entry receives its
    offset and id; the reservations accumulate. *)
Fixpoint assign_offsets (sorted : list SBSpan) (u : Usage) (counter : nat)
    : list (SBSpan * nat * string) * nat :=
  match sorted with
  | [] => ([], counter)
  | s :: r =>
      let spanStart := Z.min (startRow s) (endRow s) in
      let spanEnd := Z.max (startRow s) (endRow s) in
      let rs := rows_between spanStart spanEnd in
      let off := find_offset (S (length u)) u rs 1 in
      let u' := u ++ map (fun row => (row, off)) rs in
      let '(rest, counter') := assign_offsets r u' (S counter) in
      ((s, off, subBranchIdOf counter) :: rest, counter')
  end.

(** The offsets of one lineage's sub-branches, [rowOffsetUsage] fresh. *)
Definition lineage_offsets (cs : list Commit) (subBranchList : list SubBranch)
    (counter : nat) : list (SBSpan * nat * string) * nat :=
  assign_offsets (sort_desc (map (span_of cs) subBranchList)) [] counter.

(** [commitColumn] entries: [{ mainCol, subOffset, isSubBranch, subBranchId }]. *)
Record Col := mkCol {
  mainCol : nat; subOffset : nat; isSubBranch : bool; subBranchId : option string
}.

(** A JS [Map] keyed by hash, newest [set] first. *)
Definition HMap (A : Type) := list (hash * A).

Fixpoint hget {A} (m : HMap A) (h : hash) : option A :=
  match m with
  | [] => None
  | (k, v) :: r => if String.eqb k h then Some v else hget r h
  end.

Definition hset {A} (m : HMap A) (h : hash) (v : A) : HMap A := (h, v) :: m.

(** [renderGraph] steps 1 and 2: every selected name's lineage, each walk run
    with [S (length cs)] iterations. [None] when a walk needs more; then the
    walk has met a hash twice (see the lineage walk proofs)
    and the JS loop never ends. *)
Fixpoint allLineagesOf (cs : list Commit) (branches : list Branch)
    (selected : list string) : option (list (string * list hash)) :=
  match selected with
  | [] => Some []
  | name :: r =>
      match getFirstParentLineage cs branches (S (length cs)) name, allLineagesOf cs branches r with
      | Some l, Some ls => Some ((name, l) :: ls)
      | _, _ => None
      end
  end.

Definition indexed {A} (l : list A) : list (nat * A) := combine (seq 0 (length l)) l.

(** [allLineageSets]: the lineage object of position [i] has identity [i]. *)
Definition allLineageSets (allLineages : list (string * list hash)) : list LSet :=
  map (fun '(i, (_, l)) => mkLSet i l) (indexed allLineages).

(** [otherLineageCommits] of the branch [name]: all lineages of other names. *)
Definition otherLineageCommits (allLineages : list (string * list hash)) (name : string)
    : list hash :=
  flat_map (fun '(nm, l) => if String.eqb nm name then [] else l) allLineages.

Record BranchLineage := mkBL { blname : string; bllineage : list hash; blsub : list SubBranch }.

(** [branchLineages]: one [findSubBranches] pass per selected branch, in
    selection order, each with its own [processedCommits]. *)
Definition branchLineagesOf (cs : list Commit) (allLineages : list (string * list hash))
    : list BranchLineage :=
  map (fun '(i, (name, l)) =>
         mkBL name l (findSubBranches cs (mkLSet i l)
                        (otherLineageCommits allLineages name)
                        (allLineageSets allLineages)))
      (indexed allLineages).

(** [commitColumn] after the default, mainline and sub-branch assignments. *)
Definition defaultColumns (cs : list Commit) (n : nat) : HMap Col :=
  fold_left (fun m c => hset m (chash c) (mkCol n 0 false None)) cs [].

Definition mainlineColumns (bls : list BranchLineage) (m0 : HMap Col) : HMap Col :=
  fold_left (fun m '(i, bl) =>
      fold_left (fun m' h => hset m' h (mkCol i 0 false None)) (bllineage bl) m)
    (indexed bls) m0.

Fixpoint subBranchColumns (cs : list Commit) (bls : list (nat * BranchLineage))
    (counter : nat) (m : HMap Col) : HMap Col :=
  match bls with
  | [] => m
  | (i, bl) :: r =>
      let '(assigned, counter') := lineage_offsets cs (blsub bl) counter in
      let m' := fold_left (fun m1 '(s, off, id) =>
                  fold_left (fun m2 h => hset m2 h (mkCol i off true (Some id)))
                    (sbcommits (sb s)) m1) assigned m in
      subBranchColumns cs r counter' m'
  end.

(** The entries the [sortedSubBranches.forEach] loops of [subBranchColumns]
    handle, lineage by lineage, each with its lineage index; the counter runs
    on from lineage to lineage. *)
Fixpoint subBranchAssignments (cs : list Commit) (bls : list (nat * BranchLineage))
    (counter : nat) : list (nat * (SBSpan * nat * string)) :=
  match bls with
  | [] => []
  | (i, bl) :: r =>
      let '(assigned, counter') := lineage_offsets cs (blsub bl) counter in
      (map (fun e => (i, e)) assigned ++ subBranchAssignments cs r counter')%list
  end.

Definition commitColumnOf (cs : list Commit) (bls : list BranchLineage) : HMap Col :=
  subBranchColumns cs (indexed bls) 0
    (mainlineColumns bls (defaultColumns cs (length bls))).

Definition nodeSpacingY := 30.
Definition mainColumnWidth := 150.
Definition subBranchOffset := 30.
Definition paddingTop := 50.
Definition paddingLeft := 50.

Definition colOf (cc : HMap Col) (h : hash) (n : nat) : Col :=
  match hget cc h with Some c => c | None => mkCol n 0 false None end.

(** The maximum [subOffset] over [allCommits] in column [i]. *)
Definition maxOffsetOf (cs : list Commit) (cc : HMap Col) (n i : nat) : nat :=
  fold_left (fun mx c =>
      let col := colOf cc (chash c) n in
      if Nat.eqb (mainCol col) i && Nat.ltb mx (subOffset col) then subOffset col else mx)
    cs 0.

(** [columnStartX.get(i)]. *)
Fixpoint columnStartX (cs : list Commit) (cc : HMap Col) (n i : nat) : nat :=
  match i with
  | O => paddingLeft
  | S j => columnStartX cs cc n j + mainColumnWidth + maxOffsetOf cs cc n j * subBranchOffset
  end.

Record Placement := mkPlacement {
  pcol : nat; psubOffset : nat; prow : nat; px : nat; py : nat;
  pisSubBranch : bool; psubBranchId : option string
}.

Definition positionsOf (cs : list Commit) (cc : HMap Col) (n : nat) : HMap Placement :=
  fold_left (fun m '(globalIndex, c) =>
      let col := colOf cc (chash c) n in
      hset m (chash c)
        (mkPlacement (mainCol col) (subOffset col) globalIndex
           (columnStartX cs cc n (mainCol col) + subOffset col * subBranchOffset)
           (paddingTop + globalIndex * nodeSpacingY)
           (isSubBranch col) (subBranchId col)))
    (indexed cs) [].

Record Layout := mkLayout {
  branchLineages : list BranchLineage;
  commitColumn : HMap Col;
  positions : HMap Placement
}.

(** The classification and layout part of [renderGraph]. *)
Definition renderLayout (cs : list Commit) (branches : list Branch)
    (selected : list string) : option Layout :=
  match allLineagesOf cs branches selected with
  | None => None
  | Some ls =>
      let bls := branchLineagesOf cs ls in
      let cc := commitColumnOf cs bls in
      Some (mkLayout bls cc (positionsOf cs cc (length bls)))
  end.

(** [hasOtherCommits]: [Array.from(commitColumn.values()).some((col) =>
    col.mainCol === branchLineages.length)]; the values of the map are the
    current values of its keys. *)
Definition hasOtherCommits (cc : HMap Col) (n : nat) : bool :=
  existsb (fun '(h, _) => match hget cc h with
                          | Some col => Nat.eqb (mainCol col) n
                          | None => false
                          end) cc.

(** ** Edge classifier *)

Record EdgeClass := mkEdgeClass {
  isOtherEdge : bool; isSubBranchEdge : bool; isMainlineEdge : bool
}.

Definition classifyEdge (n : nat) (childPos parentPos : Placement) : EdgeClass :=
  let isOther := Nat.eqb (pcol childPos) n || Nat.eqb (pcol parentPos) n in
  let isSub := pisSubBranch childPos || pisSubBranch parentPos in
  mkEdgeClass isOther isSub (negb isSub && negb isOther && Nat.ltb (pcol childPos) n).

(** The edges drawn: every (child, parent) pair whose both ends have a position. *)
Definition edgesOf (cs : list Commit) (lay : Layout) : list (hash * hash * EdgeClass) :=
  let n := length (branchLineages lay) in
  flat_map (fun c =>
      match hget (positions lay) (chash c) with
      | None => []
      | Some cp =>
          flat_map (fun p =>
              match hget (positions lay) p with
              | Some pp => [(chash c, p, classifyEdge n cp pp)]
              | None => []
              end) (parents c)
      end) cs.

(** ** Hover highlighting: [findConnectingEdges] of [renderGraph] *)

(** [pos && pos.col === branchLineages.length && !pos.isSubBranch]. *)
Definition in_other_column (n : nat) (o : option Placement) : bool :=
  match o with
  | Some pos => Nat.eqb (pcol pos) n && negb (pisSubBranch pos)
  | None => false
  end.

(** The arrays and set the two inner functions share: [edges] and
    [visited]. *)
Record CEState := mkCE { cedges : list (hash * hash); cvisited : list hash }.

Section ConnectingEdges.

Variable allCommits : list Commit.
Variable lay : Layout.

Let n := length (branchLineages lay).

(** [traverseParents] and [traverseChildren]. Each call that does not return
    at once adds a hash absent from [visited]; below the first call these
    are placed hashes, so the recursion is at most [|allCommits| + 1] deep,
    and [fuel] bounds it. *)
Fixpoint traverseParents (fuel : nat) (st : CEState) (h : hash) : CEState :=
  match fuel with
  | O => st
  | S f =>
      if mem h (cvisited st) then st else
      let st := mkCE (cedges st) (set_add (cvisited st) h) in
      match hashToCommit allCommits h with
      | None => st
      | Some commit =>
          fold_left (fun st parentHash =>
              let st := mkCE (cedges st ++ [(h, parentHash)]) (cvisited st) in
              if in_other_column n (hget (positions lay) parentHash)
              then traverseParents f st parentHash else st)
            (parents commit) st
      end
  end.

Fixpoint traverseChildren (fuel : nat) (st : CEState) (h : hash) : CEState :=
  match fuel with
  | O => st
  | S f =>
      if mem h (cvisited st) then st else
      let st := mkCE (cedges st) (set_add (cvisited st) h) in
      fold_left (fun st childHash =>
          let st := mkCE (cedges st ++ [(childHash, h)]) (cvisited st) in
          if in_other_column n (hget (positions lay) childHash)
          then traverseChildren f st childHash else st)
        (hashToChildren allCommits h) st
  end.

(** [traverseParents(startHash); visited.delete(startHash);
    traverseChildren(startHash); return edges]. *)
Definition findConnectingEdges (startHash : hash) : list (hash * hash) :=
  let fuel := S (S (length allCommits)) in
  let st := traverseParents fuel (mkCE [] []) startHash in
  let st := mkCE (cedges st) (filter (fun x => negb (String.eqb x startHash)) (cvisited st)) in
  cedges (traverseChildren fuel st startHash).

End ConnectingEdges.

(** ** Commit feed parser: [fetchCommits] *)

(** The feed is a sequence of 8-bit code units. [String.prototype.trim] and
    [parseInt] skip WhiteSpace and LineTerminator code units; in this range
    these are TAB, LF, VT, FF, CR, SP and NBSP. *)
Definition is_ws (a : ascii) : bool :=
  match nat_of_ascii a with
  | 9 | 10 | 11 | 12 | 13 | 32 | 160 => true
  | _ => false
  end.

Fixpoint trim_start (s : string) : string :=
  match s with
  | EmptyString => EmptyString
  | String a r => if is_ws a then trim_start r else s
  end.

Fixpoint rev_string (s : string) (acc : string) : string :=
  match s with
  | EmptyString => acc
  | String a r => rev_string r (String a acc)
  end.

Definition trim (s : string) : string :=
  rev_string (trim_start (rev_string (trim_start s) EmptyString)) EmptyString.

(** [s.split(sep)] for a one-character separator. *)
Fixpoint split_on (sep : ascii) (s : string) : list string :=
  match s with
  | EmptyString => [EmptyString]
  | String a r =>
      if Ascii.eqb a sep then EmptyString :: split_on sep r
      else match split_on sep r with
           | [] => [String a EmptyString]
           | x :: xs => String a x :: xs
           end
  end.

Fixpoint join_on (sep : ascii) (l : list string) : string :=
  match l with
  | [] => EmptyString
  | [x] => x
  | x :: r => String.append x (String sep (join_on sep r))
  end.

Definition digit_of (a : ascii) : option nat :=
  let n := nat_of_ascii a in
  if (48 <=? n) && (n <=? 57) then Some (n - 48) else None.

(** The longest digit prefix: its value and its length. *)
Fixpoint digits_prefix (s : string) (acc : Z) (len : nat) : Z * nat :=
  match s with
  | EmptyString => (acc, len)
  | String a r =>
      match digit_of a with
      | Some d => digits_prefix r (acc * 10 + Z.of_nat d)%Z (S len)
      | None => (acc, len)
      end
  end.

(** [parseInt(s, 10)]: leading white space, an optional sign, then the
    longest run of decimal digits; NaN when there is none. Numbers are exact
    integers here (timestamps are far below 2^53). *)
Definition parseInt10 (s : string) : number :=
  let s1 := trim_start s in
  let '(sign, s2) :=
    match s1 with
    | String "-"%char r => ((-1)%Z, r)
    | String "+"%char r => (1%Z, r)
    | _ => (1%Z, s1)
    end in
  let '(v, len) := digits_prefix s2 0%Z 0 in
  if Nat.eqb len 0 then None else Some (inject_Z (sign * v)).

Definition pipe := "|"%char.
Definition space := " "%char.
Definition newline := ascii_of_nat 10.

(** The body of [for (const line of lines)]. *)
Definition parse_line (line : string) : list Commit :=
  let parts := split_on pipe line in
  if Nat.leb 4 (length parts) then
    let parentsStr := nth 1 parts EmptyString in
    let ps := if String.eqb (trim parentsStr) EmptyString then []
              else split_on space (trim parentsStr) in
    [mkCommit (nth 0 parts EmptyString) ps (parseInt10 (nth 2 parts EmptyString))
              (join_on pipe (skipn 3 parts))]
  else [].

(** [commits.sort((a, b) => b.timestamp - a.timestamp)]: [SortCompare] reads a
    NaN result as [+0]. [ts_before x y] is "the comparator puts [x] strictly
    before [y]". With numeric timestamps the comparator is consistent and the
    stable result is unique (insertion sort computes it); with a NaN the
    engine's order is implementation-defined and insertion sort is one of the
    admissible ones. *)
Definition ts_before (x y : Commit) : bool :=
  match timestamp x, timestamp y with
  | Some a, Some b => negb (Qle_bool a b)
  | _, _ => false
  end.

Fixpoint insert_commit (x : Commit) (l : list Commit) : list Commit :=
  match l with
  | [] => [x]
  | y :: r => if ts_before x y then x :: l else y :: insert_commit x r
  end.

Definition sort_commits (l : list Commit) : list Commit :=
  fold_left (fun acc x => insert_commit x acc) l [].

(** The result of [window.gitopo.git.exec]. *)
Inductive ExecResult := ExecOk (output : string) | ExecErr (error : string).

Definition feed_lines (output : string) : list string := split_on newline (trim output).

Definition fetchCommits (result : ExecResult) : list Commit :=
  match result with
  | ExecErr _ => []
  | ExecOk output => sort_commits (flat_map parse_line (feed_lines output))
  end.

(** Sorted newest first: each timestamp is a number at least as large as every
    later one ([>=] on JS numbers is false as soon as one side is NaN). *)
Definition ts_ge (x y : Commit) : Prop :=
  match timestamp x, timestamp y with
  | Some a, Some b => (b <= a)%Q
  | _, _ => False
  end.

Definition sorted_newest_first (l : list Commit) : Prop := StronglySorted ts_ge l.

(** ** The other readers of [git]: [fetchBranches], [fetchRepoName] *)

(** The body of the loop of [fetchBranches]. *)
Definition parse_branch_line (line : string) : list Branch :=
  let parts := split_on space (trim line) in
  if Nat.leb 2 (length parts) then
    [mkBranch (nth 0 parts EmptyString) (nth 1 parts EmptyString)]
  else [].

Definition fetchBranches (result : ExecResult) : list Branch :=
  match result with
  | ExecErr _ => []
  | ExecOk output => flat_map parse_branch_line (feed_lines output)
  end.

Definition slash := "/"%char.

(** [fullPath.split('/').pop() || fullPath]: the array [split] returns is
    never empty, so [pop] yields its last element. *)
Definition fetchRepoName (result : ExecResult) : string :=
  match result with
  | ExecErr _ => "Unknown Repository"%string
  | ExecOk output =>
      let fullPath := trim output in
      let name := last (split_on slash fullPath) EmptyString in
      if String.eqb name EmptyString then fullPath else name
  end.

(** ** The commit-limit input: [getCommitLimit] and its [change] handler *)

Definition Qltb (a b : Q) : bool := negb (Qle_bool b a).

(** [getCommitLimit]; the argument is [input.value]. *)
Definition getCommitLimit (inputValue : string) : Q :=
  match parseInt10 inputValue with
  | None => 1000
  | Some value => if Qltb value 1 || Qltb 100000000 value then 1000 else value
  end.

(** The [change] listener of [init]: an invalid value is replaced by
    [1000] (stored as the string ["1000"]) before [reloadCommits] reads it
    back through [getCommitLimit]. The result is the new [input.value]. *)
Definition onCommitLimitChange (inputValue : string) : string :=
  match parseInt10 inputValue with
  | None => "1000"%string
  | Some value => if Qltb value 1 || Qltb 100000000 value then "1000"%string else inputValue
  end.

(** ** Branch selectors: [populateBranchSelectors], [refresh], [getSelectedBranches] *)

(** The three [select] elements hold a value each; [config.keyBranches || []]
    is a list of names, a missing entry reading as the falsy [undefined]. *)
Definition find_main_or_master (branches : list Branch) : option Branch :=
  find (fun b => String.eqb (bname b) "main" || String.eqb (bname b) "master") branches.

Definition truthy_s (s : string) : bool := negb (String.eqb s EmptyString).

(** The value [populateBranchSelectors] leaves in selector [index]: the
    select is emptied and refilled, so it shows the empty option until a
    value is assigned. *)
Definition populated_value (keyBranches : list string) (branches : list Branch)
    (index : nat) : string :=
  let k := nth index keyBranches EmptyString in
  if truthy_s k then
    match find (fun b => String.eqb (bname b) k) branches with
    | Some configuredBranch => bname configuredBranch
    | None => EmptyString
    end
  else if Nat.eqb index 0 then
    match find_main_or_master branches with
    | Some defaultBranch => bname defaultBranch
    | None => EmptyString
    end
  else EmptyString.

Definition populateBranchSelectors (keyBranches : list string) (branches : list Branch)
    : list string :=
  map (populated_value keyBranches branches) [0; 1; 2].

(** The selector part of [refresh]: the current values are read, the
    selectors repopulated, and each current value put back when it is
    truthy and names one of the new branches. *)
Definition refreshSelections (keyBranches : list string) (branches : list Branch)
    (currentSelections : list string) : list string :=
  map (fun '(index, v) =>
         let cur := nth index currentSelections EmptyString in
         if truthy_s cur && existsb (fun b => String.eqb (bname b) cur) branches
         then cur else v)
      (indexed (populateBranchSelectors keyBranches branches)).

Definition getSelectedBranches (values : list string) : list string :=
  filter truthy_s values.

(** ** Interaction state: the wheel handler of [renderGraph] *)

Module Zoom.

Import Stdlib.Reals.Reals Stdlib.micromega.Lra.
Local Open Scope R_scope.

Record View := mkView { panX : R; panY : R; timeZoom : R }.

Record WheelEvent := mkWheel {
  ctrlKey : bool; metaKey : bool; deltaX : R; deltaY : R; clientY : R
}.

Definition minZoom : R := 1 / 10.
Definition maxZoom : R := 5.

(** [svg.on('wheel', ...)]; [rectTop] is [svg.node().getBoundingClientRect().top]. *)
Definition onWheel (v : View) (rectTop : R) (e : WheelEvent) : View :=
  if ctrlKey e || metaKey e then
    let zoomFactor := if Rlt_dec 0 (deltaY e) then 9 / 10 else 11 / 10 in
    let newTimeZoom := Rmax minZoom (Rmin maxZoom (timeZoom v * zoomFactor)) in
    let mouseY := clientY e - rectTop in
    let graphY := mouseY - panY v in
    mkView (panX v) (mouseY - graphY * (newTimeZoom / timeZoom v)) newTimeZoom
  else mkView (panX v - deltaX e) (panY v - deltaY e) (timeZoom v).

(** Screen Y of a graph-space Y: nodes sit at [pos.y * timeZoom] inside the
    main group, which is translated by [panY]. *)
Definition screenY (v : View) (g : R) : R := timeZoom v * g + panY v.

End Zoom.

(** ** Interaction state: the pointer handlers of [renderGraph] *)

Module Interaction.

Import Zoom.
Import Stdlib.Reals.Reals.
Local Open Scope R_scope.

(** [timeZoom] is a module-level variable; the pan and the drag and touch
    anchors are locals of [renderGraph], reset by every call of it. *)
Record UIState := mkUI {
  view : View;
  isDragging : bool;
  dragStartX : R; dragStartY : R; panStartX : R; panStartY : R;
  touchStartX : R; touchStartY : R; touchPanStartX : R; touchPanStartY : R
}.

Inductive UIEvent :=
  | EvWheel (rectTop : R) (e : WheelEvent)
  | EvMouseDown (button : nat) (clientX clientY : R)
  | EvMouseMove (clientX clientY : R)
  | EvMouseUp (button : nat)
  | EvMouseLeave
  | EvTouchStart (touches : list (R * R))
  | EvTouchMove (touches : list (R * R))
  | EvRender.

Definition withPan (s : UIState) (x y : R) : UIState :=
  mkUI (mkView x y (timeZoom (view s))) (isDragging s)
    (dragStartX s) (dragStartY s) (panStartX s) (panStartY s)
    (touchStartX s) (touchStartY s) (touchPanStartX s) (touchPanStartY s).

Definition step (s : UIState) (ev : UIEvent) : UIState :=
  match ev with
  | EvWheel rectTop e =>
      mkUI (onWheel (view s) rectTop e) (isDragging s)
        (dragStartX s) (dragStartY s) (panStartX s) (panStartY s)
        (touchStartX s) (touchStartY s) (touchPanStartX s) (touchPanStartY s)
  | EvMouseDown button x y =>
      if Nat.eqb button 0 then
        mkUI (view s) true x y (panX (view s)) (panY (view s))
          (touchStartX s) (touchStartY s) (touchPanStartX s) (touchPanStartY s)
      else s
  | EvMouseMove x y =>
      if isDragging s
      then withPan s (panStartX s + (x - dragStartX s)) (panStartY s + (y - dragStartY s))
      else s
  | EvMouseUp button =>
      if Nat.eqb button 0 then
        mkUI (view s) false (dragStartX s) (dragStartY s) (panStartX s) (panStartY s)
          (touchStartX s) (touchStartY s) (touchPanStartX s) (touchPanStartY s)
      else s
  | EvMouseLeave =>
      mkUI (view s) false (dragStartX s) (dragStartY s) (panStartX s) (panStartY s)
        (touchStartX s) (touchStartY s) (touchPanStartX s) (touchPanStartY s)
  | EvTouchStart touches =>
      match touches with
      | [(x, y)] =>
          mkUI (view s) (isDragging s) (dragStartX s) (dragStartY s) (panStartX s) (panStartY s)
            x y (panX (view s)) (panY (view s))
      | _ => s
      end
  | EvTouchMove touches =>
      match touches with
      | [(x, y)] => withPan s (touchPanStartX s + (x - touchStartX s)) (touchPanStartY s + (y - touchStartY s))
      | _ => s
      end
  | EvRender => mkUI (mkView 0 0 (timeZoom (view s))) false 0 0 0 0 0 0 0 0
  end.

Definition run (s : UIState) (evs : list UIEvent) : UIState := fold_left step evs s.

(** The page load: [timeZoom = 1] and a first [renderGraph]. *)
Definition initial : UIState := mkUI (mkView 0 0 1) false 0 0 0 0 0 0 0 0.

(** Screen position of a graph point: nodes sit at [(pos.x, pos.y * timeZoom)]
    in the main group, translated by [(panX, panY)]. *)
Definition screenX (v : View) (gx : R) : R := gx + panX v.

Definition zoom_ok (s : UIState) : Prop := minZoom <= timeZoom (view s) <= maxZoom.

Definition mouse_moves (ms : list (R * R)) : list UIEvent :=
  map (fun '(a, b) => EvMouseMove a b) ms.

Definition touch_moves (ms : list (R * R)) : list UIEvent :=
  map (fun '(a, b) => EvTouchMove [(a, b)]) ms.

End Interaction.

(** ** Derived predicates *)

(** A hash on a first-parent cycle: it reaches itself in at least one step. *)
Definition on_fp_cycle (cs : list Commit) (x : hash) : Prop :=
  truthy x = true /\ exists p, fp_next cs x = Some p /\ fp_reach cs p x.

(** Every [commitColumn] entry has [mainCol <= n]. *)
Definition ColsOk (n : nat) (m : HMap Col) : Prop :=
  forall h v, In (h, v) m -> mainCol v <= n.

(** A commit record whose timestamp is a number (not NaN). *)
Definition has_ts (c : Commit) : Prop := timestamp c <> None.

(** The rows reserved by a sub-branch in the [rowOffsetUsage] loop. *)
Definition span_rows (s : SBSpan) : list Z :=
  rows_between (Z.min (startRow s) (endRow s)) (Z.max (startRow s) (endRow s)).

(** The value of a string of decimal digits, read left to right (used to
    show that the id rendering of [subBranchIdOf] loses nothing). *)
Fixpoint dec_value (s : string) (acc : nat) : nat :=
  match s with
  | EmptyString => acc
  | String a r => dec_value r (acc * 10 + (nat_of_ascii a - 48))
  end.

(** The text [git] prints: [log --format="%H|%P|%ct|%s"] one line per
    commit, [branch --format="%(refname:short) %(objectname)"] one line per
    branch, each line ended by a newline. *)
Record LogEntry := mkLogEntry {
  le_hash : hash; le_parents : list hash; le_ct : nat; le_subject : string
}.

Definition decimal (n : nat) : string := digits_aux (S n) n EmptyString.

Definition log_line (e : LogEntry) : string :=
  String.append (le_hash e) (String pipe
    (String.append (join_on space (le_parents e)) (String pipe
      (String.append (decimal (le_ct e)) (String pipe (le_subject e)))))).

Definition branch_line (b : Branch) : string :=
  String.append (bname b) (String space (bhash b)).

Definition lines_output (ls : list string) : string :=
  fold_right (fun l acc => String.append l (String newline acc)) EmptyString ls.

(** The commit [fetchCommits] should build for an entry. *)
Definition log_commit (e : LogEntry) : Commit :=
  mkCommit (le_hash e) (le_parents e) (Some (inject_Z (Z.of_nat (le_ct e)))) (le_subject e).

(** A word: nonempty, without white space (so without newline or space). *)
Definition word (s : string) : Prop :=
  s <> EmptyString /\ forall a, In a (list_ascii_of_string s) -> is_ws a = false.

Definition no_char (c : ascii) (s : string) : Prop := ~ In c (list_ascii_of_string s).

Definition ends_ws (s : string) : bool :=
  match rev (list_ascii_of_string s) with a :: _ => is_ws a | [] => false end.

(** What [git log] guarantees of a hash and a parent list, and of a subject:
    one line. *)
Definition entry_ok (e : LogEntry) : Prop :=
  word (le_hash e) /\ no_char pipe (le_hash e) /\
  Forall (fun p => word p /\ no_char pipe p) (le_parents e) /\
  no_char newline (le_subject e).

(** [trim_start] on the characters of a text. *)
Fixpoint lts (l : list ascii) : list ascii :=
  match l with [] => [] | a :: r => if is_ws a then lts r else l end.

(** A text that starts, resp. ends, with a character that is not white space. *)
Definition first_clean (s : string) : Prop :=
  exists a m, list_ascii_of_string s = a :: m /\ is_ws a = false.

Definition last_clean (s : string) : Prop :=
  exists b k, rev (list_ascii_of_string s) = b :: k /\ is_ws b = false.

Definition names_branch (bs : list Branch) (v : string) : bool :=
  truthy_s v && existsb (fun b => String.eqb (bname b) v) bs.

Definition parent_link (cs : list Commit) (e : hash * hash) : Prop :=
  exists c, In c cs /\ chash c = fst e /\ In (snd e) (parents c).

(** ** Concrete inputs *)

Module Inputs.

Local Open Scope string_scope.

Definition mk (h : hash) (ps : list hash) (t : Q) : Commit := mkCommit h ps (Some t) "m".

(** Scenario B of the spec, in feed order (newest first). *)
Definition scenarioB : list Commit :=
  [mk "c3" ["c2"; "f1"] 3; mk "c2" ["c1"] 2; mk "f1" ["c1"] (3 # 2); mk "c1" [] 1].
Definition branchesB : list Branch := [mkBranch "main" "c3"].

(** Two first parents pointing at each other. *)
Definition cyclic : list Commit := [mk "a" ["b"] 2; mk "b" ["a"] 1].
Definition branchesA : list Branch := [mkBranch "main" "a"].

(** A window that cuts history below [a]. *)
Definition truncated : list Commit := [mk "a" ["b"] 2].

(** [main] and [dev] fork from [c1]; [f1] forks from [c1] and is not merged. *)
Definition unmerged : list Commit :=
  [mk "m2" ["c1"] 4; mk "d2" ["c1"] 3; mk "f1" ["c1"] 2; mk "c1" [] 1].
Definition branchesMD : list Branch := [mkBranch "main" "m2"; mkBranch "dev" "d2"].

(** [f1] is merged into both [main] ([m2]) and [dev] ([d2]). *)
Definition mergedTwice : list Commit :=
  [mk "m2" ["c1"; "f1"] 4; mk "d2" ["c1"; "f1"] 3; mk "f1" ["c1"] 2; mk "c1" [] 1].

(** [main] merges the tip of [dev]. *)
Definition crossMerge : list Commit :=
  [mk "m2" ["m1"; "d1"] 3; mk "d1" ["m1"] 2; mk "m1" [] 1].
Definition branchesMD1 : list Branch := [mkBranch "main" "m2"; mkBranch "dev" "d1"].

Definition layoutOrEmpty (o : option Layout) : Layout :=
  match o with Some l => l | None => mkLayout [] [] [] end.

Definition crossMergeLayout : Layout :=
  layoutOrEmpty (renderLayout crossMerge branchesMD1 ["main"; "dev"]).

Definition unmergedLayout : Layout :=
  layoutOrEmpty (renderLayout unmerged branchesMD ["main"; "dev"]).

(** Two sub-branches of [main] with disjoint spans. *)
Definition twoFeatures : list Commit :=
  [mk "c3" ["c2"; "g1"] 5; mk "g1" ["c2"] 4; mk "c2" ["c1"; "f1"] 3;
   mk "f1" ["c1"] 2; mk "c1" [] 1].
Definition branchesMain3 : list Branch := [mkBranch "main" "c3"].

Definition twoFeaturesLayout : Layout :=
  layoutOrEmpty (renderLayout twoFeatures branchesMain3 ["main"]).

Definition twoFeaturesLineage : BranchLineage :=
  hd (mkBL EmptyString [] []) (branchLineages twoFeaturesLayout).

Definition twoFeaturesOffsets : list (SBSpan * nat * string) :=
  fst (lineage_offsets twoFeatures (blsub twoFeaturesLineage) 0).

Definition twoFeaturesEntry (i : nat) : SBSpan * nat * string :=
  nth i twoFeaturesOffsets (mkSBSpan (mkSubBranch None None []) 0 0, 0, EmptyString).

Definition line (s : string) : string := String.append s (String newline EmptyString).

(** Scenario C of the spec: a two-field line among valid ones. *)
Definition feedC : string :=
  String.append (line "c2|c1|2|second")
    (String.append (line "short|line") "c1||1|first").

(** A line whose timestamp field is not a number. *)
Definition feedNaN : string := String.append (line "a||x|m") "b||5|n".

(** The lineage of [main] in [twoFeatures] and its sub-branches. *)
Definition mainLineage3 : LSet := mkLSet 0 ["c3"; "c2"; "c1"].

Definition twoFeaturesSubs : list SubBranch :=
  findSubBranches twoFeatures mainLineage3 [] [mainLineage3].

Definition noSub : SubBranch := mkSubBranch None None [].

(** [o1] has a parent outside the window: its component is not a valid
    sub-branch, so it stays in "Other". *)
Definition orphan : list Commit :=
  [mk "c2" ["c1"] 3; mk "o1" ["zz"] 2; mk "c1" [] 1].
Definition branchesMain2 : list Branch := [mkBranch "main" "c2"].

Definition orphanLayout : Layout :=
  layoutOrEmpty (renderLayout orphan branchesMain2 ["main"]).

(** What [git] prints for a two-commit history and two branches. *)
Definition logFeed : list LogEntry :=
  [mkLogEntry "c2" ["c1"] 20 "fix a|b"; mkLogEntry "c1" [] 10 "init"].
Definition branchFeed : list Branch := [mkBranch "main" "c2"; mkBranch "origin/main" "c1"].

End Inputs.

(** * Proofs *)

Ltac solve_word :=
  split; [discriminate | cbn; intros ? Ha; repeat (destruct Ha as [<-|Ha]; [reflexivity|]); destruct Ha].

Ltac solve_no_char :=
  cbn; intros Ha; repeat (destruct Ha as [Ha|Ha]; [discriminate Ha|]); destruct Ha.

Open Scope string_scope.

(** ** Generic facts *)

Lemma mem_In : forall h s, mem h s = true <-> In h s.
Proof.
  intros h s. unfold mem. rewrite existsb_exists. split.
  - intros [x [Hx Heq]]. apply String.eqb_eq in Heq. subst. exact Hx.
  - intros H. exists h. split; [exact H | apply String.eqb_refl].
Qed.

Lemma mem_false : forall h s, mem h s = false <-> ~ In h s.
Proof.
  intros h s. rewrite <- mem_In. destruct (mem h s); split; congruence.
Qed.

Lemma hashToCommit_In : forall cs h c,
  hashToCommit cs h = Some c -> In c cs /\ chash c = h.
Proof.
  induction cs as [|c0 r IH]; simpl; intros h c H; [discriminate|].
  destruct (hashToCommit r h) eqn:E.
  - inversion H; subst. destruct (IH _ _ E). auto.
  - destruct (String.eqb (chash c0) h) eqn:Eq; [|discriminate].
    inversion H; subst. apply String.eqb_eq in Eq. auto.
Qed.

Lemma hashToCommit_of_In : forall cs c,
  In c cs -> exists c', hashToCommit cs (chash c) = Some c'.
Proof.
  induction cs as [|c0 r IH]; simpl; intros c H; [contradiction|].
  destruct (hashToCommit r (chash c)) eqn:E; [eauto|].
  destruct H as [H|H].
  - subst. rewrite String.eqb_refl. eauto.
  - destruct (IH c H) as [c' Hc']. congruence.
Qed.

Lemma In_set_add : forall s h x, In x (set_add s h) <-> In x s \/ x = h.
Proof.
  intros s h x. unfold set_add. destruct (mem h s) eqn:E.
  - apply mem_In in E. split; [auto|]. intros [H|H]; [auto|subst; auto].
  - rewrite in_app_iff. simpl. intuition.
Qed.

Lemma fold_left_invariant : forall {A B} (P : A -> Prop) (f : A -> B -> A) l a,
  P a -> (forall a b, In b l -> P a -> P (f a b)) -> P (fold_left f l a).
Proof.
  intros A B P f l. induction l as [|b l IH]; simpl; intros a Ha Hstep; [exact Ha|].
  apply IH; [apply Hstep; auto | intros; apply Hstep; auto].
Qed.

Lemma In_combine_seq : forall {A} (l : list A) k i x,
  In (i, x) (combine (seq k (length l)) l) -> k <= i /\ nth_error l (i - k) = Some x.
Proof.
  induction l as [|y l IH]; simpl; intros k i x H; [contradiction|].
  destruct H as [H|H].
  - inversion H; subst. rewrite Nat.sub_diag. auto.
  - destruct (IH (S k) i x H) as [Hle Hn]. split; [lia|].
    replace (i - k) with (S (i - S k)) by lia. exact Hn.
Qed.

Lemma In_indexed : forall {A} (l : list A) i x,
  In (i, x) (indexed l) -> nth_error l i = Some x.
Proof.
  intros A l i x H. unfold indexed in H. apply In_combine_seq in H.
  rewrite Nat.sub_0_r in H. tauto.
Qed.

Lemma In_indexed_lt : forall {A} (l : list A) i x, In (i, x) (indexed l) -> i < length l.
Proof.
  intros A l i x H. apply In_indexed in H. apply nth_error_Some. congruence.
Qed.

Lemma hget_In : forall {A} (m : HMap A) h v, hget m h = Some v -> In (h, v) m.
Proof.
  induction m as [|[k v0] r IH]; simpl; intros h v H; [discriminate|].
  destruct (String.eqb k h) eqn:E.
  - inversion H; subst. apply String.eqb_eq in E. subst. auto.
  - right. auto.
Qed.

(** ** Lineage walk *)

Lemma fp_reach_truthy : forall cs h x, fp_reach cs h x -> truthy x = true.
Proof. intros cs h x H. induction H; auto. Qed.

Lemma fp_reach_src_truthy : forall cs h x, fp_reach cs h x -> truthy h = true.
Proof. intros cs h x H. destruct H; auto. Qed.

Lemma fp_reach_unfold : forall cs h x,
  fp_reach cs h x <->
  truthy h = true /\ (x = h \/ exists p, fp_next cs h = Some p /\ fp_reach cs p x).
Proof.
  intros cs h x. split.
  - intros H. destruct H as [h Ht | h p x Ht Hn Hr]; split; eauto.
  - intros [Ht [->|[p [Hn Hr]]]]; [constructor; auto | econstructor; eauto].
Qed.

Lemma fp_reach_snoc : forall cs h x y,
  fp_reach cs h x -> fp_next cs x = Some y -> truthy y = true -> fp_reach cs h y.
Proof.
  intros cs h x y H. induction H as [h Ht | h p x Ht Hn Hr IH]; intros Hxy Hy.
  - econstructor; eauto. constructor; auto.
  - econstructor; eauto.
Qed.

Lemma fp_reach_trans : forall cs h x y,
  fp_reach cs h x -> fp_reach cs x y -> fp_reach cs h y.
Proof.
  intros cs h x y H. induction H as [h Ht | h p x Ht Hn Hr IH]; intros Hxy; auto.
  econstructor; eauto.
Qed.

(** The loop, when it exits, has added exactly the hashes reached from the tip. *)
Lemma lineage_loop_members : forall cs n h acc lin,
  lineage_loop cs n h acc = Some lin ->
  forall x, In x lin <-> In x acc \/ fp_reach cs h x.
Proof.
  induction n as [|f IH]; intros h acc lin H x; simpl in H;
    destruct (truthy h) eqn:Ht; simpl in H.
  - discriminate.
  - inversion H; subst. rewrite fp_reach_unfold, Ht. intuition discriminate.
  - destruct (fp_next cs h) as [p|] eqn:Hn.
    + rewrite (IH _ _ _ H x), In_set_add, (fp_reach_unfold cs h x), Ht.
      split.
      * intros [[Ha|Hx]|Hr]; auto. right; split; eauto.
      * intros [Ha|[_ [Hx|[p' [Hn' Hr]]]]]; auto.
        rewrite Hn in Hn'. inversion Hn'; subst. auto.
    + inversion H; subst. rewrite In_set_add, (fp_reach_unfold cs h x), Ht.
      split.
      * intros [Ha|Hx]; auto.
      * intros [Ha|[_ [Hx|[p' [Hn' _]]]]]; auto. congruence.
  - inversion H; subst. rewrite fp_reach_unfold, Ht. intuition discriminate.
Qed.

(** A first-parent walk reaches at most one hash with no successor. *)
Lemma fp_reach_stop_unique : forall cs h x y,
  fp_reach cs h x -> fp_reach cs h y ->
  fp_next cs x = None -> fp_next cs y = None -> x = y.
Proof.
  intros cs h x y H. revert y.
  induction H as [h Ht | h p x Ht Hn Hr IH]; intros y Hy Hx Hyn.
  - inversion Hy; subst; congruence.
  - inversion Hy; subst; [congruence|].
    match goal with H1 : fp_next cs h = Some _ |- _ => rewrite Hn in H1; inversion H1; subst end.
    apply IH; auto.
Qed.

Lemma fp_next_None_of_missing : forall cs h,
  hashToCommit cs h = None -> fp_next cs h = None.
Proof. intros cs h H. unfold fp_next. rewrite H. reflexivity. Qed.

(** The loop runs out of [n] iterations only after [n] iterations at loaded commits. *)
Lemma lineage_loop_None_trace : forall cs n h acc,
  lineage_loop cs n h acc = None ->
  length (fp_trace cs n h) = n /\
  (forall x, In x (fp_trace cs n h) -> hashToCommit cs x <> None).
Proof.
  induction n as [|f IH]; intros h acc H; simpl in H |- *;
    destruct (truthy h) eqn:Ht; simpl in H |- *; try discriminate.
  - split; [reflexivity | contradiction].
  - destruct (fp_next cs h) as [p|] eqn:Hn; [|discriminate].
    destruct (IH _ _ H) as [Hl Hin]. split; [simpl; lia|].
    intros x [<-|Hx]; [|auto].
    unfold fp_next in Hn. destruct (hashToCommit cs h); congruence.
Qed.

Lemma on_fp_cycle_next : forall cs x p,
  on_fp_cycle cs x -> fp_next cs x = Some p -> on_fp_cycle cs p.
Proof.
  intros cs x p [Ht [p' [Hn Hr]]] Hxp. rewrite Hxp in Hn. inversion Hn; subst p'.
  inversion Hr as [h0 Ht0 | h0 q x0 Ht0 Hn0 Hr0]; subst.
  - split; eauto.
  - split; [auto|]. exists q. split; [auto|].
    eapply fp_reach_snoc; eauto.
Qed.

Lemma fp_cycle_back : forall cs x y,
  fp_reach cs x y -> on_fp_cycle cs x -> fp_reach cs y x.
Proof.
  intros cs x y H. induction H as [h Ht | h p y Ht Hn Hr IH]; intros Hc.
  - constructor; auto.
  - pose proof (on_fp_cycle_next _ _ _ Hc Hn) as Hp.
    destruct Hc as [_ [p' [Hn' Hr']]]. rewrite Hn in Hn'. inversion Hn'; subst p'.
    apply fp_reach_trans with p; auto.
Qed.

Lemma on_fp_cycle_reach : forall cs x y,
  fp_reach cs x y -> on_fp_cycle cs x -> on_fp_cycle cs y.
Proof.
  intros cs x y Hr Hc. pose proof (fp_cycle_back _ _ _ Hr Hc) as Hb.
  inversion Hb as [h0 Ht0 | h0 q x0 Ht0 Hn0 Hr0]; subst; [exact Hc|].
  split; [auto|]. exists q. split; [auto|]. eapply fp_reach_trans; eauto.
Qed.

Lemma lineage_loop_cycle_None : forall cs n y acc,
  on_fp_cycle cs y -> lineage_loop cs n y acc = None.
Proof.
  induction n as [|f IH]; intros y acc Hc; simpl;
    destruct Hc as [Ht [p [Hn Hr]]] eqn:Hc'; rewrite Ht; simpl; [reflexivity|].
  rewrite Hn. apply IH. eapply on_fp_cycle_next; eauto.
Qed.

Lemma lineage_loop_reach_cycle_None : forall cs tip x n acc,
  fp_reach cs tip x -> on_fp_cycle cs x -> lineage_loop cs n tip acc = None.
Proof.
  intros cs tip x n acc H. revert n acc.
  induction H as [h Ht | h p x Ht Hn Hr IH]; intros n acc Hc.
  - apply lineage_loop_cycle_None; auto.
  - destruct n; simpl; rewrite Ht; simpl; [reflexivity|]. rewrite Hn. auto.
Qed.

(** C3 (amended). [getFirstParentLineage] has no iteration bound of its own.
    If the first-parent walk from the tip does not revisit a hash within
    [|commits| + 1] iterations, it exits within [|commits| + 1] iterations;
    if the walk reaches a hash lying on a first-parent cycle, it never exits. *)
Theorem lineage_walk_bound : forall cs branches name b,
  find_branch branches name = Some b ->
  (NoDup (fp_trace cs (S (length cs)) (bhash b)) ->
     getFirstParentLineage cs branches (S (length cs)) name <> None) /\
  (forall x, fp_reach cs (bhash b) x -> on_fp_cycle cs x ->
     forall n, getFirstParentLineage cs branches n name = None).
Proof.
  intros cs branches name b Hb. unfold getFirstParentLineage. rewrite Hb. split.
  - intros Hnd Hnone. destruct (lineage_loop_None_trace _ _ _ _ Hnone) as [Hlen Hin].
    assert (Hincl : incl (fp_trace cs (S (length cs)) (bhash b)) (map chash cs)).
    { intros x Hx. specialize (Hin x Hx).
      destruct (hashToCommit cs x) as [c|] eqn:E; [|congruence].
      destruct (hashToCommit_In _ _ _ E) as [Hc Hh]. subst. apply in_map. exact Hc. }
    pose proof (NoDup_incl_length Hnd Hincl) as Hle.
    rewrite Hlen, length_map in Hle. lia.
  - intros x Hr Hc n. eapply lineage_loop_reach_cycle_None; eauto.
Qed.

(** C3 (counterexample): two commits whose first parents point at each other;
    the walk from [a] does not exit within [|commits| = 2] iterations. *)
Lemma lineage_walk_cycle_exceeds_bound :
  getFirstParentLineage Inputs.cyclic Inputs.branchesA (length Inputs.cyclic) "main" = None.
Proof. vm_compute. reflexivity. Qed.

Lemma lineage_walk_bound_witness :
  getFirstParentLineage Inputs.scenarioB Inputs.branchesB 5 "main" <> None /\
  getFirstParentLineage Inputs.cyclic Inputs.branchesA 7 "main" = None.
Proof.
  split.
  - apply (proj1 (lineage_walk_bound Inputs.scenarioB Inputs.branchesB "main"
                    (mkBranch "main" "c3") eq_refl)).
    vm_compute. repeat constructor; simpl; intuition discriminate.
  - apply (proj2 (lineage_walk_bound Inputs.cyclic Inputs.branchesA "main"
                    (mkBranch "main" "a") eq_refl) "a").
    + apply fp_here. reflexivity.
    + split; [reflexivity|]. exists "b". split; [reflexivity|].
      apply fp_step with "a"; [reflexivity|reflexivity|]. apply fp_here. reflexivity.
Defined.

(** C8 (amended). When [getFirstParentLineage] returns, its set is empty if no
    branch has the name; otherwise it is exactly the set of hashes reached from
    the tip by following [parents[0]], the tip included, the walk stopping at a
    hash with no entry in the commit index, with no parents, or with an empty
    first parent. The stopping hash is included even without an entry, so at
    most one member lacks an entry in the commit index. *)
Theorem lineage_members_reached : forall cs branches n name lin,
  getFirstParentLineage cs branches n name = Some lin ->
  (find_branch branches name = None -> lin = []) /\
  (forall b, find_branch branches name = Some b ->
     forall x, In x lin <-> fp_reach cs (bhash b) x) /\
  (forall x y, In x lin -> In y lin ->
     hashToCommit cs x = None -> hashToCommit cs y = None -> x = y).
Proof.
  intros cs branches n name lin H. unfold getFirstParentLineage in H.
  destruct (find_branch branches name) as [b|] eqn:Hb.
  - assert (Hm : forall x, In x lin <-> fp_reach cs (bhash b) x).
    { intros x. rewrite (lineage_loop_members _ _ _ _ _ H x). simpl. tauto. }
    split; [discriminate|]. split.
    + intros b' Hb'. inversion Hb'; subst. exact Hm.
    + intros x y Hx Hy Hnx Hny. apply Hm in Hx. apply Hm in Hy.
      eapply fp_reach_stop_unique; eauto; apply fp_next_None_of_missing; auto.
  - inversion H; subst. split; [auto|]. split; [discriminate|]. simpl. contradiction.
Qed.

(** C8 (counterexample): the window holds [a] but not its parent [b]; the
    lineage of [main] is [{a, b}] and [b] has no entry in the commit index. *)
Lemma lineage_includes_missing_parent :
  getFirstParentLineage Inputs.truncated Inputs.branchesA 2 "main" = Some ["a"; "b"] /\
  hashToCommit Inputs.truncated "b" = None.
Proof. split; vm_compute; reflexivity. Qed.

Lemma lineage_members_reached_witness : fp_reach Inputs.truncated "a" "b".
Proof.
  apply (proj1 (proj1 (proj2 (lineage_members_reached Inputs.truncated Inputs.branchesA
           2 "main" ["a"; "b"] eq_refl)) (mkBranch "main" "a") eq_refl "b")).
  simpl. auto.
Defined.

(** ** Sub-branch classifier *)

Section Classifier.

Variables (cs : list Commit) (L : LSet) (excl : list hash) (allL : list LSet).

Let step := fsb_step cs (lmem L) excl L allL.

Lemma fsb_fold_mono : forall l st x,
  In x (subBranches st) -> In x (subBranches (fold_left step l st)).
Proof.
  induction l as [|c l IH]; simpl; intros st x Hx; [exact Hx|].
  apply IH. unfold step, fsb_step.
  repeat match goal with |- context [if ?b then _ else _] => destruct b end;
    simpl; auto. apply in_or_app. auto.
Qed.

Lemma fsb_fold_valid : forall l st,
  (forall s, In s (subBranches st) -> isValidSubBranch cs (lmem L) (sbcommits s) = true) ->
  forall s, In s (subBranches (fold_left step l st)) ->
  isValidSubBranch cs (lmem L) (sbcommits s) = true.
Proof.
  intros l st H0.
  apply (fold_left_invariant
           (fun st => forall s, In s (subBranches st) ->
                      isValidSubBranch cs (lmem L) (sbcommits s) = true)); auto.
  intros st' c _ Hst. unfold step, fsb_step.
  destruct (_ || _ || _); [exact Hst|].
  destruct (Nat.ltb _ _ && isValidSubBranch _ _ _) eqn:Hv; [|exact Hst].
  apply andb_true_iff in Hv as [_ Hv].
  destruct (_ || _); [|exact Hst].
  simpl. intros s Hs. apply in_app_or in Hs as [Hs|[<-|[]]]; auto.
Qed.

Lemma collect_loop_prefix : forall fuel P commits toVisit,
  exists suf, collect_loop cs (lmem L) excl fuel P commits toVisit = (commits ++ suf)%list.
Proof.
  induction fuel as [|f IH]; intros P commits toVisit; simpl;
    destruct toVisit as [|h rest]; try (exists []; rewrite app_nil_r; reflexivity).
  destruct (_ || _ || _ || _); [apply IH|].
  destruct (hashToCommit cs h); [|apply IH].
  destruct (IH P (commits ++ [h])%list
              (push_unvisited (lmem L) excl (commits ++ [h])%list
                 (hashToChildren cs h)
                 (push_unvisited (lmem L) excl (commits ++ [h])%list (parents c) rest)))
    as [suf Hs].
  rewrite Hs. exists (h :: suf). rewrite <- app_assoc. reflexivity.
Qed.

Lemma collect_nonempty : forall P c,
  In c cs -> ~ In (chash c) (lmem L) -> ~ In (chash c) excl -> ~ In (chash c) P ->
  collectConnectedCommits cs (lmem L) excl P (chash c) <> [].
Proof.
  intros P c Hc HL HE HP. unfold collectConnectedCommits, collect_fuel. simpl.
  apply mem_false in HL. apply mem_false in HE. apply mem_false in HP.
  rewrite HL, HE, HP. simpl.
  destruct (hashToCommit_of_In _ _ Hc) as [c' Hc']. rewrite Hc'.
  match goal with |- collect_loop _ _ _ ?f ?P ?cm ?tv <> [] =>
    destruct (collect_loop_prefix f P cm tv) as [suf Hs] end.
  rewrite Hs. simpl. discriminate.
Qed.

(** The iteration at commit [c] pushes the component found there. *)
Lemma fsb_step_push : forall st c S,
  S = collectConnectedCommits cs (lmem L) excl (processedCommits st) (chash c) ->
  In c cs ->
  ~ In (chash c) (lmem L) -> ~ In (chash c) excl -> ~ In (chash c) (processedCommits st) ->
  isValidSubBranch cs (lmem L) S = true ->
  truthy_opt (findMergeCommitOnLineage cs S (lmem L))
  || negb (existsb (fun other =>
        if Nat.eqb (lref other) (lref L) then false
        else truthy_opt (findMergeCommitOnLineage cs S (lmem other))) allL) = true ->
  subBranches (step st c) =
    (subBranches st ++ [mkSubBranch (findMergeCommitOnLineage cs S (lmem L))
                          (findBranchPoint cs (lmem L) S) S])%list.
Proof.
  intros st c S HS Hc HL HE HP Hv Hinc.
  pose proof (collect_nonempty _ _ Hc HL HE HP) as Hne. rewrite <- HS in Hne.
  apply mem_false in HL. apply mem_false in HE. apply mem_false in HP.
  unfold step, fsb_step. rewrite HL, HE, HP. simpl. rewrite <- HS, Hv.
  destruct S as [|x xs]; [congruence|]. simpl in Hinc |- *.
  rewrite Hinc. reflexivity.
Qed.

Lemma fsb_result_after_turn : forall pre c post x,
  cs = (pre ++ c :: post)%list ->
  In x (subBranches (step (fold_left step pre (mkFSB [] [])) c)) ->
  In x (findSubBranches cs L excl allL).
Proof.
  intros pre c post x Hcs Hx. unfold findSubBranches. fold step.
  rewrite Hcs at 1. rewrite fold_left_app. simpl. apply fsb_fold_mono. exact Hx.
Qed.

End Classifier.

(** C1. Every sub-branch returned by [findSubBranches] for a lineage [L] is
    closed under parents up to [L]: each parent of each member commit is a
    member of the sub-branch or of [L]. *)
Theorem sub_branch_parents_closed : forall cs L excl allL s h c p,
  In s (findSubBranches cs L excl allL) ->
  In h (sbcommits s) ->
  hashToCommit cs h = Some c ->
  In p (parents c) ->
  In p (sbcommits s) \/ In p (lmem L).
Proof.
  intros cs L excl allL s h c p Hs Hh Hc Hp.
  assert (Hv : isValidSubBranch cs (lmem L) (sbcommits s) = true).
  { unfold findSubBranches in Hs. revert Hs. apply fsb_fold_valid. simpl. contradiction. }
  unfold isValidSubBranch in Hv. rewrite forallb_forall in Hv.
  specialize (Hv h Hh). rewrite Hc, forallb_forall in Hv.
  specialize (Hv p Hp). apply orb_true_iff in Hv as [Hv|Hv]; apply mem_In in Hv; auto.
Qed.

Lemma sub_branch_parents_closed_witness :
  In "c1" ["f1"] \/ In "c1" ["c3"; "c2"; "c1"].
Proof.
  apply (sub_branch_parents_closed Inputs.scenarioB (mkLSet 0 ["c3"; "c2"; "c1"]) []
           [mkLSet 0 ["c3"; "c2"; "c1"]]
           (mkSubBranch (Some "c3") (Some "c1") ["f1"]) "f1"
           (Inputs.mk "f1" ["c1"] (3 # 2)) "c1").
  - vm_compute. left. reflexivity.
  - simpl. auto.
  - vm_compute. reflexivity.
  - simpl. auto.
Defined.

(** C10. In the pass of lineage [L], a valid component met by the loop (at a
    commit not in [L], not excluded and not yet claimed) that has a merge
    commit on [L] is part of the result, whatever it merges into elsewhere:
    the exclusion for merges into other key branches never removes it. The
    members of [L] are non-empty hashes, as every traced lineage's are. *)
Theorem merge_into_self_included : forall cs L excl allL pre c post m,
  cs = (pre ++ c :: post)%list ->
  Forall (fun h => truthy h = true) (lmem L) ->
  let st := fold_left (fsb_step cs (lmem L) excl L allL) pre (mkFSB [] []) in
  let S := collectConnectedCommits cs (lmem L) excl (processedCommits st) (chash c) in
  ~ In (chash c) (lmem L) -> ~ In (chash c) excl -> ~ In (chash c) (processedCommits st) ->
  isValidSubBranch cs (lmem L) S = true ->
  findMergeCommitOnLineage cs S (lmem L) = Some m ->
  In (mkSubBranch (Some m) (findBranchPoint cs (lmem L) S) S) (findSubBranches cs L excl allL).
Proof.
  intros cs L excl allL pre c post m Hcs HLt st S HL HE HP Hv Hm.
  apply (fsb_result_after_turn cs L excl allL pre c post _ Hcs). fold st.
  assert (Hc : In c cs) by (rewrite Hcs; apply in_or_app; simpl; auto).
  rewrite (fsb_step_push cs L excl allL st c S eq_refl Hc HL HE HP Hv).
  - rewrite Hm. apply in_or_app. simpl. auto.
  - rewrite Hm. simpl. unfold findMergeCommitOnLineage in Hm.
    apply find_some in Hm as [Hin _]. rewrite Forall_forall in HLt.
    rewrite (HLt m Hin). reflexivity.
Qed.

Lemma merge_into_self_included_witness :
  In (mkSubBranch (Some "m2") (Some "c1") ["f1"])
     (findSubBranches Inputs.mergedTwice (mkLSet 0 ["m2"; "c1"]) ["d2"; "c1"]
        [mkLSet 0 ["m2"; "c1"]; mkLSet 1 ["d2"; "c1"]]).
Proof.
  apply (merge_into_self_included Inputs.mergedTwice (mkLSet 0 ["m2"; "c1"]) ["d2"; "c1"]
           [mkLSet 0 ["m2"; "c1"]; mkLSet 1 ["d2"; "c1"]]
           [Inputs.mk "m2" ["c1"; "f1"] 4; Inputs.mk "d2" ["c1"; "f1"] 3]
           (Inputs.mk "f1" ["c1"] 2) [Inputs.mk "c1" [] 1] "m2").
  - reflexivity.
  - repeat constructor.
  - vm_compute. intuition discriminate.
  - vm_compute. intuition discriminate.
  - vm_compute. intuition discriminate.
  - vm_compute. reflexivity.
  - vm_compute. reflexivity.
Defined.

(** In one pass, an unmerged valid component met unclaimed is part of the result. *)
Lemma unmerged_component_in_pass : forall cs L excl allL pre c post,
  cs = (pre ++ c :: post)%list ->
  let st := fold_left (fsb_step cs (lmem L) excl L allL) pre (mkFSB [] []) in
  let S := collectConnectedCommits cs (lmem L) excl (processedCommits st) (chash c) in
  ~ In (chash c) (lmem L) -> ~ In (chash c) excl -> ~ In (chash c) (processedCommits st) ->
  isValidSubBranch cs (lmem L) S = true ->
  findMergeCommitOnLineage cs S (lmem L) = None ->
  (forall o, In o allL -> findMergeCommitOnLineage cs S (lmem o) = None) ->
  In (mkSubBranch None (findBranchPoint cs (lmem L) S) S) (findSubBranches cs L excl allL).
Proof.
  intros cs L excl allL pre c post Hcs st S HL HE HP Hv Hm Ho.
  apply (fsb_result_after_turn cs L excl allL pre c post _ Hcs). fold st.
  assert (Hc : In c cs) by (rewrite Hcs; apply in_or_app; simpl; auto).
  rewrite (fsb_step_push cs L excl allL st c S eq_refl Hc HL HE HP Hv).
  - rewrite Hm. apply in_or_app. simpl. auto.
  - rewrite Hm. simpl.
    assert (Hx : existsb (fun other =>
               if Nat.eqb (lref other) (lref L) then false
               else truthy_opt (findMergeCommitOnLineage cs S (lmem other))) allL = false).
    { apply not_true_is_false. intros Hx. apply existsb_exists in Hx as [o [Hin Ho']].
      rewrite (Ho o Hin) in Ho'. destruct (Nat.eqb _ _); discriminate. }
    rewrite Hx. reflexivity.
Qed.


(** C7. Scenario B: for the feed [c3 (parents c2, f1; t = 3)], [c2 (c1; 2)],
    [f1 (c1; 1.5)], [c1 (none; 1)] and the lineage [{c1, c2, c3}] as traced
    from [c3], the classifier returns exactly one sub-branch: members [{f1}],
    merge commit [c3], branch point [c1]. The same holds for the lineage
    listed in any order. *)
Theorem scenario_B_single_sub_branch :
  getFirstParentLineage Inputs.scenarioB Inputs.branchesB (S (length Inputs.scenarioB)) "main"
    = Some ["c3"; "c2"; "c1"] /\
  findSubBranches Inputs.scenarioB (mkLSet 0 ["c3"; "c2"; "c1"]) []
      [mkLSet 0 ["c3"; "c2"; "c1"]]
    = [mkSubBranch (Some "c3") (Some "c1") ["f1"]] /\
  (forall lin, Permutation lin ["c1"; "c2"; "c3"] ->
     findSubBranches Inputs.scenarioB (mkLSet 0 lin) [] [mkLSet 0 lin]
       = [mkSubBranch (Some "c3") (Some "c1") ["f1"]]).
Proof.
  split; [vm_compute; reflexivity|]. split; [vm_compute; reflexivity|].
  intros lin Hp.
  pose proof (Permutation_length Hp) as Hlen.
  assert (Hnd : NoDup lin).
  { apply (Permutation_NoDup (Permutation_sym Hp)).
    repeat constructor; simpl; intuition discriminate. }
  assert (Hin : forall a, In a lin -> a = "c1" \/ a = "c2" \/ a = "c3").
  { intros a Ha. apply (Permutation_in _ Hp) in Ha. simpl in Ha.
    destruct Ha as [<-|[<-|[<-|[]]]]; auto. }
  destruct lin as [|x [|y [|z [|w r]]]]; simpl in Hlen; try discriminate.
  assert (Hx : In x [x; y; z]) by (simpl; auto).
  assert (Hy : In y [x; y; z]) by (simpl; auto).
  assert (Hz : In z [x; y; z]) by (simpl; auto).
  apply Hin in Hx, Hy, Hz.
  destruct Hx as [ -> | [ -> | -> ] ]; destruct Hy as [ -> | [ -> | -> ] ]; destruct Hz as [ -> | [ -> | -> ] ];
    first [ vm_compute; reflexivity
          | exfalso; inversion Hnd as [|a1 l1 H1 H2]; inversion H2 as [|a2 l2 H3 H4];
            simpl in *; intuition ].
Qed.

(** ** Zoom *)

Module ZoomProofs.
Import Zoom.
Import Stdlib.Reals.Reals Stdlib.micromega.Lra.
Local Open Scope R_scope.

(** C6. A Ctrl/Cmd wheel event at [mouseY = clientY - rectTop]: whatever new
    zoom the clamp chooses, the graph-space Y that was shown at [mouseY] is
    shown at [mouseY] after the handler (exact real arithmetic; the zoom in
    force is positive, as [timeZoom] starts at 1 and is clamped to
    [0.1, 5]). *)
Theorem zoom_keeps_cursor_point : forall v rectTop e g,
  0 < timeZoom v ->
  (ctrlKey e || metaKey e)%bool = true ->
  screenY v g = clientY e - rectTop ->
  screenY (onWheel v rectTop e) g = clientY e - rectTop.
Proof.
  intros v rectTop e g Hz Hk Hg. unfold onWheel. rewrite Hk.
  unfold screenY in *. simpl. rewrite <- Hg. field. lra.
Qed.

(** Every reachable zoom factor is in [0.1, 5]: the side condition above holds
    for every wheel event the handler receives. *)
Lemma wheel_keeps_zoom_range : forall v rectTop e,
  minZoom <= timeZoom v <= maxZoom ->
  minZoom <= timeZoom (onWheel v rectTop e) <= maxZoom.
Proof.
  intros v rectTop e Hv. unfold onWheel.
  destruct (ctrlKey e || metaKey e)%bool; simpl; [|exact Hv].
  unfold minZoom, maxZoom in *. split.
  - apply Rmax_l.
  - apply Rmax_lub; [lra | apply Rmin_l].
Qed.

Lemma zoom_keeps_cursor_point_witness :
  screenY (onWheel (mkView 0 0 1) 0 (mkWheel true false 0 1 10)) 10 = 10 - 0.
Proof.
  apply (zoom_keeps_cursor_point (mkView 0 0 1) 0 (mkWheel true false 0 1 10) 10).
  - simpl. lra.
  - reflexivity.
  - unfold screenY. simpl. lra.
Defined.

End ZoomProofs.

(** ** Layout and edge classification *)

Lemma defaultColumns_ok : forall cs n, ColsOk n (defaultColumns cs n).
Proof.
  intros cs n. unfold defaultColumns.
  apply fold_left_invariant; [intros h v []|].
  intros m c _ Hm h v [Hv|Hv]; [inversion Hv; subst; simpl; lia | eauto].
Qed.

Lemma mainlineColumns_ok : forall bls m,
  ColsOk (length bls) m -> ColsOk (length bls) (mainlineColumns bls m).
Proof.
  intros bls m Hm. unfold mainlineColumns.
  apply fold_left_invariant; [exact Hm|].
  intros m1 [i bl] Hib Hm1. apply In_indexed_lt in Hib.
  apply fold_left_invariant; [exact Hm1|].
  intros m2 h _ Hm2 h' v [Hv|Hv]; [inversion Hv; subst; simpl; lia | eauto].
Qed.

Lemma subBranchColumns_ok : forall cs n l counter m,
  (forall i bl, In (i, bl) l -> i <= n) ->
  ColsOk n m -> ColsOk n (subBranchColumns cs l counter m).
Proof.
  intros cs n l. induction l as [|[i bl] r IH]; intros counter m Hl Hm; simpl; [exact Hm|].
  destruct (lineage_offsets cs (blsub bl) counter) as [assigned counter'].
  apply IH; [intros; eapply Hl; simpl; eauto|].
  apply fold_left_invariant; [exact Hm|].
  intros m1 [[s off] id] _ Hm1.
  apply fold_left_invariant; [exact Hm1|].
  intros m2 h _ Hm2 h' v [Hv|Hv]; [inversion Hv; subst; simpl; eapply Hl; simpl; eauto | eauto].
Qed.

Lemma commitColumnOf_ok : forall cs bls, ColsOk (length bls) (commitColumnOf cs bls).
Proof.
  intros cs bls. unfold commitColumnOf. apply subBranchColumns_ok.
  - intros i bl H. apply In_indexed_lt in H. lia.
  - apply mainlineColumns_ok, defaultColumns_ok.
Qed.

Lemma colOf_le : forall cc h n, ColsOk n cc -> mainCol (colOf cc h n) <= n.
Proof.
  intros cc h n Hcc. unfold colOf. destruct (hget cc h) as [v|] eqn:E; simpl; [|lia].
  apply hget_In in E. eauto.
Qed.

Lemma positionsOf_col_le : forall cs cc n h p,
  ColsOk n cc -> hget (positionsOf cs cc n) h = Some p -> pcol p <= n.
Proof.
  intros cs cc n h p Hcc Hp. apply hget_In in Hp. revert h p Hp.
  unfold positionsOf.
  apply (fold_left_invariant (fun m => forall h p, In (h, p) m -> pcol p <= n));
    [intros h p []|].
  intros m [i c] _ Hm h p [Hv|Hv]; [inversion Hv; subst; simpl; apply colOf_le; auto | eauto].
Qed.

Lemma renderLayout_cols : forall cs branches selected lay h p,
  renderLayout cs branches selected = Some lay ->
  hget (positions lay) h = Some p -> pcol p <= length (branchLineages lay).
Proof.
  intros cs branches selected lay h p Hl Hp. unfold renderLayout in Hl.
  destruct (allLineagesOf cs branches selected); [|discriminate].
  inversion Hl; subst. simpl in *.
  eapply positionsOf_col_le; [apply commitColumnOf_ok | exact Hp].
Qed.

Lemma edgesOf_In : forall cs lay ch ph ec,
  In (ch, ph, ec) (edgesOf cs lay) ->
  exists pc pp, hget (positions lay) ch = Some pc /\ hget (positions lay) ph = Some pp /\
    ec = classifyEdge (length (branchLineages lay)) pc pp.
Proof.
  intros cs lay ch ph ec H. unfold edgesOf in H. apply in_flat_map in H as [c [_ Hc]].
  destruct (hget (positions lay) (chash c)) as [cp|] eqn:Ecp; [|contradiction].
  apply in_flat_map in Hc as [p [_ Hp]].
  destruct (hget (positions lay) p) as [pp|] eqn:Epp; [|contradiction].
  destruct Hp as [Hp|[]]. inversion Hp; subst. eauto.
Qed.

(** C5 (amended). For every edge drawn by the layout, the edge is mainline
    exactly when both endpoints are in lineage columns [0 .. lineageCount-1]
    and neither is flagged as a sub-branch member; the two endpoints may be in
    different lineage columns. *)
Theorem mainline_edge_iff : forall cs branches selected lay ch ph ec,
  renderLayout cs branches selected = Some lay ->
  In (ch, ph, ec) (edgesOf cs lay) ->
  exists pc pp,
    hget (positions lay) ch = Some pc /\ hget (positions lay) ph = Some pp /\
    (isMainlineEdge ec = true <->
       pcol pc < length (branchLineages lay) /\ pcol pp < length (branchLineages lay) /\
       pisSubBranch pc = false /\ pisSubBranch pp = false).
Proof.
  intros cs branches selected lay ch ph ec Hl He.
  destruct (edgesOf_In _ _ _ _ _ He) as [pc [pp [Hc [Hp ->]]]].
  exists pc, pp. split; [exact Hc|]. split; [exact Hp|].
  pose proof (renderLayout_cols _ _ _ _ _ _ Hl Hc) as Hlc.
  pose proof (renderLayout_cols _ _ _ _ _ _ Hl Hp) as Hlp.
  unfold classifyEdge. simpl.
  destruct (pisSubBranch pc), (pisSubBranch pp); simpl;
    try (split; [discriminate | intuition discriminate]).
  rewrite !andb_true_iff, !negb_true_iff, !orb_false_iff, !Nat.eqb_neq, Nat.ltb_lt.
  split; [intros [[Hc1 Hp1] Hlt]; lia | intros [H1 [H2 _]]; lia].
Qed.

Lemma mainline_edge_iff_witness :
  exists pc pp,
    hget (positions Inputs.crossMergeLayout) "m2" = Some pc /\
    hget (positions Inputs.crossMergeLayout) "d1" = Some pp /\
    (isMainlineEdge (mkEdgeClass false false true) = true <->
       pcol pc < length (branchLineages Inputs.crossMergeLayout) /\
       pcol pp < length (branchLineages Inputs.crossMergeLayout) /\
       pisSubBranch pc = false /\ pisSubBranch pp = false).
Proof.
  apply (mainline_edge_iff Inputs.crossMerge Inputs.branchesMD1 ["main"; "dev"]
           Inputs.crossMergeLayout "m2" "d1" (mkEdgeClass false false true)).
  - vm_compute. reflexivity.
  - vm_compute. repeat (first [left; reflexivity | right]).
Defined.

(** C5 (counterexample): [main] ([m2], parents [m1], [d1]) merges the tip of
    [dev] ([d1]). The edge from [m2] (column 0) to its second parent [d1]
    (column 1) is classified mainline although its endpoints are in
    different columns. *)
Lemma mainline_edge_across_columns :
  match renderLayout Inputs.crossMerge Inputs.branchesMD1 ["main"; "dev"] with
  | Some lay =>
      In ("m2", "d1", mkEdgeClass false false true) (edgesOf Inputs.crossMerge lay) /\
      option_map pcol (hget (positions lay) "m2") = Some 0 /\
      option_map pcol (hget (positions lay) "d1") = Some 1
  | None => False
  end.
Proof.
  vm_compute. split; [repeat (first [left; reflexivity | right]) | split; reflexivity].
Qed.

Lemma scenario_B_single_sub_branch_witness :
  findSubBranches Inputs.scenarioB (mkLSet 0 ["c1"; "c2"; "c3"]) []
    [mkLSet 0 ["c1"; "c2"; "c3"]] = [mkSubBranch (Some "c3") (Some "c1") ["f1"]].
Proof.
  apply (proj2 (proj2 scenario_B_single_sub_branch) ["c1"; "c2"; "c3"]).
  apply Permutation_refl.
Defined.

(** ** Commit feed parser *)

Lemma parse_line_short : forall l,
  length (split_on pipe l) < 4 -> parse_line l = [].
Proof.
  intros l H. unfold parse_line.
  destruct (Nat.leb 4 (length (split_on pipe l))) eqn:E; [|reflexivity].
  apply Nat.leb_le in E. lia.
Qed.

Lemma parse_line_In : forall l c,
  In c (parse_line l) ->
  4 <= length (split_on pipe l) /\ parse_line l = [c] /\
  timestamp c = parseInt10 (nth 2 (split_on pipe l) EmptyString).
Proof.
  intros l c H. unfold parse_line in *.
  destruct (Nat.leb 4 (length (split_on pipe l))) eqn:E; [|contradiction].
  apply Nat.leb_le in E. destruct H as [<-|[]]. auto.
Qed.

Lemma insert_commit_perm : forall x l, Permutation (insert_commit x l) (x :: l).
Proof.
  intros x l. induction l as [|y r IH]; simpl; [auto|].
  destruct (ts_before x y); [auto|].
  eapply perm_trans; [apply perm_skip, IH | apply perm_swap].
Qed.

Lemma sort_commits_perm_acc : forall l acc,
  Permutation (fold_left (fun acc x => insert_commit x acc) l acc) (l ++ acc)%list.
Proof.
  induction l as [|x l IH]; intros acc; simpl; [auto|].
  eapply perm_trans; [apply IH|].
  eapply perm_trans; [apply Permutation_app_head, insert_commit_perm|].
  apply Permutation_sym, Permutation_middle.
Qed.

Lemma sort_commits_perm : forall l, Permutation (sort_commits l) l.
Proof.
  intros l. unfold sort_commits. rewrite <- (app_nil_r l) at 2. apply sort_commits_perm_acc.
Qed.

#[local] Instance ts_ge_trans : Transitive ts_ge.
Proof.
  intros x y z. unfold ts_ge.
  destruct (timestamp x), (timestamp y), (timestamp z); try contradiction.
  intros H1 H2. eapply Qle_trans; eauto.
Qed.

Lemma ts_before_false_ge : forall x y,
  has_ts x -> has_ts y -> ts_before x y = false -> ts_ge y x.
Proof.
  intros x y Hx Hy H. unfold ts_before, ts_ge, has_ts in *.
  destruct (timestamp x) as [a|], (timestamp y) as [b|]; try congruence.
  apply negb_false_iff, Qle_bool_iff in H. exact H.
Qed.

Lemma ts_before_true_ge : forall x y, ts_before x y = true -> ts_ge x y.
Proof.
  intros x y H. unfold ts_before, ts_ge in *.
  destruct (timestamp x) as [a|], (timestamp y) as [b|]; try discriminate.
  apply negb_true_iff in H. apply Qlt_le_weak, Qnot_le_lt. intros Hle.
  apply Qle_bool_iff in Hle. congruence.
Qed.

Lemma insert_commit_sorted : forall x l,
  has_ts x -> Forall has_ts l -> Sorted ts_ge l -> Sorted ts_ge (insert_commit x l).
Proof.
  intros x l Hx. induction l as [|y r IH]; intros Hl Hs; simpl; [auto|].
  inversion Hl as [|y' r' Hy Hr]; subst. inversion Hs as [|y' r' Hsr Hhd]; subst.
  destruct (ts_before x y) eqn:E.
  - constructor; [exact Hs | constructor; apply ts_before_true_ge; exact E].
  - constructor; [apply IH; auto|].
    pose proof (ts_before_false_ge _ _ Hx Hy E) as Hyx.
    destruct r as [|z r']; simpl; [constructor; exact Hyx|].
    destruct (ts_before x z); constructor; [exact Hyx|].
    inversion Hhd; assumption.
Qed.

Lemma sort_commits_sorted : forall l, Forall has_ts l -> Sorted ts_ge (sort_commits l).
Proof.
  intros l Hl. unfold sort_commits.
  assert (Hgen : forall acc, Forall has_ts acc -> Sorted ts_ge acc ->
            Sorted ts_ge (fold_left (fun acc x => insert_commit x acc) l acc)).
  { induction l as [|x l IH]; intros acc Ha Hs; simpl; [exact Hs|].
    inversion Hl; subst. apply IH; auto.
    - eapply Permutation_Forall; [apply Permutation_sym, insert_commit_perm|].
      constructor; auto.
    - apply insert_commit_sorted; auto. }
  apply Hgen; constructor.
Qed.

Lemma parse_line_long : forall l,
  4 <= length (split_on pipe l) ->
  exists c, parse_line l = [c] /\ timestamp c = parseInt10 (nth 2 (split_on pipe l) EmptyString).
Proof.
  intros l H. unfold parse_line.
  destruct (Nat.leb 4 (length (split_on pipe l))) eqn:E; [|apply Nat.leb_gt in E; lia].
  eexists. split; reflexivity.
Qed.

(** [>=] with a NaN side is false, so a record with a NaN timestamp cannot
    stand before or after any other record of a sorted sequence. *)
Lemma nan_never_sorted : forall l c,
  In c l -> timestamp c = None -> 2 <= length l -> ~ sorted_newest_first l.
Proof.
  intros l c Hc Hn H2 Hs. destruct l as [|a [|b r]]; simpl in H2; [lia|lia|].
  inversion Hs as [|a' t Hst Hall]; subst.
  assert (Hnan : forall y, ~ ts_ge c y /\ ~ ts_ge y c).
  { intros y. unfold ts_ge. rewrite Hn. destruct (timestamp y); split; auto. }
  destruct Hc as [<-|Hc].
  - inversion Hall as [|x' t' Hab _]; subst. exact (proj1 (Hnan b) Hab).
  - rewrite Forall_forall in Hall. exact (proj2 (Hnan a) (Hall c Hc)).
Qed.

(** C9 (amended). For every commit feed: a line that splits into fewer than 4
    fields yields no commit record (and the parser, a total function, raises
    nothing); the result is a rearrangement of the records of the lines with at
    least 4 fields, each record coming from one such line; and when the
    timestamp field of each such line reads as a number with [parseInt] (as the
    [%ct] field of git always does), the result is sorted newest first. When
    one such line has a timestamp field that reads as NaN and the result has
    at least two records, no arrangement of the result is sorted. *)
Theorem feed_parse_skips_short_lines : forall out,
  (forall l, In l (feed_lines out) -> length (split_on pipe l) < 4 -> parse_line l = []) /\
  Permutation (fetchCommits (ExecOk out)) (flat_map parse_line (feed_lines out)) /\
  (forall c, In c (fetchCommits (ExecOk out)) ->
     exists l, In l (feed_lines out) /\ 4 <= length (split_on pipe l) /\ parse_line l = [c]) /\
  ((forall l, In l (feed_lines out) -> 4 <= length (split_on pipe l) ->
      parseInt10 (nth 2 (split_on pipe l) EmptyString) <> None) ->
   sorted_newest_first (fetchCommits (ExecOk out))) /\
  ((exists l, In l (feed_lines out) /\ 4 <= length (split_on pipe l) /\
      parseInt10 (nth 2 (split_on pipe l) EmptyString) = None) ->
   2 <= length (fetchCommits (ExecOk out)) ->
   forall l, Permutation l (fetchCommits (ExecOk out)) -> ~ sorted_newest_first l).
Proof.
  intros out. split; [intros l _; apply parse_line_short|].
  assert (Hp : Permutation (fetchCommits (ExecOk out)) (flat_map parse_line (feed_lines out)))
    by apply sort_commits_perm.
  split; [exact Hp|]. split.
  - intros c Hc. apply (Permutation_in _ Hp) in Hc. apply in_flat_map in Hc as [l [Hl Hc]].
    destruct (parse_line_In _ _ Hc) as [H4 [Hpl _]]. eauto.
  - split.
    + intros Hts. apply Sorted_StronglySorted; [exact ts_ge_trans|].
      apply sort_commits_sorted. apply Forall_forall. intros c Hc.
      apply in_flat_map in Hc as [l [Hl Hc]].
      destruct (parse_line_In _ _ Hc) as [H4 [_ Ht]]. unfold has_ts. rewrite Ht. auto.
    + intros [ln [Hln [H4 Hnan]]] H2 l Hl.
      destruct (parse_line_long ln H4) as [c [Hpc Htc]].
      apply (nan_never_sorted l c).
      * apply (Permutation_in _ (Permutation_sym Hl)), (Permutation_in _ (Permutation_sym Hp)).
        apply in_flat_map. exists ln. rewrite Hpc. simpl. auto.
      * rewrite Htc. exact Hnan.
      * apply Permutation_length in Hl. lia.
Qed.

Lemma feed_parse_skips_short_lines_witness :
  parse_line "short|line" = [] /\ sorted_newest_first (fetchCommits (ExecOk Inputs.feedC)) /\
  ~ sorted_newest_first (fetchCommits (ExecOk Inputs.feedNaN)).
Proof.
  split; [|split].
  - apply (proj1 (feed_parse_skips_short_lines Inputs.feedC)).
    + vm_compute. right. left. reflexivity.
    + vm_compute. lia.
  - apply (proj1 (proj2 (proj2 (proj2 (feed_parse_skips_short_lines Inputs.feedC))))).
    intros l Hl H4. vm_compute in Hl.
    destruct Hl as [<-|[<-|[<-|[]]]]; vm_compute in H4 |- *; [discriminate| lia | discriminate].
  - apply (proj2 (proj2 (proj2 (proj2 (feed_parse_skips_short_lines Inputs.feedNaN))))).
    + exists "a||x|m". split; [vm_compute; auto|]. split; vm_compute; [lia | reflexivity].
    + vm_compute. lia.
    + apply Permutation_refl.
Defined.

(** A record whose timestamp is NaN is not [>=] any other and no other is
    [>=] it: no arrangement of such records is sorted. *)
Lemma no_order_sorts_nan_feed : forall l,
  Permutation l (fetchCommits (ExecOk Inputs.feedNaN)) -> ~ sorted_newest_first l.
Proof.
  intros l Hp Hs. vm_compute in Hp.
  assert (Hl : length l = 2) by (apply Permutation_length in Hp; exact Hp).
  destruct l as [|x [|y [|z r]]]; simpl in Hl; try discriminate.
  inversion Hs as [|a b Hs' Hall]; subst. inversion Hall as [|a b Hxy]; subst.
  assert (Hx : In x [x; y]) by (simpl; auto).
  assert (Hy : In y [x; y]) by (simpl; auto).
  apply (Permutation_in _ Hp) in Hx, Hy.
  unfold ts_ge in Hxy. simpl in Hx, Hy.
  destruct Hx as [<-|[<-|[]]]; destruct Hy as [<-|[<-|[]]]; simpl in Hxy; try contradiction.
  all: apply Permutation_length_2_inv in Hp; destruct Hp as [Hp|Hp]; inversion Hp.
Qed.

(** C9 (counterexample): the feed [a||x|m], [b||5|n] has a line with at least
    4 fields whose timestamp field is not a number; the returned sequence is
    not sorted newest first (nor is any arrangement of it). *)
Lemma feed_with_nan_timestamp_unsorted :
  ~ sorted_newest_first (fetchCommits (ExecOk Inputs.feedNaN)).
Proof. apply no_order_sorts_nan_feed. apply Permutation_refl. Qed.

(** ** Sub-branch offsets *)

Lemma NoDup_app_disj : forall {A} (a b : list A) x,
  NoDup (a ++ b)%list -> In x a -> In x b -> False.
Proof.
  intros A a b x. induction a as [|y a IH]; simpl; intros Hn Ha Hb; [exact Ha|].
  apply NoDup_cons_iff in Hn as [Hy Hn].
  destruct Ha as [<-|Ha]; [apply Hy, in_or_app; auto | eauto].
Qed.

Lemma NoDup_flat_map_nth : forall {A B} (f : A -> list B) l j k a b x,
  NoDup (flat_map f l) -> nth_error l j = Some a -> nth_error l k = Some b -> j <> k ->
  In x (f a) -> In x (f b) -> False.
Proof.
  intros A B f l. induction l as [|y r IH]; intros j k a b x Hn Hj Hk Hjk Ha Hb;
    [destruct j; discriminate|].
  simpl in Hn.
  destruct j as [|j], k as [|k]; simpl in Hj, Hk.
  - congruence.
  - inversion Hj; subst. apply (NoDup_app_disj _ _ x Hn Ha).
    apply in_flat_map. exists b. split; [eapply nth_error_In; eauto | exact Hb].
  - inversion Hk; subst. apply (NoDup_app_disj _ _ x Hn Hb).
    apply in_flat_map. exists a. split; [eapply nth_error_In; eauto | exact Ha].
  - apply NoDup_app_remove_l in Hn. eapply (IH j k); eauto.
Qed.

Lemma collect_loop_nodup : forall cs lin excl fuel P commits toVisit,
  NoDup commits -> (forall x, In x commits -> ~ In x P) ->
  NoDup (collect_loop cs lin excl fuel P commits toVisit) /\
  (forall x, In x (collect_loop cs lin excl fuel P commits toVisit) -> ~ In x P).
Proof.
  intros cs lin excl fuel. induction fuel as [|f IH]; intros P commits toVisit Hn Hd;
    simpl; destruct toVisit as [|h rest]; auto.
  destruct (_ || _ || _ || _) eqn:E; [apply IH; auto|].
  destruct (hashToCommit cs h); [|apply IH; auto].
  apply orb_false_iff in E as [E E4]. apply orb_false_iff in E as [E _].
  apply orb_false_iff in E as [E1 _]. apply mem_false in E1. apply mem_false in E4.
  apply IH.
  - apply (Permutation_NoDup (Permutation_app_comm [h] commits)). constructor; auto.
  - intros x Hx. apply in_app_or in Hx as [Hx|[<-|[]]]; auto.
Qed.

Lemma fsb_fold_disjoint : forall cs L excl allL l st,
  flat_map sbcommits (subBranches st) = processedCommits st -> NoDup (processedCommits st) ->
  flat_map sbcommits (subBranches (fold_left (fsb_step cs (lmem L) excl L allL) l st))
    = processedCommits (fold_left (fsb_step cs (lmem L) excl L allL) l st) /\
  NoDup (processedCommits (fold_left (fsb_step cs (lmem L) excl L allL) l st)).
Proof.
  intros cs L excl allL l st H1 H2.
  apply (fold_left_invariant (fun st => flat_map sbcommits (subBranches st) = processedCommits st
                                        /\ NoDup (processedCommits st))); [auto|].
  intros st' c _ [Heq Hnd]. unfold fsb_step.
  destruct (_ || _ || _); [auto|].
  destruct (Nat.ltb _ _ && _); [|auto].
  destruct (_ || _); [|auto]. simpl.
  unfold collectConnectedCommits.
  destruct (collect_loop_nodup cs (lmem L) excl (collect_fuel cs) (processedCommits st') []
              [chash c] (NoDup_nil _) (fun x H => match H with end)) as [Hn Hd].
  split.
  - rewrite flat_map_app, Heq. simpl. rewrite app_nil_r. reflexivity.
  - apply NoDup_app; auto. intros a Ha Hb. exact (Hd a Hb Ha).
Qed.

Lemma findSubBranches_nodup : forall cs L excl allL,
  NoDup (flat_map sbcommits (findSubBranches cs L excl allL)).
Proof.
  intros cs L excl allL. unfold findSubBranches.
  destruct (fsb_fold_disjoint cs L excl allL cs (mkFSB [] []) eq_refl (NoDup_nil _))
    as [Heq Hn].
  rewrite Heq. exact Hn.
Qed.

Lemma insert_desc_perm : forall x l, Permutation (insert_desc x l) (x :: l).
Proof.
  intros x l. induction l as [|y r IH]; simpl; [auto|].
  destruct (Z.ltb _ _); [auto|].
  eapply perm_trans; [apply perm_skip, IH | apply perm_swap].
Qed.

Lemma sort_desc_perm : forall l, Permutation (sort_desc l) l.
Proof.
  intros l. unfold sort_desc.
  assert (Hgen : forall acc, Permutation (fold_left (fun acc x => insert_desc x acc) l acc)
                               (l ++ acc)%list).
  { induction l as [|x l IH]; intros acc; simpl; [auto|].
    eapply perm_trans; [apply IH|].
    eapply perm_trans; [apply Permutation_app_head, insert_desc_perm|].
    apply Permutation_sym, Permutation_middle. }
  rewrite <- (app_nil_r l) at 2. apply Hgen.
Qed.

Lemma assign_offsets_cons : forall s r u c,
  fst (assign_offsets (s :: r) u c) =
  (s, find_offset (S (length u)) u (span_rows s) 1, subBranchIdOf c) ::
  fst (assign_offsets r
         (u ++ map (fun row => (row, find_offset (S (length u)) u (span_rows s) 1))
                   (span_rows s))%list (S c)).
Proof.
  intros s r u c. unfold span_rows. cbn [assign_offsets].
  destruct (assign_offsets r _ (S c)). reflexivity.
Qed.

Lemma assign_offsets_spans : forall l u c,
  map (fun e => fst (fst e)) (fst (assign_offsets l u c)) = l.
Proof.
  induction l as [|s r IH]; intros u c; [reflexivity|].
  rewrite assign_offsets_cons. simpl. f_equal. apply IH.
Qed.

Lemma used_In : forall u r o, In (r, o) u -> used u r o = true.
Proof.
  intros u r o H. unfold used. apply existsb_exists. exists (r, o).
  rewrite Z.eqb_refl, Nat.eqb_refl. auto.
Qed.

Lemma used_snd : forall u r o, used u r o = true -> In o (map snd u).
Proof.
  intros u r o H. unfold used in H. apply existsb_exists in H as [[r' o'] [Hin He]].
  apply andb_true_iff in He as [_ He]. apply Nat.eqb_eq in He. subst.
  apply (in_map snd) in Hin. exact Hin.
Qed.

Lemma find_offset_ge : forall fuel u rs off, off <= find_offset fuel u rs off.
Proof.
  induction fuel as [|f IH]; intros u rs off; simpl; [lia|].
  destruct (existsb _ _); [specialize (IH u rs (S off)); lia | lia].
Qed.

Lemma find_offset_spec : forall fuel u rs off,
  existsb (fun r => used u r (find_offset fuel u rs off)) rs = false \/
  (forall i, i < fuel -> In (off + i) (map snd u)).
Proof.
  induction fuel as [|f IH]; intros u rs off; [right; intros; lia|].
  simpl. destruct (existsb (fun r => used u r off) rs) eqn:E; [|left; exact E].
  destruct (IH u rs (S off)) as [H|H]; [left; exact H|]. right.
  intros [|i] Hi.
  - apply existsb_exists in E as [r [_ Hr]]. rewrite Nat.add_0_r. eapply used_snd; eauto.
  - replace (off + S i) with (S off + i) by lia. apply H. lia.
Qed.

(** The [while (hasCollision)] loop ends on a free offset. *)
Lemma find_offset_free : forall u rs off r,
  In r rs -> used u r (find_offset (S (length u)) u rs off) = false.
Proof.
  intros u rs off r Hr.
  destruct (find_offset_spec (S (length u)) u rs off) as [H|H].
  - destruct (used u r _) eqn:E; [|reflexivity].
    assert (Hc : existsb (fun r => used u r (find_offset (S (length u)) u rs off)) rs = true)
      by (apply existsb_exists; eauto).
    congruence.
  - exfalso.
    assert (Hl : length (seq off (S (length u))) <= length (map snd u)).
    { apply NoDup_incl_length; [apply seq_NoDup|].
      intros x Hx. apply in_seq in Hx. replace x with (off + (x - off)) by lia.
      apply H. lia. }
    rewrite length_seq, length_map in Hl. lia.
Qed.

Lemma assign_offsets_avoid : forall l u c e,
  In e (fst (assign_offsets l u c)) ->
  1 <= snd (fst e) /\
  (forall r, In (r, snd (fst e)) u -> ~ In r (span_rows (fst (fst e)))).
Proof.
  induction l as [|s l IH]; intros u c e He; [contradiction|].
  rewrite assign_offsets_cons in He. destruct He as [<-|He].
  - cbn [fst snd]. split; [apply find_offset_ge|].
    intros r Hu Hr. apply used_In in Hu. rewrite find_offset_free in Hu; auto. discriminate.
  - destruct (IH _ _ _ He) as [Hpos Hav]. split; [exact Hpos|].
    intros r Hu. apply Hav. apply in_or_app. auto.
Qed.

Lemma assign_offsets_sep : forall l u c j k ej ek,
  nth_error (fst (assign_offsets l u c)) j = Some ej ->
  nth_error (fst (assign_offsets l u c)) k = Some ek -> j < k ->
  forall r, In r (span_rows (fst (fst ej))) -> In r (span_rows (fst (fst ek))) ->
  snd (fst ej) <> snd (fst ek).
Proof.
  induction l as [|s l IH]; intros u c j k ej ek Hj Hk Hjk r Hrj Hrk Ho;
    [destruct j; discriminate|].
  rewrite assign_offsets_cons in Hj, Hk.
  destruct k as [|k]; [lia|]. simpl in Hk.
  destruct j as [|j]; simpl in Hj.
  - inversion Hj; subst ej. simpl in Hrj, Ho.
    destruct (assign_offsets_avoid _ _ _ _ (nth_error_In _ _ Hk)) as [_ Hav].
    apply (Hav r); [|exact Hrk]. rewrite <- Ho. apply in_or_app. right.
    apply in_map_iff. eauto.
  - eapply (IH _ _ j k); eauto. lia.
Qed.

Lemma lineage_offsets_nodup : forall cs subs counter,
  NoDup (flat_map sbcommits subs) ->
  NoDup (flat_map (fun e => sbcommits (sb (fst (fst e))))
           (fst (lineage_offsets cs subs counter))).
Proof.
  intros cs subs counter Hn. unfold lineage_offsets.
  rewrite flat_map_concat_map.
  rewrite <- (map_map (fun e => fst (fst e)) (fun s => sbcommits (sb s))).
  rewrite assign_offsets_spans, <- flat_map_concat_map.
  eapply Permutation_NoDup;
    [apply Permutation_sym, (Permutation_flat_map (fun s => sbcommits (sb s))), sort_desc_perm|].
  rewrite flat_map_concat_map, map_map, <- flat_map_concat_map. exact Hn.
Qed.

Lemma positionsOf_row : forall cs cc n h p,
  hget (positionsOf cs cc n) h = Some p ->
  exists c, nth_error cs (prow p) = Some c /\ chash c = h.
Proof.
  intros cs cc n h p Hp. apply hget_In in Hp. revert h p Hp. unfold positionsOf.
  apply (fold_left_invariant
           (fun m => forall h p, In (h, p) m ->
                     exists c, nth_error cs (prow p) = Some c /\ chash c = h));
    [intros h p []|].
  intros m [i c] Hi Hm h p [Hv|Hv]; [|eauto].
  inversion Hv; subst. simpl. apply In_indexed in Hi. eauto.
Qed.

Lemma renderLayout_blsub : forall cs branches selected lay bl,
  renderLayout cs branches selected = Some lay -> In bl (branchLineages lay) ->
  exists L excl allL, blsub bl = findSubBranches cs L excl allL.
Proof.
  intros cs branches selected lay bl Hl Hb. unfold renderLayout in Hl.
  destruct (allLineagesOf cs branches selected) as [ls|]; [|discriminate].
  inversion Hl; subst. simpl in Hb. unfold branchLineagesOf in Hb.
  apply in_map_iff in Hb as [[i [name l]] [<- _]]. simpl. eauto.
Qed.

(** C4. In every layout, for every lineage [bl] and any two different entries
    [j <> k] of the offsets assigned to its sub-branches: both offsets are
    positive; no member commit of one is drawn on the same row as a member
    commit of the other (so no row carries both at any offset); and when the
    rows reserved by the two spans overlap, the offsets differ. *)
Theorem sub_branches_never_share_row_and_offset :
  forall cs branches selected lay bl counter j k sj oj ij sk ok ik,
  renderLayout cs branches selected = Some lay ->
  In bl (branchLineages lay) ->
  nth_error (fst (lineage_offsets cs (blsub bl) counter)) j = Some (sj, oj, ij) ->
  nth_error (fst (lineage_offsets cs (blsub bl) counter)) k = Some (sk, ok, ik) ->
  j <> k ->
  1 <= oj /\ 1 <= ok /\
  (forall m1 m2 p1 p2, In m1 (sbcommits (sb sj)) -> In m2 (sbcommits (sb sk)) ->
     hget (positions lay) m1 = Some p1 -> hget (positions lay) m2 = Some p2 ->
     prow p1 <> prow p2) /\
  (forall r, In r (span_rows sj) -> In r (span_rows sk) -> oj <> ok).
Proof.
  intros cs branches selected lay bl counter j k sj oj ij sk ok ik Hl Hb Hj Hk Hjk.
  unfold lineage_offsets in Hj, Hk.
  split; [exact (proj1 (assign_offsets_avoid _ _ _ _ (nth_error_In _ _ Hj)))|].
  split; [exact (proj1 (assign_offsets_avoid _ _ _ _ (nth_error_In _ _ Hk)))|].
  split.
  - intros m1 m2 p1 p2 H1 H2 Hp1 Hp2 Hrow.
    assert (Hpos : positions lay = positionsOf cs (commitColumn lay) (length (branchLineages lay))).
    { unfold renderLayout in Hl. destruct (allLineagesOf cs branches selected); [|discriminate].
      inversion Hl; reflexivity. }
    rewrite Hpos in Hp1, Hp2.
    destruct (positionsOf_row _ _ _ _ _ Hp1) as [c1 [Hc1 He1]].
    destruct (positionsOf_row _ _ _ _ _ Hp2) as [c2 [Hc2 He2]].
    rewrite Hrow in Hc1. rewrite Hc1 in Hc2. inversion Hc2; subst c2.
    assert (Hm : m2 = m1) by congruence. rewrite Hm in H2.
    destruct (renderLayout_blsub _ _ _ _ _ Hl Hb) as [L [excl [allL Hsub]]].
    pose proof (lineage_offsets_nodup cs (blsub bl) counter) as Hn.
    rewrite Hsub in Hn at 1. specialize (Hn (findSubBranches_nodup cs L excl allL)).
    unfold lineage_offsets in Hn.
    exact (NoDup_flat_map_nth (fun e => sbcommits (sb (fst (fst e)))) _ j k _ _ m1
             Hn Hj Hk Hjk H1 H2).
  - intros r Hr1 Hr2.
    destruct (Nat.lt_total j k) as [Hlt|[Heq|Hgt]]; [|contradiction|].
    + exact (assign_offsets_sep _ _ _ j k _ _ Hj Hk Hlt r Hr1 Hr2).
    + intros Ho. symmetry in Ho. exact (assign_offsets_sep _ _ _ k j _ _ Hk Hj Hgt r Hr2 Hr1 Ho).
Qed.

Lemma sub_branches_never_share_row_and_offset_witness :
  snd (fst (Inputs.twoFeaturesEntry 0)) = snd (fst (Inputs.twoFeaturesEntry 1)) /\
  1 <= snd (fst (Inputs.twoFeaturesEntry 0)) /\
  (forall p1 p2,
     hget (positions Inputs.twoFeaturesLayout) "f1" = Some p1 ->
     hget (positions Inputs.twoFeaturesLayout) "g1" = Some p2 -> prow p1 <> prow p2).
Proof.
  assert (H := sub_branches_never_share_row_and_offset
                 Inputs.twoFeatures Inputs.branchesMain3 ["main"] Inputs.twoFeaturesLayout
                 Inputs.twoFeaturesLineage 0 0 1
                 (fst (fst (Inputs.twoFeaturesEntry 0))) (snd (fst (Inputs.twoFeaturesEntry 0)))
                 (snd (Inputs.twoFeaturesEntry 0))
                 (fst (fst (Inputs.twoFeaturesEntry 1))) (snd (fst (Inputs.twoFeaturesEntry 1)))
                 (snd (Inputs.twoFeaturesEntry 1))
                 ltac:(vm_compute; reflexivity) ltac:(vm_compute; left; reflexivity)
                 ltac:(vm_compute; reflexivity) ltac:(vm_compute; reflexivity)
                 ltac:(discriminate)).
  destruct H as [Hpos [_ [Hrow _]]].
  split; [vm_compute; reflexivity|]. split; [exact Hpos|].
  intros p1 p2. apply Hrow; vm_compute; auto.
Defined.

(** * Further properties of the renderer *)

(** ** Shape of the sub-branches found by [findSubBranches] *)

Lemma collect_loop_members : forall cs lin excl fuel P commits tv x,
  In x (collect_loop cs lin excl fuel P commits tv) ->
  In x commits \/
  (~ In x lin /\ ~ In x excl /\ ~ In x P /\ exists c, hashToCommit cs x = Some c).
Proof.
  intros cs lin excl fuel. induction fuel as [|f IH]; intros P commits tv x Hx;
    simpl in Hx; destruct tv as [|h rest]; auto.
  destruct (_ || _ || _ || _) eqn:E; [eapply IH; eauto|].
  destruct (hashToCommit cs h) as [c|] eqn:Hc; [|eapply IH; eauto].
  destruct (IH _ _ _ _ Hx) as [Hin|Hout]; [|auto].
  apply in_app_or in Hin as [Hin|[<-|[]]]; [auto|].
  apply orb_false_iff in E as [E E4]. apply orb_false_iff in E as [E E3].
  apply orb_false_iff in E as [_ E2].
  apply mem_false in E2. apply mem_false in E3. apply mem_false in E4.
  right. eauto 6.
Qed.

Lemma findBranchPoint_some : forall cs lin S p,
  findBranchPoint cs lin S = Some p ->
  In p lin /\ exists h c, In h S /\ hashToCommit cs h = Some c /\ In p (parents c).
Proof.
  intros cs lin S p. induction S as [|h r IH]; simpl; intros H; [discriminate|].
  destruct (hashToCommit cs h) as [c|] eqn:Hc.
  - destruct (find (fun p => mem p lin) (parents c)) as [q|] eqn:Hf.
    + inversion H; subst q. apply find_some in Hf as [Hin Hm]. apply mem_In in Hm.
      split; [exact Hm|]. exists h, c. auto.
    + destruct (IH H) as [Hp [h' [c' [H1 H2]]]]. split; [exact Hp|]. exists h', c'. auto.
  - destruct (IH H) as [Hp [h' [c' [H1 H2]]]]. split; [exact Hp|]. exists h', c'. auto.
Qed.

Lemma findMergeCommitOnLineage_some : forall cs S target m,
  findMergeCommitOnLineage cs S target = Some m ->
  In m target /\ exists c, hashToCommit cs m = Some c /\ 2 <= length (parents c) /\
  exists p, In p (tl (parents c)) /\ In p S.
Proof.
  intros cs S target m H. unfold findMergeCommitOnLineage in H.
  apply find_some in H as [Hin Hp]. split; [exact Hin|].
  destruct (hashToCommit cs m) as [c|]; [|discriminate].
  destruct (Nat.ltb (length (parents c)) 2) eqn:Hl; [discriminate|].
  apply Nat.ltb_ge in Hl. apply existsb_exists in Hp as [p [Hp1 Hp2]].
  apply mem_In in Hp2. exists c. split; [reflexivity|]. split; [exact Hl|]. eauto.
Qed.

Lemma fsb_fold_shape : forall cs L excl allL l st,
  (forall s, In s (subBranches st) ->
     sbcommits s <> [] /\
     (forall x, In x (sbcommits s) ->
        ~ In x (lmem L) /\ ~ In x excl /\ exists c, In c cs /\ chash c = x) /\
     mergeCommit s = findMergeCommitOnLineage cs (sbcommits s) (lmem L) /\
     branchPoint s = findBranchPoint cs (lmem L) (sbcommits s)) ->
  forall s, In s (subBranches (fold_left (fsb_step cs (lmem L) excl L allL) l st)) ->
     sbcommits s <> [] /\
     (forall x, In x (sbcommits s) ->
        ~ In x (lmem L) /\ ~ In x excl /\ exists c, In c cs /\ chash c = x) /\
     mergeCommit s = findMergeCommitOnLineage cs (sbcommits s) (lmem L) /\
     branchPoint s = findBranchPoint cs (lmem L) (sbcommits s).
Proof.
  intros cs L excl allL l st H0.
  apply (fold_left_invariant (fun st => forall s, In s (subBranches st) ->
     sbcommits s <> [] /\
     (forall x, In x (sbcommits s) ->
        ~ In x (lmem L) /\ ~ In x excl /\ exists c, In c cs /\ chash c = x) /\
     mergeCommit s = findMergeCommitOnLineage cs (sbcommits s) (lmem L) /\
     branchPoint s = findBranchPoint cs (lmem L) (sbcommits s))); [exact H0|].
  intros st' c _ Hst. unfold fsb_step.
  destruct (_ || _ || _); [exact Hst|].
  destruct (Nat.ltb 0 _ && _) eqn:Hv; [|exact Hst].
  destruct (_ || _); [|exact Hst].
  simpl. intros s Hs. apply in_app_or in Hs as [Hs|[<-|[]]]; [auto|].
  apply andb_true_iff in Hv as [Hlen _]. apply Nat.ltb_lt in Hlen. simpl.
  split; [intros He; rewrite He in Hlen; simpl in Hlen; lia|].
  split; [|auto].
  intros x Hx. unfold collectConnectedCommits in Hx.
  destruct (collect_loop_members _ _ _ _ _ _ _ _ Hx) as [[]|[H1 [H2 [_ [c' Hc']]]]].
  apply hashToCommit_In in Hc'. eauto.
Qed.

(** Every sub-branch of a [findSubBranches] pass is a nonempty set of loaded
    commits (no hash twice), none on the lineage or among the excluded
    commits, and two different sub-branches of the pass share no commit. *)
Theorem findSubBranches_shape : forall cs L excl allL,
  (forall s, In s (findSubBranches cs L excl allL) ->
     sbcommits s <> [] /\ NoDup (sbcommits s) /\
     forall x, In x (sbcommits s) ->
       ~ In x (lmem L) /\ ~ In x excl /\ exists c, In c cs /\ chash c = x) /\
  (forall j k s1 s2 x,
     nth_error (findSubBranches cs L excl allL) j = Some s1 ->
     nth_error (findSubBranches cs L excl allL) k = Some s2 -> j <> k ->
     In x (sbcommits s1) -> ~ In x (sbcommits s2)).
Proof.
  intros cs L excl allL. pose proof (findSubBranches_nodup cs L excl allL) as Hnd.
  split.
  - intros s Hs.
    destruct (fsb_fold_shape cs L excl allL cs (mkFSB [] []) (fun s H => match H with end) s Hs)
      as [Hne [Hm _]].
    split; [exact Hne|]. split; [|exact Hm].
    apply in_split in Hs as [pre [post Heq]]. rewrite Heq, flat_map_app in Hnd.
    apply NoDup_app_remove_l in Hnd. simpl in Hnd. apply NoDup_app_remove_r in Hnd. exact Hnd.
  - intros j k s1 s2 x Hj Hk Hjk H1 H2.
    exact (NoDup_flat_map_nth sbcommits _ j k _ _ x Hnd Hj Hk Hjk H1 H2).
Qed.

(** The anchors of every sub-branch: its [branchPoint], when set, is a lineage
    commit that is a parent of one of its commits; its [mergeCommit], when set,
    is a lineage commit with at least two parents, a non-first one among the
    sub-branch's commits. *)
Theorem sub_branch_anchors : forall cs L excl allL s,
  In s (findSubBranches cs L excl allL) ->
  (forall p, branchPoint s = Some p ->
     In p (lmem L) /\
     exists h c, In h (sbcommits s) /\ hashToCommit cs h = Some c /\ In p (parents c)) /\
  (forall m, mergeCommit s = Some m ->
     In m (lmem L) /\
     exists c, hashToCommit cs m = Some c /\ 2 <= length (parents c) /\
     exists p, In p (tl (parents c)) /\ In p (sbcommits s)).
Proof.
  intros cs L excl allL s Hs.
  destruct (fsb_fold_shape cs L excl allL cs (mkFSB [] []) (fun s H => match H with end) s Hs)
    as [_ [_ [Hm Hb]]].
  split.
  - intros p Hp. rewrite Hb in Hp. apply findBranchPoint_some. exact Hp.
  - intros m Hmc. rewrite Hm in Hmc. apply findMergeCommitOnLineage_some. exact Hmc.
Qed.

Lemma findSubBranches_shape_witness :
  NoDup (sbcommits (nth 0 Inputs.twoFeaturesSubs Inputs.noSub)) /\
  ~ In "g1" (sbcommits (nth 1 Inputs.twoFeaturesSubs Inputs.noSub)).
Proof.
  split.
  - apply (proj1 (findSubBranches_shape Inputs.twoFeatures Inputs.mainLineage3 []
                    [Inputs.mainLineage3]) (nth 0 Inputs.twoFeaturesSubs Inputs.noSub)).
    vm_compute. left. reflexivity.
  - apply (proj2 (findSubBranches_shape Inputs.twoFeatures Inputs.mainLineage3 []
                    [Inputs.mainLineage3]) 0 1 (nth 0 Inputs.twoFeaturesSubs Inputs.noSub));
      [vm_compute; reflexivity | vm_compute; reflexivity | discriminate | vm_compute; left; reflexivity].
Defined.

Lemma sub_branch_anchors_witness :
  In "c2" (lmem Inputs.mainLineage3) /\ In "c3" (lmem Inputs.mainLineage3).
Proof.
  destruct (sub_branch_anchors Inputs.twoFeatures Inputs.mainLineage3 [] [Inputs.mainLineage3]
              (nth 0 Inputs.twoFeaturesSubs Inputs.noSub)
              ltac:(vm_compute; left; reflexivity)) as [Hb Hm].
  split.
  - apply (proj1 (Hb "c2" ltac:(vm_compute; reflexivity))).
  - apply (proj1 (Hm "c3" ltac:(vm_compute; reflexivity))).
Defined.

(** ** The column map and the placements *)

Lemma hget_hset : forall {A} (m : HMap A) h v x,
  hget (hset m h v) x = if String.eqb h x then Some v else hget m x.
Proof. reflexivity. Qed.

Lemma hget_fold_const : forall {A B} (f : B -> hash) (v : A) l m x,
  hget (fold_left (fun m b => hset m (f b) v) l m) x =
  if existsb (fun b => String.eqb (f b) x) l then Some v else hget m x.
Proof.
  intros A B f v. induction l as [|b l IH]; intros m x; simpl; [reflexivity|].
  rewrite IH, hget_hset. destruct (existsb _ l), (String.eqb (f b) x); reflexivity.
Qed.

Lemma hget_fold_set : forall {A} (v : A) hs m x,
  hget (fold_left (fun m h => hset m h v) hs m) x =
  if mem x hs then Some v else hget m x.
Proof.
  intros A v. induction hs as [|h hs IH]; intros m x; simpl; [reflexivity|].
  rewrite IH, hget_hset. unfold mem. simpl. rewrite (String.eqb_sym x h).
  destruct (existsb (String.eqb x) hs), (String.eqb h x); reflexivity.
Qed.

Lemma In_indexed_of : forall {A} (l : list A) i x,
  nth_error l i = Some x -> In (i, x) (indexed l).
Proof.
  intros A l. unfold indexed.
  assert (H : forall k i x, nth_error l i = Some x -> In (k + i, x) (combine (seq k (length l)) l)).
  { induction l as [|y l IH]; intros k i x Hn; [destruct i; discriminate|].
    destruct i as [|i]; simpl in Hn |- *.
    - inversion Hn; subst. left. f_equal. lia.
    - right. replace (k + S i) with (S k + i) by lia. apply IH. exact Hn. }
  intros i x Hn. apply (H 0). exact Hn.
Qed.

Lemma In_indexed_iff : forall {A} (l : list A) x, In x l <-> exists i, In (i, x) (indexed l).
Proof.
  intros A l x. split.
  - intros Hx. apply In_nth_error in Hx as [i Hi]. exists i. apply In_indexed_of. exact Hi.
  - intros [i Hi]. apply In_indexed in Hi. eapply nth_error_In. exact Hi.
Qed.

Lemma defaultColumns_get : forall cs n x,
  hget (defaultColumns cs n) x =
  if existsb (fun c => String.eqb (chash c) x) cs then Some (mkCol n 0 false None) else None.
Proof.
  intros cs n x. unfold defaultColumns. rewrite (hget_fold_const chash). reflexivity.
Qed.

Lemma mainline_fold_outside : forall l m x,
  (forall i bl, In (i, bl) l -> ~ In x (bllineage bl)) ->
  hget (fold_left (fun m '(i, bl) =>
      fold_left (fun m' h => hset m' h (mkCol i 0 false None)) (bllineage bl) m) l m) x
  = hget m x.
Proof.
  induction l as [|[i bl] l IH]; intros m x Hout; simpl; [reflexivity|].
  rewrite IH; [|intros; eapply Hout; right; eauto].
  rewrite hget_fold_set.
  destruct (mem x (bllineage bl)) eqn:E; [|reflexivity].
  apply mem_In in E. exfalso. eapply Hout; [left; reflexivity | exact E].
Qed.

Lemma mainline_fold_inside : forall n l m x i0 bl0,
  (forall i bl, In (i, bl) l -> i < n) ->
  In (i0, bl0) l -> In x (bllineage bl0) ->
  exists v, hget (fold_left (fun m '(i, bl) =>
      fold_left (fun m' h => hset m' h (mkCol i 0 false None)) (bllineage bl) m) l m) x = Some v
    /\ mainCol v < n.
Proof.
  intros n. induction l as [|[i bl] l IH]; intros m x i0 bl0 Hn Hin Hx; [contradiction|].
  simpl.
  destruct (existsb (fun '(_, b) => mem x (bllineage b)) l) eqn:E.
  - apply existsb_exists in E as [[j b] [Hjb Hm]]. apply mem_In in Hm.
    eapply IH; [intros; eapply Hn; right; eauto | exact Hjb | exact Hm].
  - rewrite mainline_fold_outside.
    + rewrite hget_fold_set. destruct Hin as [Hin|Hin].
      * inversion Hin; subst. apply mem_In in Hx. rewrite Hx.
        eexists; split; [reflexivity|]. simpl. apply (Hn i0 bl0). left; reflexivity.
      * exfalso. assert (Ht : existsb (fun '(_, b) => mem x (bllineage b)) l = true)
          by (apply existsb_exists; exists (i0, bl0); split; [exact Hin | apply mem_In; exact Hx]).
        congruence.
    + intros j b Hjb Hxb. assert (Ht : existsb (fun '(_, b) => mem x (bllineage b)) l = true)
        by (apply existsb_exists; exists (j, b); split; [exact Hjb | apply mem_In; exact Hxb]).
      congruence.
Qed.

Lemma lineage_offsets_members : forall cs subs counter,
  Permutation (flat_map (fun e => sbcommits (sb (fst (fst e))))
                 (fst (lineage_offsets cs subs counter)))
              (flat_map sbcommits subs).
Proof.
  intros cs subs counter. unfold lineage_offsets.
  rewrite flat_map_concat_map.
  rewrite <- (map_map (fun e => fst (fst e)) (fun s => sbcommits (sb s))).
  rewrite assign_offsets_spans, <- flat_map_concat_map.
  eapply perm_trans; [apply (Permutation_flat_map (fun s => sbcommits (sb s))), sort_desc_perm|].
  rewrite flat_map_concat_map, map_map, <- flat_map_concat_map. apply Permutation_refl.
Qed.

Lemma assigned_fold_get : forall (i : nat) (A : list (SBSpan * nat * string)) m x,
  (~ In x (flat_map (fun e => sbcommits (sb (fst (fst e)))) A) ->
   hget (fold_left (fun m1 '(s, off, id) =>
           fold_left (fun m2 h => hset m2 h (mkCol i off true (Some id)))
             (sbcommits (sb s)) m1) A m) x = hget m x) /\
  (In x (flat_map (fun e => sbcommits (sb (fst (fst e)))) A) ->
   exists v, hget (fold_left (fun m1 '(s, off, id) =>
           fold_left (fun m2 h => hset m2 h (mkCol i off true (Some id)))
             (sbcommits (sb s)) m1) A m) x = Some v /\ mainCol v = i).
Proof.
  intros i. induction A as [|[[s off] id] A IH]; intros m x; simpl; [split; [auto|contradiction]|].
  destruct (IH (fold_left (fun m2 h => hset m2 h (mkCol i off true (Some id))) (sbcommits (sb s)) m) x)
    as [IH1 IH2].
  split.
  - intros Hx. rewrite IH1; [|intros H; apply Hx, in_or_app; auto].
    rewrite hget_fold_set. destruct (mem x (sbcommits (sb s))) eqn:E; [|reflexivity].
    apply mem_In in E. exfalso. apply Hx, in_or_app. auto.
  - intros Hx.
    destruct (in_dec string_dec x (flat_map (fun e => sbcommits (sb (fst (fst e)))) A)) as [Hin|Hnin];
      [apply IH2; exact Hin|].
    rewrite IH1; [|exact Hnin]. rewrite hget_fold_set.
    apply in_app_or in Hx as [Hx|Hx]; [|contradiction].
    apply mem_In in Hx. rewrite Hx. eauto.
Qed.

Lemma subBranchColumns_outside : forall cs l counter m x,
  (forall i bl s, In (i, bl) l -> In s (blsub bl) -> ~ In x (sbcommits s)) ->
  hget (subBranchColumns cs l counter m) x = hget m x.
Proof.
  intros cs. induction l as [|[i bl] l IH]; intros counter m x Hout; simpl; [reflexivity|].
  destruct (lineage_offsets cs (blsub bl) counter) as [assigned counter'] eqn:Hlo.
  rewrite IH; [|intros; eapply Hout; [right|]; eauto].
  apply (proj1 (assigned_fold_get i assigned m x)).
  intros Hx. pose proof (lineage_offsets_members cs (blsub bl) counter) as Hp.
  rewrite Hlo in Hp. simpl in Hp. apply (Permutation_in _ Hp) in Hx.
  apply in_flat_map in Hx as [s [Hs Hxs]].
  eapply Hout; [left; reflexivity | exact Hs | exact Hxs].
Qed.

Lemma subBranchColumns_inside : forall cs n l counter m x i0 bl0 s0,
  (forall i bl, In (i, bl) l -> i < n) ->
  In (i0, bl0) l -> In s0 (blsub bl0) -> In x (sbcommits s0) ->
  exists v, hget (subBranchColumns cs l counter m) x = Some v /\ mainCol v < n.
Proof.
  intros cs n. induction l as [|[i bl] l IH]; intros counter m x i0 bl0 s0 Hn Hin Hs Hx;
    [contradiction|].
  simpl. destruct (lineage_offsets cs (blsub bl) counter) as [assigned counter'] eqn:Hlo.
  destruct (existsb (fun '(_, b) => existsb (fun s => mem x (sbcommits s)) (blsub b)) l) eqn:E.
  - apply existsb_exists in E as [[j b] [Hjb Hm]].
    apply existsb_exists in Hm as [s [Hs' Hm]]. apply mem_In in Hm.
    eapply IH; [intros; eapply Hn; right; eauto | exact Hjb | exact Hs' | exact Hm].
  - assert (Hnot : forall j b s, In (j, b) l -> In s (blsub b) -> ~ In x (sbcommits s)).
    { intros j b s Hjb Hsb Hxs.
      assert (Ht : existsb (fun '(_, b) => existsb (fun s => mem x (sbcommits s)) (blsub b)) l = true).
      { apply existsb_exists. exists (j, b). split; [exact Hjb|].
        apply existsb_exists. exists s. split; [exact Hsb | apply mem_In; exact Hxs]. }
      congruence. }
    rewrite subBranchColumns_outside; [|exact Hnot].
    destruct Hin as [Hin|Hin]; [|exfalso; eapply Hnot; eauto].
    inversion Hin; subst i0 bl0.
    destruct (proj2 (assigned_fold_get i assigned m x)) as [v [Hv Hcol]].
    + pose proof (lineage_offsets_members cs (blsub bl) counter) as Hp.
      rewrite Hlo in Hp. simpl in Hp. apply (Permutation_in _ (Permutation_sym Hp)).
      apply in_flat_map. eauto.
    + exists v. split; [exact Hv|]. rewrite Hcol. apply (Hn i bl). left; reflexivity.
Qed.

(** Where a hash stands in [commitColumn]: in a sub-branch or on a lineage
    it has a column below [n]; otherwise it has the default entry exactly
    when it is a loaded hash. *)
Lemma commitColumnOf_get : forall cs bls x,
  ((exists bl, In bl bls /\ (In x (bllineage bl) \/ exists s, In s (blsub bl) /\ In x (sbcommits s))) ->
   exists v, hget (commitColumnOf cs bls) x = Some v /\ mainCol v < length bls) /\
  ((forall bl, In bl bls -> ~ In x (bllineage bl) /\ forall s, In s (blsub bl) -> ~ In x (sbcommits s)) ->
   hget (commitColumnOf cs bls) x =
   if existsb (fun c => String.eqb (chash c) x) cs
   then Some (mkCol (length bls) 0 false None) else None).
Proof.
  intros cs bls x. unfold commitColumnOf, mainlineColumns.
  assert (Hn : forall i bl, In (i, bl) (indexed bls) -> i < length bls)
    by (intros i bl H; exact (In_indexed_lt _ _ _ H)).
  split.
  - intros [bl [Hbl [Hx|[s [Hs Hx]]]]]; apply In_indexed_iff in Hbl as [i Hi].
    + destruct (existsb (fun '(_, b) => existsb (fun s => mem x (sbcommits s)) (blsub b))
                 (indexed bls)) eqn:E.
      * apply existsb_exists in E as [[j b] [Hjb Hm]].
        apply existsb_exists in Hm as [s [Hs Hm]]. apply mem_In in Hm.
        eapply subBranchColumns_inside; eauto.
      * rewrite subBranchColumns_outside.
        -- eapply mainline_fold_inside; eauto.
        -- intros j b s Hjb Hsb Hxs.
           assert (Ht : existsb (fun '(_, b) => existsb (fun s => mem x (sbcommits s)) (blsub b))
                          (indexed bls) = true).
           { apply existsb_exists. exists (j, b). split; [exact Hjb|].
             apply existsb_exists. exists s. split; [exact Hsb | apply mem_In; exact Hxs]. }
           congruence.
    + eapply subBranchColumns_inside; eauto.
  - intros Hout. rewrite subBranchColumns_outside.
    + rewrite mainline_fold_outside; [apply defaultColumns_get|].
      intros i bl Hi. apply In_indexed in Hi. apply nth_error_In in Hi. apply (Hout bl Hi).
    + intros i bl s Hi. apply In_indexed in Hi. apply nth_error_In in Hi. apply (Hout bl Hi).
Qed.

Lemma renderLayout_parts : forall cs branches selected lay,
  renderLayout cs branches selected = Some lay ->
  commitColumn lay = commitColumnOf cs (branchLineages lay) /\
  positions lay = positionsOf cs (commitColumn lay) (length (branchLineages lay)).
Proof.
  intros cs branches selected lay Hl. unfold renderLayout in Hl.
  destruct (allLineagesOf cs branches selected); [|discriminate].
  inversion Hl; subst. split; reflexivity.
Qed.

(** The "Other" column header is drawn exactly when some loaded commit is on
    no selected lineage and in no sub-branch of any of them. *)
Theorem other_column_shown_iff : forall cs branches selected lay,
  renderLayout cs branches selected = Some lay ->
  (hasOtherCommits (commitColumn lay) (length (branchLineages lay)) = true <->
   exists c, In c cs /\
     forall bl, In bl (branchLineages lay) ->
       ~ In (chash c) (bllineage bl) /\ forall s, In s (blsub bl) -> ~ In (chash c) (sbcommits s)).
Proof.
  intros cs branches selected lay Hl.
  destruct (renderLayout_parts _ _ _ _ Hl) as [Hcc _]. rewrite Hcc.
  set (bls := branchLineages lay).
  unfold hasOtherCommits. rewrite existsb_exists. split.
  - intros [[h v0] [Hin Hh]].
    destruct (hget (commitColumnOf cs bls) h) as [v|] eqn:Hv; [|discriminate].
    apply Nat.eqb_eq in Hh.
    destruct (commitColumnOf_get cs bls h) as [Hinside Houtside].
    assert (Hout : forall bl, In bl bls ->
              ~ In h (bllineage bl) /\ forall s, In s (blsub bl) -> ~ In h (sbcommits s)).
    { intros bl Hbl. split.
      - intros Hx. destruct (Hinside (ex_intro _ bl (conj Hbl (or_introl Hx)))) as [v' [Hv' Hlt]].
        rewrite Hv in Hv'. inversion Hv'; subst. lia.
      - intros s Hs Hx.
        destruct (Hinside (ex_intro _ bl (conj Hbl (or_intror (ex_intro _ s (conj Hs Hx))))))
          as [v' [Hv' Hlt]].
        rewrite Hv in Hv'. inversion Hv'; subst. lia. }
    rewrite (Houtside Hout) in Hv.
    destruct (existsb (fun c => String.eqb (chash c) h) cs) eqn:E; [|discriminate].
    apply existsb_exists in E as [c [Hc Heq]]. apply String.eqb_eq in Heq. subst h.
    exists c. split; [exact Hc | exact Hout].
  - intros [c [Hc Hout]].
    pose proof (proj2 (commitColumnOf_get cs bls (chash c)) Hout) as Hv.
    assert (E : existsb (fun c' => String.eqb (chash c') (chash c)) cs = true)
      by (apply existsb_exists; exists c; split; [exact Hc | apply String.eqb_refl]).
    rewrite E in Hv. exists (chash c, mkCol (length bls) 0 false None). split.
    + apply hget_In. exact Hv.
    + rewrite Hv. apply Nat.eqb_refl.
Qed.

Lemma other_column_shown_iff_witness :
  hasOtherCommits (commitColumn Inputs.orphanLayout)
    (length (branchLineages Inputs.orphanLayout)) = true.
Proof.
  apply (proj2 (other_column_shown_iff Inputs.orphan Inputs.branchesMain2 ["main"]
                  Inputs.orphanLayout ltac:(vm_compute; reflexivity))).
  exists (Inputs.mk "o1" ["zz"] 2). split; [simpl; auto|].
  intros bl Hbl. vm_compute in Hbl. destruct Hbl as [<-|[]].
  split; [apply mem_false; vm_compute; reflexivity | intros s []].
Defined.

Lemma positionsOf_entry : forall cs cc n h p,
  hget (positionsOf cs cc n) h = Some p ->
  exists c, In c cs /\ chash c = h /\
    pcol p = mainCol (colOf cc h n) /\
    px p = columnStartX cs cc n (mainCol (colOf cc h n)) + subOffset (colOf cc h n) * subBranchOffset /\
    py p = paddingTop + prow p * nodeSpacingY.
Proof.
  intros cs cc n h p Hp. apply hget_In in Hp. revert h p Hp. unfold positionsOf.
  apply (fold_left_invariant
           (fun m => forall h p, In (h, p) m ->
              exists c, In c cs /\ chash c = h /\
                pcol p = mainCol (colOf cc h n) /\
                px p = columnStartX cs cc n (mainCol (colOf cc h n))
                       + subOffset (colOf cc h n) * subBranchOffset /\
                py p = paddingTop + prow p * nodeSpacingY)); [intros h p []|].
  intros m [i c] Hi Hm h p [Hv|Hv]; [|eauto].
  inversion Hv; subst. apply In_indexed in Hi. apply nth_error_In in Hi.
  exists c. simpl. auto 6.
Qed.

Lemma indexed_sorted : forall {A} (l : list A),
  StronglySorted (fun a b : nat * A => fst a < fst b) (indexed l).
Proof.
  intros A l. unfold indexed.
  assert (H : forall k, StronglySorted (fun a b : nat * A => fst a < fst b)
                          (combine (seq k (length l)) l)).
  { induction l as [|y l IH]; intros k; simpl; [constructor|].
    constructor; [apply IH|].
    apply Forall_forall. intros [a b] Hab. apply in_combine_l, in_seq in Hab. simpl. lia. }
  apply H.
Qed.

Lemma assigned_fold_get_sub : forall (i : nat) (A : list (SBSpan * nat * string)) m x,
  In x (flat_map (fun e => sbcommits (sb (fst (fst e)))) A) ->
  exists v, hget (fold_left (fun m1 '(s, off, id) =>
           fold_left (fun m2 h => hset m2 h (mkCol i off true (Some id)))
             (sbcommits (sb s)) m1) A m) x = Some v /\ mainCol v = i /\ isSubBranch v = true.
Proof.
  intros i. induction A as [|[[s off] id] A IH]; intros m x Hx; [contradiction|]. simpl.
  destruct (in_dec string_dec x (flat_map (fun e => sbcommits (sb (fst (fst e)))) A)) as [Hin|Hnin];
    [apply IH; exact Hin|].
  rewrite (proj1 (assigned_fold_get i A _ x) Hnin), hget_fold_set.
  simpl in Hx. apply in_app_or in Hx as [Hx|Hx]; [|contradiction].
  apply mem_In in Hx. rewrite Hx. eexists. split; [reflexivity|]. split; reflexivity.
Qed.

(** The sub-branch assignments run over the lineages in order; the last
    lineage with a sub-branch holding [x] sets its column. *)
Lemma subBranchColumns_last : forall cs l counter m x j bl0 s0,
  StronglySorted (fun a b : nat * BranchLineage => fst a < fst b) l ->
  In (j, bl0) l -> In s0 (blsub bl0) -> In x (sbcommits s0) ->
  (forall k bl s, In (k, bl) l -> In s (blsub bl) -> In x (sbcommits s) -> k <= j) ->
  exists v, hget (subBranchColumns cs l counter m) x = Some v /\ mainCol v = j /\ isSubBranch v = true.
Proof.
  intros cs. induction l as [|[i bl] l IH]; intros counter m x j bl0 s0 Hsort Hin Hs0 Hx Hmax;
    [contradiction|].
  inversion Hsort as [|? ? Hsort' Hall]; subst.
  simpl. destruct (lineage_offsets cs (blsub bl) counter) as [assigned counter'] eqn:Hlo.
  destruct (existsb (fun '(_, b) => existsb (fun s => mem x (sbcommits s)) (blsub b)) l) eqn:E.
  - apply existsb_exists in E as [[k b] [Hkb Hm]].
    apply existsb_exists in Hm as [s [Hs2 Hm]]. apply mem_In in Hm.
    destruct Hin as [Hin|Hin].
    + inversion Hin; subst i bl0. exfalso. rewrite Forall_forall in Hall.
      specialize (Hall _ Hkb). simpl in Hall.
      specialize (Hmax k b s (or_intror Hkb) Hs2 Hm). lia.
    + eapply IH; [exact Hsort' | exact Hin | exact Hs0 | exact Hx |].
      intros k' b' s' H1 H2 H3. eapply Hmax; [right; exact H1 | exact H2 | exact H3].
  - assert (Hnot : forall j b s, In (j, b) l -> In s (blsub b) -> ~ In x (sbcommits s)).
    { intros j' b s Hjb Hsb Hxs.
      assert (Ht : existsb (fun '(_, b) => existsb (fun s => mem x (sbcommits s)) (blsub b)) l = true).
      { apply existsb_exists. exists (j', b). split; [exact Hjb|].
        apply existsb_exists. exists s. split; [exact Hsb | apply mem_In; exact Hxs]. }
      congruence. }
    rewrite subBranchColumns_outside; [|exact Hnot].
    destruct Hin as [Hin|Hin]; [|exfalso; eapply Hnot; eauto].
    inversion Hin; subst i bl0.
    apply assigned_fold_get_sub.
    pose proof (lineage_offsets_members cs (blsub bl) counter) as Hp.
    rewrite Hlo in Hp. simpl in Hp. apply (Permutation_in _ (Permutation_sym Hp)).
    apply in_flat_map. eauto.
Qed.

(** C2 (amended). Claimed hashes are marked only within one lineage's pass:
    [processedCommits] is local to [findSubBranches], and every pass starts
    with none. In the pass of any lineage [L], a valid component met by the
    loop unclaimed that merges into no active lineage is part of that pass's
    result; the same unmerged component can therefore be in the results of
    several lineages. In the layout, a commit of a sub-branch of the lineage
    of index [j] that is in no sub-branch of a later lineage (in selection
    order) is placed in column [j], as a sub-branch commit: the sub-branch
    assignments run in selection order and the last one wins. *)
Theorem unmerged_component_in_every_pass :
  (forall cs L excl allL pre c post,
   cs = (pre ++ c :: post)%list ->
   let st := fold_left (fsb_step cs (lmem L) excl L allL) pre (mkFSB [] []) in
   let S := collectConnectedCommits cs (lmem L) excl (processedCommits st) (chash c) in
   ~ In (chash c) (lmem L) -> ~ In (chash c) excl -> ~ In (chash c) (processedCommits st) ->
   isValidSubBranch cs (lmem L) S = true ->
   findMergeCommitOnLineage cs S (lmem L) = None ->
   (forall o, In o allL -> findMergeCommitOnLineage cs S (lmem o) = None) ->
   In (mkSubBranch None (findBranchPoint cs (lmem L) S) S) (findSubBranches cs L excl allL)) /\
  (forall cs branches selected lay j bl s h,
   renderLayout cs branches selected = Some lay ->
   nth_error (branchLineages lay) j = Some bl -> In s (blsub bl) -> In h (sbcommits s) ->
   (forall k bl' s', j < k -> nth_error (branchLineages lay) k = Some bl' -> In s' (blsub bl') ->
      ~ In h (sbcommits s')) ->
   exists v, hget (commitColumn lay) h = Some v /\ mainCol v = j /\ isSubBranch v = true /\
     forall p, hget (positions lay) h = Some p -> pcol p = j).
Proof.
  split; [exact unmerged_component_in_pass|].
  intros cs branches selected lay j bl s h Hl Hj Hs Hh Hlater.
  destruct (renderLayout_parts _ _ _ _ Hl) as [Hcc Hpos].
  assert (Hv : exists v, hget (commitColumn lay) h = Some v /\ mainCol v = j /\ isSubBranch v = true).
  { rewrite Hcc. unfold commitColumnOf.
    apply (subBranchColumns_last cs _ 0 _ h j bl s (indexed_sorted _) (In_indexed_of _ _ _ Hj) Hs Hh).
    intros k b s' Hk Hs' Hh'. apply In_indexed in Hk.
    destruct (Nat.le_gt_cases k j) as [Hle|Hgt]; [exact Hle|].
    exfalso. exact (Hlater k b s' Hgt Hk Hs' Hh'). }
  destruct Hv as [v [Hv [Hm Hsb]]]. exists v. split; [exact Hv|]. split; [exact Hm|].
  split; [exact Hsb|].
  intros p Hp. rewrite Hpos in Hp. destruct (positionsOf_entry _ _ _ _ _ Hp) as [c [_ [_ [Hpc _]]]].
  rewrite Hpc. unfold colOf. rewrite Hv. exact Hm.
Qed.

Lemma unmerged_component_in_every_pass_witness :
  In (mkSubBranch None (Some "c1") ["f1"])
     (findSubBranches Inputs.unmerged (mkLSet 1 ["d2"; "c1"]) ["m2"; "c1"]
        [mkLSet 0 ["m2"; "c1"]; mkLSet 1 ["d2"; "c1"]]) /\
  exists v, hget (commitColumn Inputs.unmergedLayout) "f1" = Some v /\ mainCol v = 1 /\
    isSubBranch v = true /\
    forall p, hget (positions Inputs.unmergedLayout) "f1" = Some p -> pcol p = 1.
Proof.
  split.
  - apply (proj1 unmerged_component_in_every_pass Inputs.unmerged (mkLSet 1 ["d2"; "c1"]) ["m2"; "c1"]
             [mkLSet 0 ["m2"; "c1"]; mkLSet 1 ["d2"; "c1"]]
             [Inputs.mk "m2" ["c1"] 4; Inputs.mk "d2" ["c1"] 3]
             (Inputs.mk "f1" ["c1"] 2) [Inputs.mk "c1" [] 1]).
    + reflexivity.
    + vm_compute. intuition discriminate.
    + vm_compute. intuition discriminate.
    + vm_compute. intuition discriminate.
    + vm_compute. reflexivity.
    + vm_compute. reflexivity.
    + intros o [<-|[<-|[]]]; vm_compute; reflexivity.
  - assert (Hlen : length (branchLineages Inputs.unmergedLayout) = 2) by (vm_compute; reflexivity).
    apply (proj2 unmerged_component_in_every_pass Inputs.unmerged Inputs.branchesMD ["main"; "dev"]
             Inputs.unmergedLayout 1
             (nth 1 (branchLineages Inputs.unmergedLayout) (mkBL EmptyString [] []))
             (mkSubBranch None (Some "c1") ["f1"]) "f1").
    + vm_compute. reflexivity.
    + vm_compute. reflexivity.
    + vm_compute. left. reflexivity.
    + simpl. left. reflexivity.
    + intros k bl' s' Hk Hn. rewrite (proj2 (nth_error_None _ _)) in Hn; [discriminate | lia].
Defined.

(** C2 (counterexample): [main] and [dev] both fork from [c1], and [f1] forks
    from [c1] unmerged. The pass of [main] (selected first) and the pass of
    [dev] both return the sub-branch [{f1}], and the layout places [f1] in the
    column of [dev], the last of them. *)
Lemma unmerged_component_in_two_lineages :
  match renderLayout Inputs.unmerged Inputs.branchesMD ["main"; "dev"] with
  | Some lay =>
      map blsub (branchLineages lay) =
        [[mkSubBranch None (Some "c1") ["f1"]]; [mkSubBranch None (Some "c1") ["f1"]]] /\
      option_map pcol (hget (positions lay) "f1") = Some 1
  | None => False
  end.
Proof. vm_compute. split; reflexivity. Qed.


Lemma positionsOf_defined : forall cs cc n c,
  In c cs -> exists p, hget (positionsOf cs cc n) (chash c) = Some p.
Proof.
  intros cs cc n c Hc. apply In_indexed_iff in Hc as [i Hi]. unfold positionsOf.
  assert (Hgen : forall l m, (In (i, c) l \/ exists p, hget m (chash c) = Some p) ->
     exists p, hget (fold_left (fun m '(globalIndex, c) =>
        let col := colOf cc (chash c) n in
        hset m (chash c)
          (mkPlacement (mainCol col) (subOffset col) globalIndex
             (columnStartX cs cc n (mainCol col) + subOffset col * subBranchOffset)
             (paddingTop + globalIndex * nodeSpacingY)
             (isSubBranch col) (subBranchId col))) l m) (chash c) = Some p).
  { induction l as [|[j c'] l IH]; intros m [H|H]; simpl; [contradiction | exact H | |].
    - destruct H as [H|H].
      + inversion H; subst. apply IH. right. rewrite hget_hset, String.eqb_refl. eauto.
      + apply IH. auto.
    - apply IH. right. rewrite hget_hset. destruct H as [p Hp].
      destruct (String.eqb (chash c') (chash c)); eauto. }
  apply Hgen. auto.
Qed.

Lemma maxOffsetOf_ge : forall cs cc n c,
  In c cs -> subOffset (colOf cc (chash c) n) <= maxOffsetOf cs cc n (mainCol (colOf cc (chash c) n)).
Proof.
  intros cs cc n c Hc. unfold maxOffsetOf.
  set (i := mainCol (colOf cc (chash c) n)).
  set (f := fun mx c =>
        let col := colOf cc (chash c) n in
        if Nat.eqb (mainCol col) i && Nat.ltb mx (subOffset col) then subOffset col else mx).
  assert (Hstep : forall mx c', mx <= f mx c' /\
            (mainCol (colOf cc (chash c') n) = i -> subOffset (colOf cc (chash c') n) <= f mx c')).
  { intros mx c'. unfold f. cbv zeta.
    destruct (Nat.eqb (mainCol (colOf cc (chash c') n)) i) eqn:Ei; simpl.
    - destruct (Nat.ltb mx _) eqn:E.
      + apply Nat.ltb_lt in E. split; [lia | auto].
      + apply Nat.ltb_ge in E. split; [lia | auto].
    - split; [lia|]. intros Hi. apply Nat.eqb_neq in Ei. contradiction. }
  assert (Hgen : forall l mx, mx <= fold_left f l mx /\
     (forall c', In c' l -> mainCol (colOf cc (chash c') n) = i ->
        subOffset (colOf cc (chash c') n) <= fold_left f l mx)).
  { induction l as [|c0 l IH]; intros mx; cbn [fold_left]; [split; [lia | intros _ []]|].
    destruct (IH (f mx c0)) as [H1 H2]. destruct (Hstep mx c0) as [H3 H4].
    split; [lia|]. intros c' [<-|Hc'] Hi; [|auto]. specialize (H4 Hi). lia. }
  exact (proj2 (Hgen cs 0) c Hc eq_refl).
Qed.

Lemma columnStartX_sep : forall cs cc n i j, i < j ->
  columnStartX cs cc n i + mainColumnWidth + maxOffsetOf cs cc n i * subBranchOffset
  <= columnStartX cs cc n j.
Proof.
  intros cs cc n i j Hij. induction j as [|j IH]; [lia|].
  simpl. destruct (Nat.eq_dec i j) as [->|Hne]; [lia|].
  specialize (IH ltac:(lia)). lia.
Qed.

(** Node placement in a layout: exactly the loaded hashes get a node; two
    different hashes never share a [y]; and a node of a lower column lies at
    least [mainColumnWidth] (150) to the left of every node of a higher
    column, whatever the sub-branch offsets. *)
Theorem placement_geometry : forall cs branches selected lay,
  renderLayout cs branches selected = Some lay ->
  (forall h, (exists p, hget (positions lay) h = Some p) <-> In h (map chash cs)) /\
  (forall h1 h2 p1 p2, hget (positions lay) h1 = Some p1 -> hget (positions lay) h2 = Some p2 ->
     h1 <> h2 -> py p1 <> py p2) /\
  (forall h1 h2 p1 p2, hget (positions lay) h1 = Some p1 -> hget (positions lay) h2 = Some p2 ->
     pcol p1 < pcol p2 -> px p1 + mainColumnWidth <= px p2).
Proof.
  intros cs branches selected lay Hl.
  destruct (renderLayout_parts _ _ _ _ Hl) as [_ Hpos]. rewrite Hpos.
  set (cc := commitColumn lay). set (n := length (branchLineages lay)).
  split; [|split].
  - intros h. split.
    + intros [p Hp]. destruct (positionsOf_entry _ _ _ _ _ Hp) as [c [Hc [Hh _]]].
      subst h. apply in_map. exact Hc.
    + intros Hh. apply in_map_iff in Hh as [c [<- Hc]]. apply positionsOf_defined. exact Hc.
  - intros h1 h2 p1 p2 H1 H2 Hne Hy.
    destruct (positionsOf_entry _ _ _ _ _ H1) as [_ [_ [_ [_ [_ Hy1]]]]].
    destruct (positionsOf_entry _ _ _ _ _ H2) as [_ [_ [_ [_ [_ Hy2]]]]].
    destruct (positionsOf_row _ _ _ _ _ H1) as [c1 [Hr1 He1]].
    destruct (positionsOf_row _ _ _ _ _ H2) as [c2 [Hr2 He2]].
    assert (Hrow : prow p1 = prow p2)
      by (rewrite Hy1, Hy2 in Hy; unfold paddingTop, nodeSpacingY in Hy; lia).
    rewrite Hrow in Hr1. rewrite Hr1 in Hr2. inversion Hr2; subst. contradiction.
  - intros h1 h2 p1 p2 H1 H2 Hlt.
    destruct (positionsOf_entry _ _ _ _ _ H1) as [c1 [Hc1 [Hh1 [Hcol1 [Hx1 _]]]]].
    destruct (positionsOf_entry _ _ _ _ _ H2) as [c2 [Hc2 [Hh2 [Hcol2 [Hx2 _]]]]].
    rewrite Hcol1, Hcol2 in Hlt.
    pose proof (columnStartX_sep cs cc n _ _ Hlt) as Hsep.
    pose proof (maxOffsetOf_ge cs cc n c1 Hc1) as Hmax. rewrite Hh1 in Hmax.
    rewrite Hx1, Hx2. unfold subBranchOffset in *.
    assert (subOffset (colOf cc h1 n) * 30
            <= maxOffsetOf cs cc n (mainCol (colOf cc h1 n)) * 30)
      by (apply Nat.mul_le_mono_r; exact Hmax).
    lia.
Qed.

Lemma placement_geometry_witness :
  (exists p, hget (positions Inputs.crossMergeLayout) "m1" = Some p) /\
  (forall p1 p2, hget (positions Inputs.crossMergeLayout) "m2" = Some p1 ->
     hget (positions Inputs.crossMergeLayout) "d1" = Some p2 ->
     py p1 <> py p2 /\ px p1 + mainColumnWidth <= px p2).
Proof.
  destruct (placement_geometry Inputs.crossMerge Inputs.branchesMD1 ["main"; "dev"]
              Inputs.crossMergeLayout ltac:(vm_compute; reflexivity)) as [Hdom [Hy Hx]].
  split.
  - apply Hdom. simpl. auto.
  - intros p1 p2 H1 H2. split.
    + apply (Hy "m2" "d1"); [exact H1 | exact H2 | discriminate].
    + apply (Hx "m2" "d1"); [exact H1 | exact H2 |].
      vm_compute in H1, H2. inversion H1; inversion H2; subst. simpl. lia.
Defined.

(** ** Sub-branch ids *)

Lemma string_append_assoc : forall a b c : string,
  String.append (String.append a b) c = String.append a (String.append b c).
Proof. induction a as [|x a IH]; intros b c; simpl; [reflexivity | rewrite IH; reflexivity]. Qed.

Lemma digits_aux_acc : forall f n acc,
  digits_aux f n acc = String.append (digits_aux f n EmptyString) acc.
Proof.
  induction f as [|f IH]; intros n acc; cbn [digits_aux]; [reflexivity|].
  set (d := ascii_of_nat (48 + n mod 10)).
  destruct (Nat.ltb n 10); [reflexivity|].
  rewrite IH. rewrite (IH (n / 10) (String d EmptyString)).
  rewrite string_append_assoc. reflexivity.
Qed.

Lemma dec_value_append : forall s t acc,
  dec_value (String.append s t) acc = dec_value t (dec_value s acc).
Proof. induction s as [|a s IH]; intros t acc; cbn [String.append dec_value]; [reflexivity | apply IH]. Qed.

Lemma dec_value_digits : forall f n, n < 10 ^ f ->
  dec_value (digits_aux f n EmptyString) 0 = n.
Proof.
  induction f as [|f IH]; intros n Hn; cbn [digits_aux].
  - rewrite Nat.pow_0_r in Hn. cbn [dec_value]. lia.
  - rewrite Nat.pow_succ_r' in Hn.
    assert (Hd : nat_of_ascii (ascii_of_nat (48 + n mod 10)) = 48 + n mod 10).
    { apply nat_ascii_embedding. pose proof (Nat.mod_upper_bound n 10). lia. }
    set (d := ascii_of_nat (48 + n mod 10)) in *.
    destruct (Nat.ltb n 10) eqn:E.
    + apply Nat.ltb_lt in E. cbn [dec_value]. rewrite Hd. rewrite Nat.mod_small by lia. lia.
    + apply Nat.ltb_ge in E. rewrite digits_aux_acc, dec_value_append.
      rewrite IH by (apply Nat.Div0.div_lt_upper_bound; lia).
      cbn [dec_value]. rewrite Hd. pose proof (Nat.div_mod_eq n 10). lia.
Qed.

Lemma prefix_append_inj : forall p x y, String.append p x = String.append p y -> x = y.
Proof. induction p as [|a p IH]; intros x y H; [exact H|]. injection H as H. exact (IH _ _ H). Qed.

Lemma lt_pow10 : forall n, n < 10 ^ n.
Proof. intros n. apply Nat.pow_gt_lin_r. lia. Qed.

Lemma assign_offsets_snd : forall l u c, snd (assign_offsets l u c) = c + length l.
Proof.
  induction l as [|s r IH]; intros u c; cbn [assign_offsets]; [cbn [snd length]; lia|].
  match goal with |- context [assign_offsets r ?u' (S c)] =>
    specialize (IH u' (S c)); destruct (assign_offsets r u' (S c)) as [rest c'] end.
  cbn [snd length] in *. lia.
Qed.

Lemma assign_offsets_ids : forall l u c k e,
  nth_error (fst (assign_offsets l u c)) k = Some e -> snd e = subBranchIdOf (c + k).
Proof.
  induction l as [|s r IH]; intros u c k e H; [destruct k; discriminate|].
  rewrite assign_offsets_cons in H. destruct k as [|k]; cbn [nth_error] in H.
  - inversion H; subst. cbn [snd]. f_equal. lia.
  - rewrite (IH _ _ _ _ H). f_equal. lia.
Qed.

Lemma subBranchIdOf_inj : forall a b, subBranchIdOf a = subBranchIdOf b -> a = b.
Proof.
  intros a b H. unfold subBranchIdOf in H. apply prefix_append_inj in H.
  apply (f_equal (fun s => dec_value s 0)) in H.
  rewrite !dec_value_digits in H; [exact H | |].
  - eapply Nat.lt_le_trans; [apply lt_pow10 | apply Nat.pow_le_mono_r; lia].
  - eapply Nat.lt_le_trans; [apply lt_pow10 | apply Nat.pow_le_mono_r; lia].
Qed.

Lemma NoDup_map_inj : forall {A B} (f : A -> B) l,
  (forall a b, f a = f b -> a = b) -> NoDup l -> NoDup (map f l).
Proof.
  intros A B f l Hf Hl. induction Hl as [|x l Hx Hl IH]; simpl; constructor; [|exact IH].
  intros Hin. apply in_map_iff in Hin as [y [Hy Hyl]]. apply Hf in Hy. subst. contradiction.
Qed.

Lemma assign_offsets_id_seq : forall l u c,
  map snd (fst (assign_offsets l u c)) = map subBranchIdOf (seq c (length (fst (assign_offsets l u c)))).
Proof.
  induction l as [|s r IH]; intros u c; [reflexivity|].
  rewrite assign_offsets_cons. cbn [map length seq snd]. f_equal. apply IH.
Qed.

Lemma assign_offsets_length : forall l u c, length (fst (assign_offsets l u c)) = length l.
Proof.
  intros l u c. rewrite <- (assign_offsets_spans l u c) at 2. rewrite length_map. reflexivity.
Qed.

Lemma lineage_offsets_counter : forall cs subs c,
  snd (lineage_offsets cs subs c) = c + length (fst (lineage_offsets cs subs c)).
Proof.
  intros cs subs c. unfold lineage_offsets. rewrite assign_offsets_snd, assign_offsets_length. reflexivity.
Qed.

Lemma subBranchAssignments_ids : forall cs l c,
  map (fun a => snd (snd a)) (subBranchAssignments cs l c) =
  map subBranchIdOf (seq c (length (subBranchAssignments cs l c))).
Proof.
  intros cs. induction l as [|[i bl] l IH]; intros c; [reflexivity|]. cbn [subBranchAssignments].
  pose proof (lineage_offsets_counter cs (blsub bl) c) as Hc.
  pose proof (assign_offsets_id_seq (sort_desc (map (span_of cs) (blsub bl))) [] c) as Hids.
  fold (lineage_offsets cs (blsub bl) c) in Hids.
  destruct (lineage_offsets cs (blsub bl) c) as [assigned c'] eqn:Hlo. cbn [fst snd] in Hc, Hids.
  assert (Hm : map (fun a => snd (snd a)) (map (fun e => (i, e)) assigned) = map snd assigned)
    by (rewrite map_map; reflexivity).
  rewrite map_app, Hm, IH, length_app, length_map, seq_app, map_app.
  rewrite Hids, Hc. reflexivity.
Qed.

Lemma lineage_offsets_cover : forall cs subs c s,
  In s subs -> exists e, In e (fst (lineage_offsets cs subs c)) /\ sb (fst (fst e)) = s.
Proof.
  intros cs subs c s Hs. unfold lineage_offsets.
  assert (Hin : In (span_of cs s) (map (fun e => fst (fst e))
                  (fst (assign_offsets (sort_desc (map (span_of cs) subs)) [] c)))).
  { rewrite assign_offsets_spans. apply (Permutation_in _ (Permutation_sym (sort_desc_perm _))).
    apply in_map. exact Hs. }
  apply in_map_iff in Hin as [e [He Hin]]. exists e. split; [exact Hin|]. rewrite He. reflexivity.
Qed.

Lemma subBranchAssignments_cover : forall cs l j bl s c,
  In (j, bl) l -> In s (blsub bl) ->
  exists e, In (j, e) (subBranchAssignments cs l c) /\ sb (fst (fst e)) = s.
Proof.
  intros cs. induction l as [|[i b] l IH]; intros j bl s c Hin Hs; [contradiction|].
  cbn [subBranchAssignments].
  pose proof (lineage_offsets_cover cs (blsub b) c s) as Hcov.
  destruct (lineage_offsets cs (blsub b) c) as [assigned c'] eqn:Hlo. cbn [fst] in Hcov.
  destruct Hin as [Hin|Hin].
  - inversion Hin; subst i b. destruct (Hcov Hs) as [e [He Hse]].
    exists e. split; [|exact Hse]. apply in_or_app. left. apply in_map_iff. eauto.
  - destruct (IH j bl s c' Hin Hs) as [e [He Hse]].
    exists e. split; [|exact Hse]. apply in_or_app. right. exact He.
Qed.

Lemma assigned_fold_ids : forall (i : nat) (A : list (SBSpan * nat * string)) m h v,
  hget (fold_left (fun m1 '(s, off, id) =>
          fold_left (fun m2 h => hset m2 h (mkCol i off true (Some id)))
            (sbcommits (sb s)) m1) A m) h = Some v ->
  hget m h = Some v \/
  exists e, In e A /\ In h (sbcommits (sb (fst (fst e)))) /\
    v = mkCol i (snd (fst e)) true (Some (snd e)).
Proof.
  intros i. induction A as [|[[s off] id] A IH]; intros m h v Hv; simpl in Hv; [auto|].
  destruct (IH _ _ _ Hv) as [Hm|[e [He [Hh Hve]]]].
  - rewrite hget_fold_set in Hm. destruct (mem h (sbcommits (sb s))) eqn:E; [|auto].
    right. exists (s, off, id). apply mem_In in E. inversion Hm. simpl. auto.
  - right. exists e. simpl. auto.
Qed.

Lemma subBranchColumns_ids : forall cs l counter m h v id,
  hget (subBranchColumns cs l counter m) h = Some v -> subBranchId v = Some id ->
  hget m h = Some v \/
  exists i e, In (i, e) (subBranchAssignments cs l counter) /\ snd e = id /\
    In h (sbcommits (sb (fst (fst e)))) /\ v = mkCol i (snd (fst e)) true (Some id).
Proof.
  intros cs. induction l as [|[i bl] l IH]; intros counter m h v id Hv Hid; [auto|].
  cbn [subBranchColumns subBranchAssignments] in *.
  destruct (lineage_offsets cs (blsub bl) counter) as [assigned c'] eqn:Hlo.
  destruct (IH _ _ _ _ _ Hv Hid) as [Hm|[k [e [He Hrest]]]].
  - destruct (assigned_fold_ids i assigned m h v Hm) as [H0|[e [He [Hh Hve]]]]; [auto|].
    right. exists i, e. subst v. cbn [subBranchId] in Hid. inversion Hid; subst id.
    split; [apply in_or_app; left; apply in_map_iff; eauto|]. auto.
  - right. exists k, e. split; [apply in_or_app; right; exact He | exact Hrest].
Qed.

Lemma base_columns_no_id : forall cs bls h v,
  hget (mainlineColumns bls (defaultColumns cs (length bls))) h = Some v -> subBranchId v = None.
Proof.
  intros cs bls. unfold mainlineColumns.
  assert (Hgen : forall l m, (forall h v, hget m h = Some v -> subBranchId v = None) ->
     forall h v, hget (fold_left (fun m '(i, bl) =>
        fold_left (fun m' h => hset m' h (mkCol i 0 false None)) (bllineage bl) m) l m) h = Some v ->
     subBranchId v = None).
  { induction l as [|[i bl] l IH]; intros m Hm; simpl; [exact Hm|]. apply IH.
    intros h v Hv. rewrite hget_fold_set in Hv.
    destruct (mem h (bllineage bl)); [inversion Hv; reflexivity | eauto]. }
  apply Hgen. intros h v Hv. rewrite defaultColumns_get in Hv.
  destruct (existsb _ _); inversion Hv; reflexivity.
Qed.

(** Sub-branch ids: [sb-] followed by the decimal counter, a rendering that
    is injective. In every layout the sub-branches of all lineages, taken
    in the order [renderGraph] handles them, receive the ids [sb-0],
    [sb-1], ... in turn, so the ids are pairwise distinct across lineages;
    every sub-branch of every lineage receives one; and a hash whose
    [commitColumn] entry carries an id is a member of the sub-branch given
    that id, and its entry is the one assigned to that sub-branch. *)
Theorem sub_branch_ids_distinct :
  (forall a b, subBranchIdOf a = subBranchIdOf b -> a = b) /\
  (forall cs branches selected lay,
   renderLayout cs branches selected = Some lay ->
   let A := subBranchAssignments cs (indexed (branchLineages lay)) 0 in
   map (fun a => snd (snd a)) A = map subBranchIdOf (seq 0 (length A)) /\
   NoDup (map (fun a => snd (snd a)) A) /\
   (forall j bl s, nth_error (branchLineages lay) j = Some bl -> In s (blsub bl) ->
      exists e, In (j, e) A /\ sb (fst (fst e)) = s) /\
   (forall h v id, hget (commitColumn lay) h = Some v -> subBranchId v = Some id ->
      exists i e, In (i, e) A /\ snd e = id /\ In h (sbcommits (sb (fst (fst e)))) /\
        v = mkCol i (snd (fst e)) true (Some id))).
Proof.
  split; [exact subBranchIdOf_inj|].
  intros cs branches selected lay Hl. cbv zeta.
  destruct (renderLayout_parts _ _ _ _ Hl) as [Hcc _].
  split; [apply subBranchAssignments_ids|]. split.
  - rewrite subBranchAssignments_ids. apply NoDup_map_inj; [exact subBranchIdOf_inj | apply seq_NoDup].
  - split.
    + intros j bl s Hj Hs. exact (subBranchAssignments_cover cs _ j bl s 0 (In_indexed_of _ _ _ Hj) Hs).
    + intros h v id Hv Hid. rewrite Hcc in Hv. unfold commitColumnOf in Hv.
      destruct (subBranchColumns_ids _ _ _ _ _ _ _ Hv Hid) as [Hb|Hx]; [|exact Hx].
      rewrite (base_columns_no_id _ _ _ _ Hb) in Hid. discriminate.
Qed.

(** Two lineages, each with the sub-branch [{f1}]: ids [sb-0] and [sb-1]. *)
Lemma sub_branch_ids_distinct_witness :
  map (fun a => snd (snd a))
      (subBranchAssignments Inputs.unmerged (indexed (branchLineages Inputs.unmergedLayout)) 0)
    = [subBranchIdOf 0; subBranchIdOf 1] /\
  NoDup (map (fun a => snd (snd a))
      (subBranchAssignments Inputs.unmerged (indexed (branchLineages Inputs.unmergedLayout)) 0)).
Proof.
  destruct (proj2 sub_branch_ids_distinct Inputs.unmerged Inputs.branchesMD ["main"; "dev"]
              Inputs.unmergedLayout ltac:(vm_compute; reflexivity)) as [Hseq [Hnd _]].
  split; [|exact Hnd]. rewrite Hseq. vm_compute. reflexivity.
Defined.

(** ** Text round trips: [trim], [split], [join] *)

Lemma list_append : forall s t,
  list_ascii_of_string (String.append s t) = (list_ascii_of_string s ++ list_ascii_of_string t)%list.
Proof. induction s as [|a s IH]; intros t; simpl; [reflexivity | now rewrite IH]. Qed.

Lemma list_rev_string : forall s acc,
  list_ascii_of_string (rev_string s acc) = (rev (list_ascii_of_string s) ++ list_ascii_of_string acc)%list.
Proof.
  induction s as [|a s IH]; intros acc; simpl; [reflexivity|].
  rewrite IH. simpl. rewrite <- app_assoc. reflexivity.
Qed.

Lemma list_trim_start : forall s, list_ascii_of_string (trim_start s) = lts (list_ascii_of_string s).
Proof. induction s as [|a s IH]; simpl; [reflexivity|]. destruct (is_ws a); [exact IH | reflexivity]. Qed.

Lemma list_trim : forall s,
  list_ascii_of_string (trim s) = rev (lts (rev (lts (list_ascii_of_string s)))).
Proof.
  intros s. unfold trim. rewrite list_rev_string, list_trim_start, list_rev_string,
    list_trim_start. simpl. rewrite !app_nil_r. reflexivity.
Qed.

Lemma string_list_inj : forall s t, list_ascii_of_string s = list_ascii_of_string t -> s = t.
Proof.
  induction s as [|a s IH]; intros [|b t] H; simpl in H; try discriminate; [reflexivity|].
  injection H as -> H. now rewrite (IH t H).
Qed.

Lemma lts_keep : forall a m, is_ws a = false -> lts (a :: m) = a :: m.
Proof. intros a m H. simpl. now rewrite H. Qed.

Lemma trim_clean : forall s, first_clean s -> last_clean s -> trim s = s.
Proof.
  intros s (a & m & Hl & Ha) (b & k & Hr & Hb). apply string_list_inj. rewrite list_trim, Hl.
  rewrite lts_keep by exact Ha. rewrite <- Hl, Hr. rewrite lts_keep by exact Hb.
  rewrite <- Hr. apply rev_involutive.
Qed.

Lemma trim_clean_nl : forall s, first_clean s -> last_clean s ->
  trim (String.append s (String newline EmptyString)) = s.
Proof.
  intros s (a & m & Hl & Ha) (b & k & Hr & Hb). apply string_list_inj. rewrite list_trim, list_append.
  set (L := list_ascii_of_string s) in *. cbn [list_ascii_of_string].
  assert (H1 : lts (L ++ [newline])%list = (L ++ [newline])%list).
  { rewrite Hl. cbn [app]. apply lts_keep. exact Ha. }
  rewrite H1, rev_unit. cbn [lts]. replace (is_ws newline) with true by reflexivity.
  rewrite Hr, lts_keep by exact Hb. rewrite <- Hr. apply rev_involutive.
Qed.

Lemma split_on_nonempty : forall sep s, split_on sep s <> [].
Proof.
  intros sep [|a s]; simpl; [discriminate|].
  destruct (Ascii.eqb a sep); [discriminate|]. destruct (split_on sep s); discriminate.
Qed.

Lemma split_on_app : forall sep x r, no_char sep x ->
  split_on sep (String.append x (String sep r)) = x :: split_on sep r.
Proof.
  intros sep x r. induction x as [|c x IH]; intros Hx; simpl.
  - rewrite Ascii.eqb_refl. reflexivity.
  - destruct (Ascii.eqb_spec c sep) as [->|Hc]; [exfalso; apply Hx; left; reflexivity|].
    rewrite IH by (intros Hin; apply Hx; right; exact Hin). reflexivity.
Qed.

Lemma split_on_none : forall sep x, no_char sep x -> split_on sep x = [x].
Proof.
  intros sep x. induction x as [|c x IH]; intros Hx; simpl; [reflexivity|].
  destruct (Ascii.eqb_spec c sep) as [->|Hc]; [exfalso; apply Hx; left; reflexivity|].
  rewrite IH by (intros Hin; apply Hx; right; exact Hin). reflexivity.
Qed.

Lemma join_on_cons : forall sep x y r,
  join_on sep (x :: y :: r) = String.append x (String sep (join_on sep (y :: r))).
Proof. reflexivity. Qed.

Lemma split_join : forall sep ls, ls <> [] -> Forall (no_char sep) ls ->
  split_on sep (join_on sep ls) = ls.
Proof.
  intros sep ls. induction ls as [|x [|y r] IH]; intros Hne Hf; [congruence| |].
  - inversion Hf; subst. apply split_on_none. assumption.
  - inversion Hf; subst. rewrite join_on_cons, split_on_app by assumption.
    rewrite IH by (discriminate || assumption). reflexivity.
Qed.

Lemma join_split : forall sep s, join_on sep (split_on sep s) = s.
Proof.
  intros sep s. induction s as [|a s IH]; simpl; [reflexivity|].
  pose proof (split_on_nonempty sep s) as Hne.
  destruct (Ascii.eqb_spec a sep) as [->|Ha].
  - destruct (split_on sep s) as [|y r] eqn:E; [congruence|].
    rewrite join_on_cons. cbn [String.append]. rewrite IH. reflexivity.
  - destruct (split_on sep s) as [|y [|z r]] eqn:E; [congruence| |].
    + simpl in IH |- *. now rewrite IH.
    + rewrite join_on_cons in IH |- *. rewrite <- IH. reflexivity.
Qed.

(** ** Decimal numerals and [parseInt] *)

Lemma append_empty_r : forall s, String.append s EmptyString = s.
Proof. induction s as [|a s IH]; simpl; [reflexivity | now rewrite IH]. Qed.

Lemma digit_of_char : forall k, k < 10 -> digit_of (ascii_of_nat (48 + k)%nat) = Some k.
Proof.
  intros k Hk. unfold digit_of. rewrite nat_ascii_embedding by lia.
  destruct (Nat.leb_spec 48 (48 + k)%nat); destruct (Nat.leb_spec (48 + k)%nat 57); try lia.
  cbn [andb]. f_equal. lia.
Qed.

Lemma digits_aux_chars : forall f n acc a,
  In a (list_ascii_of_string (digits_aux f n acc)) ->
  In a (list_ascii_of_string acc) \/ exists d, digit_of a = Some d.
Proof.
  induction f as [|f IH]; intros n acc a H; cbn [digits_aux] in H; [left; exact H|].
  assert (Hd : digit_of (ascii_of_nat (48 + n mod 10)%nat) = Some (n mod 10))
    by (apply digit_of_char, Nat.mod_upper_bound; lia).
  set (d := ascii_of_nat (48 + n mod 10)%nat) in *.
  destruct (Nat.ltb n 10).
  - destruct H as [<-|H]; [right; eauto | left; exact H].
  - destruct (IH _ _ _ H) as [[<-|H']|H']; [right; eauto | left; exact H' | right; exact H'].
Qed.

Lemma digits_prefix_digits : forall f n t z len, n < 10 ^ f ->
  exists k, digits_prefix (String.append (digits_aux f n EmptyString) t) z len =
            digits_prefix t (z * 10 ^ Z.of_nat k + Z.of_nat n)%Z (len + k) /\ (0 < f -> 0 < k).
Proof.
  induction f as [|f IH]; intros n t z len Hn.
  - rewrite Nat.pow_0_r in Hn. assert (n = 0) as -> by lia. exists 0. cbn [digits_aux String.append].
    split; [|lia]. f_equal; [lia|]. rewrite Nat.add_0_r. reflexivity.
  - rewrite Nat.pow_succ_r' in Hn. cbn [digits_aux].
    assert (Hd : digit_of (ascii_of_nat (48 + n mod 10)%nat) = Some (n mod 10))
      by (apply digit_of_char, Nat.mod_upper_bound; lia).
    set (d := ascii_of_nat (48 + n mod 10)%nat) in *.
    destruct (Nat.ltb n 10) eqn:E.
    + apply Nat.ltb_lt in E. exists 1. split; [|lia]. cbn [String.append digits_prefix].
      rewrite Hd, Nat.mod_small by exact E. change (10 ^ Z.of_nat 1)%Z with 10%Z.
      f_equal; lia.
    + apply Nat.ltb_ge in E. rewrite digits_aux_acc, string_append_assoc.
      cbn [String.append].
      destruct (IH (n / 10) (String d t) z len) as [k [Hk _]];
        [apply Nat.Div0.div_lt_upper_bound; lia|].
      rewrite Hk. exists (S k). split; [|lia]. cbn [digits_prefix]. rewrite Hd.
      assert (Hn' : Z.of_nat n = (10 * Z.of_nat (n / 10) + Z.of_nat (n mod 10))%Z)
        by (pose proof (Nat.div_mod_eq n 10); lia).
      f_equal; [|lia]. rewrite Hn', Nat2Z.inj_succ, Z.pow_succ_r by lia. ring.
Qed.

Lemma parseInt10_digit_start : forall a r d, digit_of a = Some d ->
  parseInt10 (String a r) =
  (let '(v, len) := digits_prefix (String a r) 0%Z 0 in
   if Nat.eqb len 0 then None else Some (inject_Z v)).
Proof.
  intros a r d H. unfold parseInt10.
  destruct a as [[] [] [] [] [] [] [] []]; cbv in H; try discriminate H;
    cbn [trim_start]; match goal with |- context [is_ws ?c] => change (is_ws c) with false end;
    cbv iota beta; destruct (digits_prefix _ _ _) as [v len]; rewrite Z.mul_1_l; reflexivity.
Qed.

Lemma parseInt10_decimal : forall n, parseInt10 (decimal n) = Some (inject_Z (Z.of_nat n)).
Proof.
  intros n.
  destruct (digits_prefix_digits (S n) n EmptyString 0%Z 0) as [k [Hk Hk0]].
  - eapply Nat.lt_le_trans; [apply lt_pow10 | apply Nat.pow_le_mono_r; lia].
  - rewrite append_empty_r in Hk. cbn [digits_prefix] in Hk. fold (decimal n) in Hk.
    specialize (Hk0 ltac:(lia)).
    destruct (decimal n) as [|a r] eqn:E; [cbn in Hk; injection Hk as _ Hk; lia|].
    destruct (digits_aux_chars (S n) n EmptyString a) as [[]|[d Hd]];
      [fold (decimal n); rewrite E; left; reflexivity|].
    rewrite (parseInt10_digit_start a r d Hd), Hk.
    destruct (Nat.eqb_spec (0 + k) 0); [lia|]. do 2 f_equal; lia.
Qed.

(** ** Lines of [git] output *)

Lemma first_clean_app : forall x t, first_clean x -> first_clean (String.append x t).
Proof.
  intros x t (a & m & Hl & Ha). exists a, (m ++ list_ascii_of_string t)%list.
  rewrite list_append, Hl. split; [reflexivity | exact Ha].
Qed.

Lemma last_clean_app : forall p y, last_clean y -> last_clean (String.append p y).
Proof.
  intros p y (b & k & Hr & Hb). exists b, (k ++ rev (list_ascii_of_string p))%list.
  rewrite list_append, rev_app_distr, Hr. split; [reflexivity | exact Hb].
Qed.

Lemma word_first_clean : forall s, word s -> first_clean s.
Proof.
  intros [|a s] [Hne Hw]; [congruence|]. exists a, (list_ascii_of_string s).
  split; [reflexivity | apply Hw; left; reflexivity].
Qed.

Lemma word_last_clean : forall s, word s -> last_clean s.
Proof.
  intros s [Hne Hw]. destruct (rev (list_ascii_of_string s)) as [|b k] eqn:E.
  - destruct s; [congruence|]. simpl in E. destruct (rev (list_ascii_of_string s)); discriminate.
  - exists b, k. split; [exact E|]. apply Hw.
    assert (Hb : In b (rev (list_ascii_of_string s))) by (rewrite E; left; reflexivity).
    rewrite <- in_rev in Hb. exact Hb.
Qed.

Lemma word_no_ws : forall c s, is_ws c = true -> word s -> no_char c s.
Proof. intros c s Hc [_ Hw] Hin. rewrite (Hw c Hin) in Hc. discriminate. Qed.

Lemma no_char_app : forall c x y, no_char c x -> no_char c y -> no_char c (String.append x y).
Proof.
  intros c x y Hx Hy Hin. unfold no_char in *. rewrite list_append in Hin.
  apply in_app_or in Hin. tauto.
Qed.

Lemma no_char_cons : forall c a y, a <> c -> no_char c y -> no_char c (String a y).
Proof. intros c a y Ha Hy [H|H]; [congruence | exact (Hy H)]. Qed.

Lemma no_char_join : forall c sep ls, sep <> c -> Forall (no_char c) ls -> no_char c (join_on sep ls).
Proof.
  intros c sep ls Hs. induction ls as [|x [|y r] IH]; intros Hf.
  - intros [].
  - inversion Hf; assumption.
  - inversion Hf; subst. rewrite join_on_cons.
    apply no_char_app; [assumption|]. apply no_char_cons; [assumption|]. apply IH. assumption.
Qed.

Lemma join_on_first : forall sep x r, exists t, join_on sep (x :: r) = String.append x t.
Proof.
  intros sep x [|y r]; [exists EmptyString; symmetry; apply append_empty_r|].
  eexists. rewrite join_on_cons. reflexivity.
Qed.

Lemma join_on_last : forall sep ls d, ls <> [] -> exists p, join_on sep ls = String.append p (last ls d).
Proof.
  intros sep ls d. induction ls as [|x [|y r] IH]; intros Hne; [congruence| |].
  - exists EmptyString. reflexivity.
  - destruct IH as [p Hp]; [discriminate|]. exists (String.append x (String sep p)).
    rewrite join_on_cons, Hp, string_append_assoc. reflexivity.
Qed.


Lemma lines_output_join : forall ls, ls <> [] ->
  lines_output ls = String.append (join_on newline ls) (String newline EmptyString).
Proof.
  induction ls as [|x [|y r] IH]; intros Hne; [congruence | reflexivity|].
  change (lines_output (x :: y :: r)) with (String.append x (String newline (lines_output (y :: r)))).
  rewrite IH by discriminate. rewrite join_on_cons, string_append_assoc. reflexivity.
Qed.

(** The lines of a feed of lines come back from [feed_lines] when none holds
    a newline, the first starts and the last ends with a character that is
    not white space. *)
Lemma feed_lines_output : forall ls, ls <> [] -> Forall (no_char newline) ls ->
  first_clean (hd EmptyString ls) -> last_clean (last ls EmptyString) ->
  feed_lines (lines_output ls) = ls.
Proof.
  intros ls Hne Hf Hfirst Hlast. unfold feed_lines. rewrite lines_output_join by exact Hne.
  rewrite trim_clean_nl.
  - apply split_join; assumption.
  - destruct ls as [|x r]; [congruence|]. destruct (join_on_first newline x r) as [t ->].
    apply first_clean_app. exact Hfirst.
  - destruct (join_on_last newline ls EmptyString Hne) as [p ->]. apply last_clean_app. exact Hlast.
Qed.

Lemma ws_space : is_ws space = true.
Proof. reflexivity. Qed.

Lemma ws_newline : is_ws newline = true.
Proof. reflexivity. Qed.

Lemma parse_branch_line_ok : forall b, word (bname b) -> word (bhash b) ->
  parse_branch_line (branch_line b) = [b].
Proof.
  intros [n h] Hn Hh. cbn [bname bhash] in *. unfold parse_branch_line, branch_line. cbn [bname bhash].
  rewrite trim_clean.
  - rewrite split_on_app by (apply word_no_ws; [apply ws_space | exact Hn]).
    rewrite split_on_none by (apply word_no_ws; [apply ws_space | exact Hh]). reflexivity.
  - apply first_clean_app, word_first_clean, Hn.
  - change (String space h) with (String.append (String space EmptyString) h).
    rewrite <- string_append_assoc. apply last_clean_app, word_last_clean, Hh.
Qed.

Lemma map_last : forall {A B} (f : A -> B) l d, last (map f l) (f d) = f (last l d).
Proof. intros A B f l d. induction l as [|x [|y r] IH]; [reflexivity | reflexivity | exact IH]. Qed.

Lemma last_indep : forall {A} (l : list A) d d', l <> [] -> last l d = last l d'.
Proof. intros A l d d'. induction l as [|x [|y r] IH]; intros H; [congruence | reflexivity | apply IH; discriminate]. Qed.

Lemma last_in : forall {A} (l : list A) d, l <> [] -> In (last l d) l.
Proof.
  intros A l d. induction l as [|x [|y r] IH]; intros H; [congruence | left; reflexivity |].
  right. apply IH. discriminate.
Qed.

Lemma last_map_in : forall {A} (f : A -> string) l, l <> [] ->
  exists x, In x l /\ last (map f l) EmptyString = f x.
Proof.
  intros A f [|x0 r] H; [congruence|]. exists (last (x0 :: r) x0). split; [apply last_in; discriminate|].
  rewrite (last_indep _ _ (f x0)) by discriminate. apply map_last.
Qed.

(** [fetchBranches] reads back the branch list [git branch] prints, in
    order, provided names and hashes are words (no white space): each line
    [name hash] gives back its branch. *)
Theorem fetchBranches_round_trip : forall bs,
  Forall (fun b => word (bname b) /\ word (bhash b)) bs ->
  fetchBranches (ExecOk (lines_output (map branch_line bs))) = bs.
Proof.
  intros bs Hbs. destruct bs as [|b0 r] eqn:Ebs; [reflexivity|]. rewrite <- Ebs in *.
  assert (Hne : bs <> []) by (rewrite Ebs; discriminate).
  unfold fetchBranches. rewrite feed_lines_output.
  - clear Ebs Hne. induction Hbs as [|b bs [Hn Hh] _ IH]; [reflexivity|].
    cbn [map flat_map]. rewrite parse_branch_line_ok by assumption. cbn [app]. f_equal. exact IH.
  - destruct bs; [congruence | discriminate].
  - apply Forall_map. eapply Forall_impl; [|exact Hbs]. intros b [Hn Hh].
    apply no_char_app; [apply word_no_ws; [apply ws_newline | exact Hn]|].
    apply no_char_cons; [discriminate|]. apply word_no_ws; [apply ws_newline | exact Hh].
  - rewrite Ebs. cbn [map hd]. apply first_clean_app, word_first_clean.
    rewrite Ebs in Hbs. inversion Hbs. tauto.
  - destruct (last_map_in branch_line bs Hne) as [b [Hb ->]].
    rewrite Forall_forall in Hbs. destruct (Hbs b Hb) as [_ Hh]. unfold branch_line.
    change (String space (bhash b)) with (String.append (String space EmptyString) (bhash b)).
    apply last_clean_app, last_clean_app, word_last_clean, Hh.
Qed.

Lemma no_char_digits : forall c f n acc, digit_of c = None -> no_char c acc ->
  no_char c (digits_aux f n acc).
Proof.
  intros c f n acc Hc Hacc Hin. destruct (digits_aux_chars f n acc c Hin) as [H|[d Hd]];
    [exact (Hacc H) | congruence].
Qed.

Lemma words_join_clean : forall ps, ps <> [] -> Forall (fun p => word p /\ no_char pipe p) ps ->
  first_clean (join_on space ps) /\ last_clean (join_on space ps).
Proof.
  intros [|p0 r] Hne Hps; [congruence|]. split.
  - destruct (join_on_first space p0 r) as [t ->]. apply first_clean_app, word_first_clean.
    inversion Hps as [|? ? [Hw _] _]. exact Hw.
  - destruct (join_on_last space (p0 :: r) EmptyString Hne) as [q ->]. apply last_clean_app.
    destruct (last_map_in (fun x => x) (p0 :: r) Hne) as [x [Hx Hl]]. rewrite map_id in Hl.
    rewrite Hl. rewrite Forall_forall in Hps. apply word_last_clean, (Hps x Hx).
Qed.

Lemma parse_line_log : forall e, entry_ok e -> parse_line (log_line e) = [log_commit e].
Proof.
  intros [h ps ct subj] (Hh & Hhp & Hps & Hs). cbn [le_hash le_parents le_ct le_subject] in *.
  unfold parse_line, log_line, log_commit. cbn [le_hash le_parents le_ct le_subject].
  assert (Hpp : no_char pipe (join_on space ps)).
  { apply no_char_join; [discriminate|]. eapply Forall_impl; [|exact Hps]. intros p [_ Hp]. exact Hp. }
  assert (Hdp : no_char pipe (decimal ct)) by (apply no_char_digits; [reflexivity | intros []]).
  rewrite split_on_app by exact Hhp. rewrite split_on_app by exact Hpp.
  rewrite split_on_app by exact Hdp.
  pose proof (split_on_nonempty pipe subj) as Hne.
  destruct (split_on pipe subj) as [|y ys] eqn:Esub; [congruence|].
  cbn [length nth skipn]. replace (Nat.leb 4 (S (S (S (S (length ys)))))) with true
    by (symmetry; apply Nat.leb_le; lia).
  rewrite <- Esub, join_split, parseInt10_decimal. f_equal. f_equal.
  destruct ps as [|p0 r]; [reflexivity|].
  destruct (words_join_clean (p0 :: r) ltac:(discriminate) Hps) as [Hf Hl].
  rewrite trim_clean by assumption.
  replace (String.eqb (join_on space (p0 :: r)) EmptyString) with false.
  - apply split_join; [discriminate|]. eapply Forall_impl; [|exact Hps].
    intros p [Hp _]. apply word_no_ws; [apply ws_space | exact Hp].
  - destruct Hf as (a & m & Hl' & _). destruct (join_on space (p0 :: r)); [discriminate | reflexivity].
Qed.

Lemma StronglySorted_app_rel : forall {A} (R : A -> A -> Prop) l1 l2,
  StronglySorted R (l1 ++ l2) -> forall y x, In y l1 -> In x l2 -> R y x.
Proof.
  intros A R l1 l2. induction l1 as [|a l1 IH]; intros H y x Hy Hx; [destruct Hy|].
  apply StronglySorted_inv in H as [H Ha]. destruct Hy as [<-|Hy].
  - rewrite Forall_forall in Ha. apply Ha, in_or_app. right. exact Hx.
  - exact (IH H y x Hy Hx).
Qed.

Lemma insert_commit_last : forall x l, (forall y, In y l -> ts_ge y x) ->
  insert_commit x l = (l ++ [x])%list.
Proof.
  intros x l. induction l as [|y r IH]; intros H; [reflexivity|]. cbn [insert_commit].
  assert (Hyx := H y (or_introl eq_refl)). unfold ts_ge, ts_before in *.
  destruct (timestamp y) as [a|], (timestamp x) as [b|]; try contradiction.
  - replace (Qle_bool b a) with true by (symmetry; apply Qle_bool_iff; exact Hyx).
    cbn [negb]. rewrite IH by (intros z Hz; apply H; right; exact Hz). reflexivity.
Qed.

Lemma sort_commits_sorted_id : forall l, StronglySorted ts_ge l -> sort_commits l = l.
Proof.
  intros l Hl. unfold sort_commits.
  assert (Hgen : forall l acc, StronglySorted ts_ge (acc ++ l)%list ->
            fold_left (fun acc x => insert_commit x acc) l acc = (acc ++ l)%list).
  { clear. induction l as [|x l IH]; intros acc H; [rewrite app_nil_r; reflexivity|].
    cbn [fold_left]. rewrite insert_commit_last.
    - rewrite IH; rewrite <- app_assoc; [reflexivity | exact H].
    - intros y Hy. apply (StronglySorted_app_rel _ acc (x :: l) H y x Hy). left. reflexivity. }
  exact (Hgen l [] Hl).
Qed.

Lemma last_clean_cons : forall a y, last_clean y -> last_clean (String a y).
Proof.
  intros a y (b & k & Hr & Hb). exists b, (k ++ [a])%list. cbn [list_ascii_of_string rev].
  rewrite Hr. split; [reflexivity | exact Hb].
Qed.

Lemma log_line_last_clean : forall e, ends_ws (le_subject e) = false -> last_clean (log_line e).
Proof.
  intros e Hs. unfold log_line.
  apply last_clean_app, last_clean_cons, last_clean_app, last_clean_cons, last_clean_app.
  unfold ends_ws in Hs. destruct (rev (list_ascii_of_string (le_subject e))) as [|b k] eqn:E.
  - exists pipe, []. cbn [list_ascii_of_string rev]. rewrite E. split; reflexivity.
  - exists b, (k ++ [pipe])%list. cbn [list_ascii_of_string rev]. rewrite E. split; [reflexivity | exact Hs].
Qed.

Lemma log_line_no_newline : forall e, entry_ok e -> no_char newline (log_line e).
Proof.
  intros e (Hh & _ & Hps & Hs). unfold log_line.
  apply no_char_app; [apply word_no_ws; [apply ws_newline | exact Hh]|].
  apply no_char_cons; [discriminate|]. apply no_char_app.
  - apply no_char_join; [discriminate|]. eapply Forall_impl; [|exact Hps].
    intros p [Hp _]. apply word_no_ws; [apply ws_newline | exact Hp].
  - apply no_char_cons; [discriminate|]. apply no_char_app.
    + apply no_char_digits; [reflexivity | intros []].
    + apply no_char_cons; [discriminate | exact Hs].
Qed.

Lemma log_commits_sorted : forall es,
  StronglySorted (fun a b => le_ct b <= le_ct a) es -> StronglySorted ts_ge (map log_commit es).
Proof.
  induction es as [|e es IH]; intros H; cbn [map]; [constructor|].
  apply StronglySorted_inv in H as [H He]. constructor; [exact (IH H)|].
  apply Forall_map. eapply Forall_impl; [|exact He]. intros e' Hle.
  unfold ts_ge, log_commit. cbn [timestamp]. rewrite <- Zle_Qle. cbv beta in Hle. lia.
Qed.

(** [fetchCommits] reads back the commits [git log] printed, whatever
    [|] their subjects contain: when hashes and parents are words without
    [|] and subjects are one line each, the last one not ending in white
    space, and timestamps are at most 2^53 (below which [parseInt] reads a
    decimal exactly; [parseInt10] is exact everywhere), the result is the
    stable sort of the printed commits by
    timestamp, and the printed list itself when it was already sorted by
    committer time, newest first. *)
Theorem fetchCommits_round_trip : forall es,
  Forall entry_ok es ->
  Forall (fun e => (Z.of_nat (le_ct e) <= 2 ^ 53)%Z) es ->
  (forall pre e, es = (pre ++ [e])%list -> ends_ws (le_subject e) = false) ->
  fetchCommits (ExecOk (lines_output (map log_line es))) = sort_commits (map log_commit es) /\
  (StronglySorted (fun a b => le_ct b <= le_ct a) es ->
   fetchCommits (ExecOk (lines_output (map log_line es))) = map log_commit es).
Proof.
  intros es Hes _ Hlast.
  assert (Hparse : fetchCommits (ExecOk (lines_output (map log_line es))) = sort_commits (map log_commit es)).
  { destruct es as [|e0 r] eqn:Ees; [reflexivity|]. rewrite <- Ees in *.
    assert (Hne : es <> []) by (rewrite Ees; discriminate).
    unfold fetchCommits. rewrite feed_lines_output.
    - f_equal. clear Ees Hne Hlast. induction Hes as [|e es He _ IH]; [reflexivity|].
      cbn [map flat_map]. rewrite parse_line_log by exact He. cbn [app]. f_equal. exact IH.
    - destruct es; [congruence | discriminate].
    - apply Forall_map. eapply Forall_impl; [|exact Hes]. exact log_line_no_newline.
    - rewrite Ees. cbn [map hd]. unfold log_line. apply first_clean_app, word_first_clean.
      rewrite Ees in Hes. inversion Hes as [|? ? (Hh & _) _]. exact Hh.
    - destruct (exists_last Hne) as (pre & e & He). rewrite He, map_app. cbn [map].
      rewrite last_last. apply log_line_last_clean, (Hlast pre e He). }
  split; [exact Hparse|]. intros Hs. rewrite Hparse. apply sort_commits_sorted_id, log_commits_sorted, Hs.
Qed.

Lemma fetchBranches_round_trip_witness :
  Forall (fun b => word (bname b) /\ word (bhash b)) Inputs.branchFeed /\
  fetchBranches (ExecOk (lines_output (map branch_line Inputs.branchFeed))) = Inputs.branchFeed.
Proof.
  assert (H : Forall (fun b => word (bname b) /\ word (bhash b)) Inputs.branchFeed).
  { repeat (apply Forall_cons; [split; solve_word|]). apply Forall_nil. }
  split; [exact H | apply (fetchBranches_round_trip Inputs.branchFeed H)].
Defined.

Lemma fetchCommits_round_trip_witness :
  Forall entry_ok Inputs.logFeed /\
  fetchCommits (ExecOk (lines_output (map log_line Inputs.logFeed))) = map log_commit Inputs.logFeed.
Proof.
  assert (H : Forall entry_ok Inputs.logFeed).
  { repeat (apply Forall_cons; [split; [solve_word | split; [solve_no_char | split;
      [repeat (apply Forall_cons; [split; [solve_word | solve_no_char]|]); apply Forall_nil
      | solve_no_char]]]|]).
    apply Forall_nil. }
  split; [exact H|].
  refine (proj2 (fetchCommits_round_trip Inputs.logFeed H _ _) _).
  - repeat constructor; vm_compute; discriminate.
  - intros pre e He. destruct pre as [|x [|y pre]]; cbn in He; inversion He; [reflexivity|].
    destruct pre; discriminate.
  - repeat constructor; cbn; lia.
Defined.

(** ** [fetchRepoName] *)

Lemma split_on_app_suffix : forall sep pre r, exists xs, xs <> [] /\
  split_on sep (String.append pre (String sep r)) = (xs ++ split_on sep r)%list.
Proof.
  intros sep pre r. induction pre as [|c pre IH].
  - exists [EmptyString]. split; [discriminate|]. cbn. rewrite Ascii.eqb_refl. reflexivity.
  - destruct IH as [xs [Hne Hxs]]. cbn [String.append split_on]. rewrite Hxs.
    destruct (Ascii.eqb c sep).
    + exists (EmptyString :: xs). split; [discriminate | reflexivity].
    + destruct xs as [|x xs]; [congruence|]. exists (String c x :: xs). split; [discriminate | reflexivity].
Qed.

Lemma last_app_nonempty : forall {A} (l1 l2 : list A) d, l2 <> [] -> last (l1 ++ l2) d = last l2 d.
Proof.
  intros A l1 l2 d H. induction l1 as [|x l1 IH]; [reflexivity|].
  cbn [app]. rewrite <- IH. destruct (l1 ++ l2)%list eqn:E; [|reflexivity].
  apply app_eq_nil in E. destruct E; congruence.
Qed.

(** [fetchRepoName] shows the last segment of the top-level path [git]
    prints: the part after the last [/] when it is nonempty (or the whole
    path when it has no [/]), and the whole path when it ends in [/]. *)
Theorem fetchRepoName_last_segment : forall output pre name,
  (trim output = String.append pre (String slash name) \/ trim output = name) ->
  no_char slash name ->
  fetchRepoName (ExecOk output) = if String.eqb name EmptyString then trim output else name.
Proof.
  intros output pre name Hpath Hname. unfold fetchRepoName.
  assert (Hl : last (split_on slash (trim output)) EmptyString = name).
  { destruct Hpath as [Hp|Hp]; rewrite Hp.
    - destruct (split_on_app_suffix slash pre name) as [xs [_ ->]].
      rewrite last_app_nonempty by apply split_on_nonempty.
      rewrite split_on_none by exact Hname. reflexivity.
    - rewrite split_on_none by exact Hname. reflexivity. }
  rewrite Hl. reflexivity.
Qed.

Lemma fetchRepoName_last_segment_witness :
  fetchRepoName (ExecOk (String.append "/home/dev/gitopo" (String newline EmptyString))) = "gitopo".
Proof.
  refine (fetchRepoName_last_segment _ "/home/dev" "gitopo" _ _); [left; reflexivity | solve_no_char].
Defined.

(** ** The commit limit *)

Lemma Qltb_Z : forall a b, Qltb (inject_Z a) (inject_Z b) = Z.ltb a b.
Proof.
  intros a b. unfold Qltb. destruct (Qle_bool (inject_Z b) (inject_Z a)) eqn:E.
  - apply Qle_bool_iff in E. rewrite <- Zle_Qle in E. symmetry. apply Z.ltb_ge. exact E.
  - destruct (Z.ltb_spec a b) as [H|H]; [reflexivity|].
    exfalso. rewrite Zle_Qle, <- Qle_bool_iff in H. congruence.
Qed.

Lemma parseInt10_int : forall s q, parseInt10 s = Some q -> exists z, q = inject_Z z.
Proof.
  intros s q. unfold parseInt10.
  destruct (match trim_start s with
            | String "-"%char r => ((-1)%Z, r) | String "+"%char r => (1%Z, r)
            | _ => (1%Z, trim_start s) end) as [sign s2].
  destruct (digits_prefix s2 0%Z 0) as [v len]. destruct (Nat.eqb len 0); [discriminate|].
  intros H. injection H as <-. eauto.
Qed.

(** [getCommitLimit] always yields an integer from 1 to 100000000, and the
    [change] handler of the input, which resets an invalid value to 1000,
    never changes the limit [getCommitLimit] then reads. *)
Theorem commit_limit_valid : forall v,
  (exists n, getCommitLimit v = inject_Z n /\ (1 <= n <= 100000000)%Z) /\
  getCommitLimit (onCommitLimitChange v) = getCommitLimit v.
Proof.
  intros v. split.
  - unfold getCommitLimit. destruct (parseInt10 v) as [q|] eqn:E; [|exists 1000%Z; split; [reflexivity | lia]].
    destruct (parseInt10_int v q E) as [z ->].
    change 1%Q with (inject_Z 1). change 100000000%Q with (inject_Z 100000000).
    rewrite !Qltb_Z. destruct (Z.ltb_spec z 1); destruct (Z.ltb_spec 100000000 z); cbn [orb];
      try (exists 1000%Z; split; [reflexivity | lia]).
    exists z. split; [reflexivity | lia].
  - unfold onCommitLimitChange. destruct (parseInt10 v) as [q|] eqn:E;
      [|unfold getCommitLimit at 2; rewrite E; reflexivity].
    destruct (Qltb q 1 || Qltb 100000000 q)%bool eqn:C.
    + unfold getCommitLimit at 2. rewrite E, C. reflexivity.
    + reflexivity.
Qed.

(** A limit written in decimal between 1 and 100000000 is read as itself
    and left in place by the [change] handler. *)
Theorem commit_limit_decimal : forall n, (1 <= Z.of_nat n <= 100000000)%Z ->
  getCommitLimit (decimal n) = inject_Z (Z.of_nat n) /\ onCommitLimitChange (decimal n) = decimal n.
Proof.
  intros n Hn. unfold getCommitLimit, onCommitLimitChange. rewrite parseInt10_decimal.
  change 1%Q with (inject_Z 1). change 100000000%Q with (inject_Z 100000000).
  rewrite !Qltb_Z. destruct (Z.ltb_spec (Z.of_nat n) 1); [lia|].
  destruct (Z.ltb_spec 100000000 (Z.of_nat n)); [lia|]. split; reflexivity.
Qed.

Lemma commit_limit_decimal_witness :
  (1 <= Z.of_nat 250 <= 100000000)%Z /\ getCommitLimit (decimal 250) = inject_Z 250.
Proof.
  split; [lia|]. exact (proj1 (commit_limit_decimal 250 ltac:(lia))).
Defined.

(** ** Branch selectors *)

Lemma refresh_shape : forall kb bs cur,
  refreshSelections kb bs cur =
  map (fun i => let c := nth i cur EmptyString in
                if names_branch bs c then c else populated_value kb bs i) [0; 1; 2].
Proof. reflexivity. Qed.

Lemma populated_value_valid : forall kb bs i,
  populated_value kb bs i = EmptyString \/ exists b, In b bs /\ bname b = populated_value kb bs i.
Proof.
  intros kb bs i. unfold populated_value.
  destruct (truthy_s (nth i kb EmptyString)).
  - destruct (find _ bs) as [b|] eqn:E; [right | left; reflexivity].
    apply find_some in E. exists b. split; [exact (proj1 E) | reflexivity].
  - destruct (Nat.eqb i 0); [|left; reflexivity].
    unfold find_main_or_master. destruct (find _ bs) as [b|] eqn:E; [right | left; reflexivity].
    apply find_some in E. exists b. split; [exact (proj1 E) | reflexivity].
Qed.

Lemma names_branch_true : forall bs v, names_branch bs v = true -> exists b, In b bs /\ bname b = v.
Proof.
  intros bs v H. unfold names_branch in H. apply andb_true_iff in H as [_ H].
  apply existsb_exists in H as [b [Hb Heq]]. apply String.eqb_eq in Heq. eauto.
Qed.

Lemma selected_valid : forall bs vs,
  (forall v, In v vs -> v = EmptyString \/ exists b, In b bs /\ bname b = v) ->
  forall n, In n (getSelectedBranches vs) -> exists b, In b bs /\ bname b = n.
Proof.
  intros bs vs H n Hn. unfold getSelectedBranches in Hn. apply filter_In in Hn as [Hin Ht].
  destruct (H n Hin) as [->|Hb]; [discriminate | exact Hb].
Qed.

(** At start-up ([init] populates the selectors) and after every
    [refresh], the selected branches [getSelectedBranches] hands to
    [renderGraph] are at most three, each the name of a loaded branch. *)
Theorem selected_branches_exist : forall kb bs cur,
  length (getSelectedBranches (populateBranchSelectors kb bs)) <= 3 /\
  (forall n, In n (getSelectedBranches (populateBranchSelectors kb bs)) ->
     exists b, In b bs /\ bname b = n) /\
  length (getSelectedBranches (refreshSelections kb bs cur)) <= 3 /\
  (forall n, In n (getSelectedBranches (refreshSelections kb bs cur)) ->
     exists b, In b bs /\ bname b = n).
Proof.
  intros kb bs cur. unfold getSelectedBranches. split; [|split; [|split]].
  - etransitivity; [apply filter_length_le|]. reflexivity.
  - apply selected_valid. intros v Hv. unfold populateBranchSelectors in Hv.
    apply in_map_iff in Hv as [i [<- _]]. apply populated_value_valid.
  - etransitivity; [apply filter_length_le|]. reflexivity.
  - apply selected_valid. intros v Hv. rewrite refresh_shape in Hv.
    apply in_map_iff in Hv as [i [<- _]]. cbv zeta.
    destruct (names_branch bs (nth i cur EmptyString)) eqn:E.
    + right. apply names_branch_true, E.
    + apply populated_value_valid.
Qed.

(** [refresh] puts back every selection that still names a loaded branch;
    a selector the user left empty gets the value [populateBranchSelectors]
    gives it (its configured key branch, or main/master for the first)
    again; and refreshing twice over the same branches selects what
    refreshing once does. *)
Theorem refresh_keeps_selection : forall kb bs cur,
  (forall i, i < 3 -> names_branch bs (nth i cur EmptyString) = true ->
     nth i (refreshSelections kb bs cur) EmptyString = nth i cur EmptyString) /\
  (forall i, i < 3 -> nth i cur EmptyString = EmptyString ->
     nth i (refreshSelections kb bs cur) EmptyString =
     nth i (populateBranchSelectors kb bs) EmptyString) /\
  refreshSelections kb bs (refreshSelections kb bs cur) = refreshSelections kb bs cur.
Proof.
  intros kb bs cur. split; [|split].
  - intros i Hi Hn. rewrite refresh_shape.
    destruct i as [|[|[|i]]]; [| | |lia]; cbn [map nth]; rewrite Hn; reflexivity.
  - intros i Hi He. rewrite refresh_shape. unfold populateBranchSelectors.
    destruct i as [|[|[|i]]]; [| | |lia]; cbn [map nth]; rewrite He; reflexivity.
  - rewrite (refresh_shape kb bs (refreshSelections kb bs cur)), refresh_shape.
    cbn [map nth]. 
    destruct (names_branch bs (nth 0 cur EmptyString)) eqn:E0;
    destruct (names_branch bs (nth 1 cur EmptyString)) eqn:E1;
    destruct (names_branch bs (nth 2 cur EmptyString)) eqn:E2;
    rewrite ?E0, ?E1, ?E2;
    repeat match goal with |- context [if names_branch bs ?v then ?v else ?v] =>
      replace (if names_branch bs v then v else v) with v by (destruct (names_branch bs v); reflexivity)
    end; reflexivity.
Qed.

Lemma selected_branches_exist_witness :
  exists b, In b Inputs.branchFeed /\ bname b = "main".
Proof.
  apply (proj1 (proj2 (selected_branches_exist [] Inputs.branchFeed []))).
  cbn. left. reflexivity.
Defined.

Lemma refresh_keeps_selection_witness :
  names_branch Inputs.branchFeed "origin/main" = true /\
  nth 0 (refreshSelections ["main"] Inputs.branchFeed ["origin/main"; ""; ""]) EmptyString = "origin/main".
Proof.
  split; [reflexivity|].
  apply (proj1 (refresh_keeps_selection ["main"] Inputs.branchFeed ["origin/main"; ""; ""])); [lia | reflexivity].
Defined.

(** ** [findConnectingEdges] *)

Lemma fold_edges_mono : forall (g : CEState -> hash -> CEState) l st,
  (forall st x, exists suf, cedges (g st x) = (cedges st ++ suf)%list) ->
  exists suf, cedges (fold_left g l st) = (cedges st ++ suf)%list.
Proof.
  intros g l st Hg.
  apply (fold_left_invariant (fun st' => exists suf, cedges st' = (cedges st ++ suf)%list)).
  - exists []. rewrite app_nil_r. reflexivity.
  - intros st' x _ [suf Hs]. destruct (Hg st' x) as [suf' Hs']. rewrite Hs', Hs.
    exists (suf ++ suf')%list. rewrite app_assoc. reflexivity.
Qed.

Lemma fold_edges_collect : forall (g : CEState -> hash -> CEState) (e : hash -> hash * hash) l st,
  (forall st x, exists suf, cedges (g st x) = (cedges st ++ e x :: suf)%list) ->
  forall x, In x l -> In (e x) (cedges (fold_left g l st)).
Proof.
  intros g e l. induction l as [|y l IH]; intros st Hg x Hx; [destruct Hx|].
  cbn [fold_left]. destruct Hx as [->|Hx]; [|apply IH; assumption].
  assert (Hm : forall st' z, exists suf, cedges (g st' z) = (cedges st' ++ suf)%list).
  { intros st' z. destruct (Hg st' z) as [suf' Hs']. exists (e z :: suf'). exact Hs'. }
  destruct (fold_edges_mono g l (g st x) Hm) as [suf Hs].
  rewrite Hs. apply in_or_app. left. destruct (Hg st x) as [suf' ->].
  apply in_or_app. right. left. reflexivity.
Qed.

Lemma traverseParents_mono : forall cs lay f st h,
  exists suf, cedges (traverseParents cs lay f st h) = (cedges st ++ suf)%list.
Proof.
  intros cs lay. induction f as [|f IH]; intros st h; cbn [traverseParents];
    [exists []; rewrite app_nil_r; reflexivity|].
  destruct (mem h (cvisited st)); [exists []; rewrite app_nil_r; reflexivity|].
  destruct (hashToCommit cs h) as [c|]; [|exists []; rewrite app_nil_r; reflexivity].
  match goal with |- exists suf, cedges (fold_left ?g ?l ?s0) = _ =>
    enough (Hm : forall st' x, exists suf, cedges (g st' x) = (cedges st' ++ suf)%list)
      by (destruct (fold_edges_mono g l s0 Hm) as [suf Hs]; exists suf; exact Hs) end.
  intros st' x. cbv beta zeta.
  destruct (in_other_column _ _).
  - destruct (IH (mkCE (cedges st' ++ [(h, x)]) (cvisited st')) x) as [suf Hs]. rewrite Hs.
    exists ((h, x) :: suf). cbn [cedges]. rewrite <- app_assoc. reflexivity.
  - exists [(h, x)]. reflexivity.
Qed.

Lemma traverseChildren_mono : forall cs lay f st h,
  exists suf, cedges (traverseChildren cs lay f st h) = (cedges st ++ suf)%list.
Proof.
  intros cs lay. induction f as [|f IH]; intros st h; cbn [traverseChildren];
    [exists []; rewrite app_nil_r; reflexivity|].
  destruct (mem h (cvisited st)); [exists []; rewrite app_nil_r; reflexivity|].
  match goal with |- exists suf, cedges (fold_left ?g ?l ?s0) = _ =>
    enough (Hm : forall st' x, exists suf, cedges (g st' x) = (cedges st' ++ suf)%list)
      by (destruct (fold_edges_mono g l s0 Hm) as [suf Hs]; exists suf; exact Hs) end.
  intros st' x. cbv beta zeta.
  destruct (in_other_column _ _).
  - destruct (IH (mkCE (cedges st' ++ [(x, h)]) (cvisited st')) x) as [suf Hs]. rewrite Hs.
    exists ((x, h) :: suf). cbn [cedges]. rewrite <- app_assoc. reflexivity.
  - exists [(x, h)]. reflexivity.
Qed.

Lemma hashToChildren_In : forall cs h x,
  In x (hashToChildren cs h) -> exists c, In c cs /\ chash c = x /\ In h (parents c).
Proof.
  intros cs h x Hx. unfold hashToChildren in Hx. apply in_flat_map in Hx as [c [Hc Hx]].
  apply in_map_iff in Hx as [p [<- Hp]]. apply filter_In in Hp as [Hp Heq].
  apply String.eqb_eq in Heq. subst. eauto.
Qed.

Lemma traverseParents_links : forall cs lay f st h,
  (forall e, In e (cedges st) -> parent_link cs e) ->
  forall e, In e (cedges (traverseParents cs lay f st h)) -> parent_link cs e.
Proof.
  intros cs lay. induction f as [|f IH]; intros st h Hst; cbn [traverseParents]; [exact Hst|].
  destruct (mem h (cvisited st)); [exact Hst|].
  destruct (hashToCommit cs h) as [c|] eqn:Hc; [|exact Hst].
  apply (fold_left_invariant (fun st' => forall e, In e (cedges st') -> parent_link cs e)); [exact Hst|].
  intros st' x Hx Hst'. cbv zeta.
  assert (H1 : forall e, In e (cedges (mkCE (cedges st' ++ [(h, x)]) (cvisited st'))) -> parent_link cs e).
  { intros e He. cbn [cedges] in He. apply in_app_or in He as [He|[<-|[]]]; [exact (Hst' e He)|].
    apply hashToCommit_In in Hc as [Hin Hh]. exists c. cbn [fst snd]. auto. }
  destruct (in_other_column _ _); [apply IH; exact H1 | exact H1].
Qed.

Lemma traverseChildren_links : forall cs lay f st h,
  (forall e, In e (cedges st) -> parent_link cs e) ->
  forall e, In e (cedges (traverseChildren cs lay f st h)) -> parent_link cs e.
Proof.
  intros cs lay. induction f as [|f IH]; intros st h Hst; cbn [traverseChildren]; [exact Hst|].
  destruct (mem h (cvisited st)); [exact Hst|].
  apply (fold_left_invariant (fun st' => forall e, In e (cedges st') -> parent_link cs e)); [exact Hst|].
  intros st' x Hx Hst'. cbv zeta.
  assert (H1 : forall e, In e (cedges (mkCE (cedges st' ++ [(x, h)]) (cvisited st'))) -> parent_link cs e).
  { intros e He. cbn [cedges] in He. apply in_app_or in He as [He|[<-|[]]]; [exact (Hst' e He)|].
    destruct (hashToChildren_In cs h x Hx) as [c [Hin [Hh Hp]]]. exists c. cbn [fst snd]. auto. }
  destruct (in_other_column _ _); [apply IH; exact H1 | exact H1].
Qed.

Lemma traverseParents_S : forall cs lay f st h,
  traverseParents cs lay (S f) st h =
  if mem h (cvisited st) then st else
  match hashToCommit cs h with
  | None => mkCE (cedges st) (set_add (cvisited st) h)
  | Some commit =>
      fold_left (fun st' parentHash =>
          let st' := mkCE (cedges st' ++ [(h, parentHash)]) (cvisited st') in
          if in_other_column (length (branchLineages lay)) (hget (positions lay) parentHash)
          then traverseParents cs lay f st' parentHash else st')
        (parents commit) (mkCE (cedges st) (set_add (cvisited st) h))
  end.
Proof. reflexivity. Qed.

Lemma traverseChildren_S : forall cs lay f st h,
  traverseChildren cs lay (S f) st h =
  if mem h (cvisited st) then st else
  fold_left (fun st' childHash =>
      let st' := mkCE (cedges st' ++ [(childHash, h)]) (cvisited st') in
      if in_other_column (length (branchLineages lay)) (hget (positions lay) childHash)
      then traverseChildren cs lay f st' childHash else st')
    (hashToChildren cs h) (mkCE (cedges st) (set_add (cvisited st) h)).
Proof. reflexivity. Qed.

(** Hovering an "Other" commit highlights only real edges: every pair
    [findConnectingEdges] returns is a commit of the history and one of its
    parents. And it highlights every edge at the hovered commit: each of its
    parent links and each link from one of its children (the start is taken
    out of [visited] between the two walks for this). *)
Theorem connecting_edges_sound_complete : forall cs lay start,
  (forall e, In e (findConnectingEdges cs lay start) -> parent_link cs e) /\
  (forall c p, hashToCommit cs start = Some c -> In p (parents c) ->
     In (start, p) (findConnectingEdges cs lay start)) /\
  (forall child, In child (hashToChildren cs start) ->
     In (child, start) (findConnectingEdges cs lay start)).
Proof.
  intros cs lay start. unfold findConnectingEdges. cbv zeta. split; [|split].
  - apply traverseChildren_links. cbn [cedges]. apply traverseParents_links. intros e [].
  - intros c p Hc Hp.
    destruct (traverseChildren_mono cs lay (S (S (length cs)))
      (mkCE (cedges (traverseParents cs lay (S (S (length cs))) (mkCE [] []) start))
            (filter (fun x => negb (String.eqb x start))
               (cvisited (traverseParents cs lay (S (S (length cs))) (mkCE [] []) start)))) start)
      as [suf ->].
    apply in_or_app. left. cbn [cedges]. rewrite traverseParents_S. cbn [cvisited mem existsb]. rewrite Hc.
    apply (fold_edges_collect _ (fun q => (start, q))); [|exact Hp].
    intros st x. cbv beta zeta. destruct (in_other_column _ _).
    + destruct (traverseParents_mono cs lay (S (length cs)) (mkCE (cedges st ++ [(start, x)]) (cvisited st)) x)
        as [suf' ->]. exists suf'. cbn [cedges]. rewrite <- app_assoc. reflexivity.
    + exists []. reflexivity.
  - intros child Hchild. rewrite traverseChildren_S. cbn [cvisited].
    set (V := filter _ _).
    replace (mem start V) with false.
    + cbn [cedges cvisited]. apply (fold_edges_collect _ (fun q => (q, start))); [|exact Hchild].
      intros st x. cbv beta zeta. destruct (in_other_column _ _).
      * destruct (traverseChildren_mono cs lay (S (length cs)) (mkCE (cedges st ++ [(x, start)]) (cvisited st)) x)
          as [suf' ->]. exists suf'. cbn [cedges]. rewrite <- app_assoc. reflexivity.
      * exists []. reflexivity.
    + symmetry. apply mem_false. unfold V. intros Hin. apply filter_In in Hin as [_ Hin].
      rewrite String.eqb_refl in Hin. discriminate.
Qed.

Lemma connecting_edges_sound_complete_witness :
  hashToCommit Inputs.orphan "o1" = Some (Inputs.mk "o1" ["zz"] 2) /\
  In ("o1", "zz") (findConnectingEdges Inputs.orphan Inputs.orphanLayout "o1").
Proof.
  split; [reflexivity|].
  apply (proj1 (proj2 (connecting_edges_sound_complete Inputs.orphan Inputs.orphanLayout "o1"))
           (Inputs.mk "o1" ["zz"] 2) "zz"); [reflexivity | left; reflexivity].
Defined.

(** ** Pointer interaction *)

Module InteractionProofs.
Import Zoom Interaction.
Import Stdlib.Reals.Reals Stdlib.micromega.Lra.
Local Open Scope R_scope.

Lemma step_zoom_ok : forall s ev, zoom_ok s -> zoom_ok (step s ev).
Proof.
  intros s ev Hs. unfold zoom_ok in *.
  destruct ev as [rt e|b x y|x y|b| |ts|ts|]; cbn [step].
  - apply ZoomProofs.wheel_keeps_zoom_range. exact Hs.
  - destruct (Nat.eqb b 0); exact Hs.
  - destruct (isDragging s); exact Hs.
  - destruct (Nat.eqb b 0); exact Hs.
  - exact Hs.
  - destruct ts as [|[x y] [|]]; exact Hs.
  - destruct ts as [|[x y] [|]]; exact Hs.
  - exact Hs.
Qed.

(** Whatever the user does (wheel, drags, touches, re-renders), the time
    zoom stays in [0.1, 5]; in particular it stays positive, the condition
    under which the Ctrl/Cmd wheel zoom keeps the point under the cursor. *)
Theorem zoom_always_in_range : forall evs,
  minZoom <= timeZoom (view (run initial evs)) <= maxZoom.
Proof.
  intros evs. apply (fold_left_invariant zoom_ok); [|intros; apply step_zoom_ok; assumption].
  unfold zoom_ok, minZoom, maxZoom. cbn. lra.
Qed.

(** A left-button drag or a one-finger touch drag keeps the graph point
    grabbed at the press under the pointer: after any moves, the point is
    shown where the pointer is. *)
Theorem drag_follows_pointer : forall s x0 y0 ms x y gx gy,
  screenX (view s) gx = x0 -> screenY (view s) gy = y0 ->
  (screenX (view (run s (EvMouseDown 0 x0 y0 :: mouse_moves ms ++ [EvMouseMove x y]))) gx = x /\
   screenY (view (run s (EvMouseDown 0 x0 y0 :: mouse_moves ms ++ [EvMouseMove x y]))) gy = y) /\
  (screenX (view (run s (EvTouchStart [(x0, y0)] :: touch_moves ms ++ [EvTouchMove [(x, y)]]))) gx = x /\
   screenY (view (run s (EvTouchStart [(x0, y0)] :: touch_moves ms ++ [EvTouchMove [(x, y)]]))) gy = y).
Proof.
  intros s x0 y0 ms x y gx gy Hx Hy. unfold run. split.
  - cbn [fold_left]. rewrite fold_left_app. cbn [fold_left].
    set (d := step s (EvMouseDown 0 x0 y0)).
    assert (Hd : isDragging (fold_left step (mouse_moves ms) d) = true /\
                 dragStartX (fold_left step (mouse_moves ms) d) = x0 /\
                 dragStartY (fold_left step (mouse_moves ms) d) = y0 /\
                 panStartX (fold_left step (mouse_moves ms) d) = panX (view s) /\
                 panStartY (fold_left step (mouse_moves ms) d) = panY (view s) /\
                 timeZoom (view (fold_left step (mouse_moves ms) d)) = timeZoom (view s)).
    { apply fold_left_invariant; [cbn; tauto|].
      intros st ev Hev Hst. unfold mouse_moves in Hev. apply in_map_iff in Hev as [[a b] [<- _]].
      cbn [step]. destruct Hst as [Hdr Hst]. rewrite Hdr. cbn. split; [exact Hdr | tauto]. }
    set (st := fold_left step (mouse_moves ms) d) in *.
    destruct Hd as (H0 & H1 & H2 & H3 & H4 & H5). cbn [step]. rewrite H0.
    unfold screenX, screenY in *. cbn. rewrite H1, H2, H3, H4, H5. split; lra.
  - cbn [fold_left]. rewrite fold_left_app. cbn [fold_left].
    set (d := step s (EvTouchStart [(x0, y0)])).
    assert (Hd : touchStartX (fold_left step (touch_moves ms) d) = x0 /\
                 touchStartY (fold_left step (touch_moves ms) d) = y0 /\
                 touchPanStartX (fold_left step (touch_moves ms) d) = panX (view s) /\
                 touchPanStartY (fold_left step (touch_moves ms) d) = panY (view s) /\
                 timeZoom (view (fold_left step (touch_moves ms) d)) = timeZoom (view s)).
    { apply fold_left_invariant; [cbn; tauto|].
      intros st ev Hev Hst. unfold touch_moves in Hev. apply in_map_iff in Hev as [[a b] [<- _]].
      cbn. tauto. }
    set (st := fold_left step (touch_moves ms) d) in *.
    destruct Hd as (H1 & H2 & H3 & H4 & H5). cbn [step].
    unfold screenX, screenY in *. cbn. rewrite H1, H2, H3, H4, H5. split; lra.
Qed.

Lemma drag_follows_pointer_witness :
  screenX (view initial) 10 = 10 /\
  screenX (view (run initial (EvMouseDown 0 10 20 :: mouse_moves [(12, 22)] ++ [EvMouseMove 15 27]))) 10 = 15.
Proof.
  split; [unfold screenX; cbn; lra|].
  refine (proj1 (proj1 (drag_follows_pointer initial 10 20 [(12, 22)] 15 27 10 20 _ _)));
    unfold screenX, screenY; cbn; lra.
Defined.

(** Once the pointer leaves the graph or the left button is released, mouse
    moves no longer pan: the view stays as it was. *)
Theorem drag_ends : forall s ms,
  view (run (step s EvMouseLeave) (mouse_moves ms)) = view s /\
  view (run (step s (EvMouseUp 0)) (mouse_moves ms)) = view s.
Proof.
  intros s ms. unfold run.
  assert (Hgen : forall st, isDragging st = false ->
            fold_left step (mouse_moves ms) st = st).
  { induction ms as [|[a b] ms IH]; intros st Hst; [reflexivity|].
    cbn [mouse_moves map fold_left step]. rewrite Hst. apply IH, Hst. }
  split; rewrite Hgen by reflexivity; reflexivity.
Qed.

End InteractionProofs.
